(** * k-combinatorics of partitions: a shallow embedding of [main.py],
    [src/partition.py] and [k_combinat_for_sage/all.py].

    Python integers are [Z], Python lists are [list Z], Python sets are
    [gset Z] and Sage's free-module elements (dictionaries from a basis index
    to a non-zero coefficient) are [gmap (list Z) C].  A call that can raise
    or loop returns an [outcome]. *)

From Stdlib Require Import ZArith List Lia Permutation Ring.
From stdpp Require Import base tactics option numbers list list_numbers sorting strings gmap fin_maps fin_sets.

Local Open Scope Z_scope.

(** ** Part I: the embedding *)

(** *** Python values and control flow *)

Module Py.

(** The exception classes raised by the modelled code. *)
Inductive exn : Type :=
| ValueError
| IndexError
| TypeError.

(** What a call does: it returns a value, raises, or is still running when
    the fuel given to a [while True] loop is spent. *)
Inductive outcome (A : Type) : Type :=
| Returned (a : A)
| Raised (e : exn)
| OutOfFuel.

Arguments Returned {A} a.
Arguments Raised {A} e.
Arguments OutOfFuel {A}.

Definition bind {A B : Type} (m : outcome A) (f : A -> outcome B) : outcome B :=
  match m with
  | Returned a => f a
  | Raised e => Raised e
  | OutOfFuel => OutOfFuel
  end.

Definition is_returned {A : Type} (m : outcome A) : bool :=
  match m with Returned _ => true | _ => false end.

(** [range(a, b)]. *)
Definition range (a b : Z) : list Z := seqZ a (b - a).

(** The position [l[i]] denotes: negative indices count from the end, and an
    index outside [-len(l) .. len(l)-1] is an [IndexError]. *)
Definition index {A : Type} (l : list A) (i : Z) : outcome nat :=
  let n := Z.of_nat (length l) in
  if bool_decide (0 <= i < n) then Returned (Z.to_nat i)
  else if bool_decide (- n <= i < 0) then Returned (Z.to_nat (n + i))
  else Raised IndexError.

(** [l[i]]. *)
Definition getitem {A : Type} (l : list A) (i : Z) : outcome A :=
  bind (index l i) (fun k =>
    match l !! k with
    | Some x => Returned x
    | None => Raised IndexError
    end).

(** [l[i] = x]. *)
Definition setitem {A : Type} (l : list A) (i : Z) (x : A) : outcome (list A) :=
  bind (index l i) (fun k => Returned (<[k := x]> l)).

(** [for x in items: st = body(st, x)], stopping at the first exception. *)
Fixpoint for_each {A S : Type} (body : S -> A -> outcome S) (items : list A) (st : S) : outcome S :=
  match items with
  | [] => Returned st
  | x :: items' => bind (body st x) (for_each body items')
  end.

(** [enumerate(l)], counting from [i]. *)
Fixpoint enumerate_from {A : Type} (i : nat) (l : list A) : list (nat * A) :=
  match l with
  | [] => []
  | x :: l' => (i, x) :: enumerate_from (S i) l'
  end.

Definition enumerate {A : Type} (l : list A) : list (nat * A) := enumerate_from 0 l.

(** [len(l)] as a Python integer. *)
Definition len {A : Type} (l : list A) : Z := Z.of_nat (length l).

End Py.

Import Py.

(** [outcome] is a monad; stdpp's [x ← m; k] sequences two calls. *)
#[global] Instance outcome_ret : MRet outcome := fun A a => Returned a.
#[global] Instance outcome_bind : MBind outcome := fun A B f m => bind m f.

(** *** main.py / all.py: [get_k_irreducible_partition_lists] *)

(** One round of the outer loop: every list built so far is extended by
    [num_rows] copies of [k - i], for [num_rows] in [range(0, i+1)]. *)
Definition k_irr_round (k : nat) (k_irr_ptns : list (list Z)) (i : nat) : list (list Z) :=
  flat_map
    (fun ptn =>
       map (fun num_rows => ptn ++ replicate num_rows (Z.of_nat k - Z.of_nat i))
           (seq 0 (i + 1)))
    k_irr_ptns.

Definition get_k_irreducible_partition_lists (k : nat) : list (list Z) :=
  foldl (k_irr_round k) [[]] (seq 1 (k - 1)).

(** *** all.py: [HallLittlewoodVertexOperator] *)

(** What the constructor is called with: an integer, a list (or Partition),
    or anything else. *)
Inductive composition_arg : Type :=
| ArgInt (k : Z)
| ArgList (gamma : list Z)
| ArgOther.

Section VertexOperator.

(** The symmetric-function element type and its single-part creation
    operator [input_.hl_creation_operator([part])], supplied by Sage. *)
Variable E : Type.
Variable hl_creation_operator : Z -> E -> E.

(** [__init__]: the stored composition. [composition in NN] holds for the
    non-negative integers only. *)
Definition HallLittlewoodVertexOperator (composition : composition_arg) : outcome (list Z) :=
  match composition with
  | ArgInt k => if bool_decide (0 <= k) then Returned [k] else Raised ValueError
  | ArgList gamma => Returned gamma
  | ArgOther => Raised ValueError
  end.

(** [__call__]: one creation operator per part of [reversed(gamma)]. *)
Definition HallLittlewoodVertexOperator_call (gamma : list Z) (input_ : E) : E :=
  foldl (fun acc part => hl_creation_operator part acc) input_ (reverse gamma).

(** [H(composition)(input_)]. *)
Definition H_apply (composition : composition_arg) (input_ : E) : outcome E :=
  gamma ← HallLittlewoodVertexOperator composition;
  Returned (HallLittlewoodVertexOperator_call gamma input_).

End VertexOperator.

(** *** main.py: [is_weakly_decreasing] *)

(** [all(li[i] >= li[i+1] for i in range(len(li)-1))]. *)
Definition is_weakly_decreasing (li : list Z) : bool :=
  forallb (fun i => bool_decide (nth i li 0 >= nth (S i) li 0)) (seq 0 (length li - 1)).

(** *** Sage's partitions and skew partitions (external collaborator) *)

Module Sage.

(** Modelled from the spec: Sage's [Partition.conjugate], which is not part
    of this repository: column [j] of the diagram has as many cells as there
    are parts greater than [j]. *)
Definition conjugate (p : list Z) : list Z :=
  map (fun j => Z.of_nat (length (filter (fun x => j < x) p)))
      (range 0 (hd 0 p)).

(** [mu[:mu.index(0)]]: the list up to its first zero. *)
Fixpoint strip_zeros (mu : list Z) : list Z :=
  match mu with
  | [] => []
  | x :: mu' => if bool_decide (x = 0) then [] else x :: strip_zeros mu'
  end.

(** Modelled from the spec: Sage's [Partition(mu)] constructor, which is not
    part of this repository: [mu] must be a weakly decreasing list of
    non-negative integers; the partition is [mu] without its trailing zeros. *)
Definition Partition (mu : list Z) : outcome (list Z) :=
  if forallb (fun x => bool_decide (0 <= x)) mu && is_weakly_decreasing mu
  then Returned (strip_zeros mu)
  else Raised ValueError.

(** Modelled from the spec: Sage's [Partition.contains]. *)
Definition contains (outer inner : list Z) : bool :=
  bool_decide (length inner <= length outer)%nat &&
  forallb (fun i => bool_decide (nth i outer 0 >= nth i inner 0)) (seq 0 (length inner)).

(** Modelled from the spec: Sage's [SkewPartition([outer, inner])]
    constructor, which is not part of this repository: both lists are made
    partitions and the inner one must be contained in the outer one. *)
Definition SkewPartition (outer inner : list Z) : outcome (list Z * list Z) :=
  o ← Partition outer;
  i ← Partition inner;
  if contains o i then Returned (o, i) else Raised ValueError.

(** Modelled from the spec: Sage's [SkewPartition.row_lengths]. *)
Definition row_lengths (sp : list Z * list Z) : list Z :=
  zip_with Z.sub (fst sp) (snd sp) ++ drop (length (snd sp)) (fst sp).

(** Modelled from the spec: Sage's [SkewPartition.column_lengths], the row
    lengths of the conjugate skew partition. *)
Definition column_lengths (sp : list Z * list Z) : list Z :=
  row_lengths (conjugate (fst sp), conjugate (snd sp)).

(** Modelled from the spec: Sage's [Partition.hook_lengths]. *)
Definition hook_lengths (p : list Z) : list (list Z) :=
  let conj := conjugate p in
  imap (fun i p_i =>
          map (fun j => p_i - (Z.of_nat i + 1) + nth (Z.to_nat j) conj 0 - (j + 1) + 1)
              (range 0 p_i))
       p.

(** Modelled from the spec: Sage's [Partitions(n)], the partitions of [n]
    from [[n]] down to [[1, ..., 1]]; [partitions_upto fuel n m] lists those
    with parts at most [m]. *)
Fixpoint partitions_upto (fuel n m : nat) : list (list Z) :=
  match n, fuel with
  | O, _ => [[]]
  | _, O => []
  | _, S fuel' =>
      flat_map (fun j => map (cons (Z.of_nat j)) (partitions_upto fuel' (n - j) j))
               (reverse (seq 1 (Nat.min n m)))
  end.

Definition Partitions (n : nat) : list (list Z) := partitions_upto n n n.

End Sage.

(** *** main.py: [SkewPartition2.is_skew_linked_diagram] *)

Definition is_skew_linked_diagram (sp : list Z * list Z) : bool :=
  is_weakly_decreasing (Sage.row_lengths sp) && is_weakly_decreasing (Sage.column_lengths sp).

(** *** main.py: [row_col_to_skew_partition] *)

(** The local variables the two loops update. *)
Record rc_state : Type := RcState {
  rc_outer : list Z;
  rc_inner : list Z;
  rc_current_cs : list Z;
  rc_row_index : Z
}.

(** [for c in range(...): current_cs[c] += 1]. *)
Definition incr_cols (current_cs : list Z) (cols : list Z) : outcome (list Z) :=
  for_each (fun cur c => v ← getitem cur c; setitem cur c (v + 1)) cols current_cs.

(** The [while num_rows_to_slide > 0] loop; the counter falls by one each
    round, so it runs [n = num_rows_to_slide] rounds unless it raises. *)
Fixpoint slide_rows (rs : list Z) (col_num : Z) (n : nat) (st : rc_state) : outcome rc_state :=
  match n with
  | O => Returned st
  | S n' =>
      if bool_decide (rc_row_index st > len rs - 1) then Raised ValueError
      else
        r ← getitem rs (rc_row_index st);
        cur ← incr_cols (rc_current_cs st) (range (col_num - r) col_num);
        slide_rows rs col_num n'
          {| rc_outer := rc_outer st ++ [col_num];
             rc_inner := rc_inner st ++ [col_num - r];
             rc_current_cs := cur;
             rc_row_index := rc_row_index st + 1 |}
  end.

(** The body of [for col_coindex, col_length in enumerate(list(reversed(cs)))]. *)
Definition rc_column (rs cs : list Z) (st : rc_state) (item : nat * Z) : outcome rc_state :=
  let '(col_coindex, col_length) := item in
  current_col_length ← getitem (reverse (rc_current_cs st)) (Z.of_nat col_coindex);
  let num_rows_to_slide := col_length - current_col_length in
  if bool_decide (num_rows_to_slide < 0) then Raised ValueError
  else
    let col_num := len cs - Z.of_nat col_coindex in
    slide_rows rs col_num (Z.to_nat num_rows_to_slide) st.

Definition row_col_to_skew_partition (rs cs : list Z) : outcome (list Z * list Z) :=
  st ← for_each (rc_column rs cs) (enumerate (reverse cs))
        {| rc_outer := []; rc_inner := [];
           rc_current_cs := replicate (length cs) 0; rc_row_index := 0 |};
  Sage.SkewPartition (rc_outer st) (rc_inner st).

(** *** main.py / all.py: [n_to_number_of_linked_partition_self_pairs] *)

(** The loop over the candidates: the bare [except:] swallows whatever the
    call raises, the [else:] branch counts a call that returned. *)
Fixpoint count_linked (ps : list (list Z)) (count : Z) : outcome Z :=
  match ps with
  | [] => Returned count
  | p :: ps' =>
      match row_col_to_skew_partition p p with
      | Returned _ => count_linked ps' (count + 1)
      | Raised _ => count_linked ps' count
      | OutOfFuel => OutOfFuel
      end
  end.

Definition n_to_number_of_linked_partition_self_pairs (n : nat) : outcome Z :=
  count_linked (Sage.Partitions n) 0.

(** *** main.py: [kBoundary] *)

(** [kBoundary.__init__]: the outer partition is [l] itself, the inner one
    counts, row by row, the hook lengths above [k]. *)
Definition kBoundary (l : list Z) (k : Z) : outcome (list Z * list Z) :=
  let outer_partition := l in
  let inner_partition :=
    map (fun row_hook_lengths => len (filter (fun x => x > k) row_hook_lengths))
        (Sage.hook_lengths l) in
  Sage.SkewPartition outer_partition inner_partition.

(** *** partition.py / main.py: [is_symmetric] *)

(** The inner loop [for k in range(ptn[-j], ptn[-j-1])]: [Some false] is the
    early [return False], [None] means the loop ran to its end. *)
Fixpoint is_symmetric_inner (ptn : list Z) (j : Z) (ks : list Z) : outcome (option bool) :=
  match ks with
  | [] => Returned None
  | k :: ks' =>
      v ← getitem ptn k;
      if bool_decide (v <> Z.of_nat (length ptn) - j) then Returned (Some false)
      else is_symmetric_inner ptn j ks'
  end.

(** The outer loop [for j in range(0, len(ptn))]. *)
Fixpoint is_symmetric_outer (ptn : list Z) (js : list Z) : outcome bool :=
  match js with
  | [] => Returned true
  | j :: js' =>
      a ← getitem ptn (- j);
      b ← getitem ptn (- j - 1);
      r ← is_symmetric_inner ptn j (range a b);
      match r with
      | Some v => Returned v
      | None => is_symmetric_outer ptn js'
      end
  end.

Definition is_symmetric (ptn : list Z) : outcome bool :=
  is_symmetric_outer ptn (range 0 (Z.of_nat (length ptn))).

(** *** all.py: [straighten] *)

(** The value [straighten] returns: [0], or [sign * s(index)] for the
    basis [s] it is given. *)
Inductive straightened : Type :=
| Zero
| Term (sign : Z) (index : list Z).

Definition has_nonnegative_parts (lis : list Z) : bool :=
  forallb (fun e => bool_decide (e >= 0)) lis.

(** [len(set(lis)) == len(lis)]. *)
Definition has_distinct_parts (lis : list Z) : bool :=
  bool_decide (size (list_to_set lis : gset Z) = length lis).

(** The two nested loops over [i] and [j > i]. *)
Definition number_of_noninversions (lis : list Z) : Z :=
  foldl (fun num i =>
           foldl (fun num j => if bool_decide (nth i lis 0 < nth j lis 0) then num + 1 else num)
                 num (seq (i + 1) (length lis - (i + 1))))
        0 (seq 0 (length lis)).

(** [rho = list(range(len(gamma) - 1, -1, -1))]. *)
Definition rho (l : Z) : list Z := map (fun i => l - 1 - i) (range 0 l).

Definition straighten (gamma : list Z) : straightened :=
  let rho := rho (len gamma) in
  let combined := zip_with Z.add gamma rho in
  if has_distinct_parts combined && has_nonnegative_parts combined then
    let sign := (-1) ^ number_of_noninversions combined in
    let sort_combined := reverse (merge_sort Z.le combined) in
    let new_gamma := zip_with Z.sub sort_combined rho in
    Term sign new_gamma
  else Zero.

(** *** main.py: [skew_partition_to_selected_rows] *)

(** What [bump_path_piece] returns: [(None, True)] when the path broke free
    of the shape, [(row_index3, False)] otherwise. *)
Inductive path_piece : Type :=
| BrokeFree
| Reached (row_index3 : Z).

(** [blocked_rows += new_blocked_rows] on two Python sets: [set] has no
    [+=], so the statement raises [TypeError]. *)
Definition set_iadd (blocked_rows new_blocked_rows : gset Z) : outcome (gset Z) :=
  Raised TypeError.

(** The same statement read as [blocked_rows |= new_blocked_rows]. *)
Definition set_ior (blocked_rows new_blocked_rows : gset Z) : outcome (gset Z) :=
  Returned (blocked_rows ∪ new_blocked_rows).

Section SelectedRows.

(** The cell finders [left(row)] and [top(col)]: they are called in
    [bump_path_piece] and defined nowhere in the repository's sources.  Each
    returns a cell [(row, col)], or [None]. *)
Variable left : Z -> option (Z * Z).
Variable top : Z -> option (Z * Z).

(** [sp.outer()]. *)
Variable outer : list Z.

(** The in-place update of the blocked set used by the main loop. *)
Variable iadd : gset Z -> gset Z -> outcome (gset Z).

(** [cell[k]] on what a cell finder returned: subscripting [None] raises. *)
Definition cell_of (c : option (Z * Z)) : outcome (Z * Z) :=
  match c with
  | Some cell => Returned cell
  | None => Raised TypeError
  end.

(** [while row_index3 in blocked_rows: row_index3 += 1]. *)
Fixpoint skip_blocked (fuel : nat) (blocked_rows : gset Z) (row_index3 : Z) : outcome Z :=
  match fuel with
  | O => OutOfFuel
  | S fuel' =>
      if decide (row_index3 ∈ blocked_rows)
      then skip_blocked fuel' blocked_rows (row_index3 + 1)
      else Returned row_index3
  end.

Definition bump_path_piece (fuel : nat) (start_row_index : Z) (blocked_rows : gset Z)
  : outcome path_piece :=
  cell2 ← cell_of (left start_row_index);
  let col_index2 := cell2.2 in
  cell_under3 ← cell_of (top col_index2);
  row_index3 ← skip_blocked fuel blocked_rows (cell_under3.1);
  let max_row_index := len outer - 1 in
  if bool_decide (row_index3 > max_row_index) then Returned BrokeFree
  else Returned (Reached row_index3).

(** The [while True] loop of [bump_path]. *)
Fixpoint bump_path_loop (fuel : nat) (row_index : Z) (blocked_rows new_blocked_rows : gset Z)
  : outcome (gset Z) :=
  match fuel with
  | O => OutOfFuel
  | S fuel' =>
      piece ← bump_path_piece fuel row_index blocked_rows;
      match piece with
      | BrokeFree => Returned new_blocked_rows
      | Reached row_index' =>
          bump_path_loop fuel' row_index' blocked_rows (new_blocked_rows ∪ {[row_index']})
      end
  end.

Definition bump_path (fuel : nat) (row_index : Z) (blocked_rows : gset Z) : outcome (gset Z) :=
  bump_path_loop fuel row_index blocked_rows {[row_index]}.

(** The body of [for row_index, outer_row in enumerate(sp.outer())]. *)
Definition selected_rows_step (fuel : nat) (blocked_rows : gset Z) (item : nat * Z)
  : outcome (gset Z) :=
  new_blocked_rows ← bump_path fuel (Z.of_nat item.1) blocked_rows;
  iadd blocked_rows new_blocked_rows.

Definition selected_rows_with (fuel : nat) : outcome (list Z) :=
  blocked_rows ← for_each (selected_rows_step fuel) (enumerate outer) ∅;
  let all_rows : gset Z := list_to_set (range 0 (len outer)) in
  Returned (merge_sort Z.le (elements (all_rows ∖ blocked_rows))).

End SelectedRows.

(** Modelled from the spec: the cell finder [left], which is missing from
    the repository's sources: the leftmost cell of [row] in the skew shape,
    in column [inner[row]], or [None] when the row has no cell. *)
Definition left (sp : list Z * list Z) (row : Z) : option (Z * Z) :=
  let o := nth (Z.to_nat row) sp.1 0 in
  let i := nth (Z.to_nat row) sp.2 0 in
  if bool_decide (0 <= row /\ i < o) then Some (row, i) else None.

(** Modelled from the spec: the cell finder [top], which is missing from the
    repository's sources: the cell of column [col] in the topmost row (the
    one of largest index, as [test_main.py] has it) that occupies [col], or
    [None] when no row does. *)
Definition top (sp : list Z * list Z) (col : Z) : option (Z * Z) :=
  match reverse (filter (fun row => nth (Z.to_nat row) sp.2 0 <= col < nth (Z.to_nat row) sp.1 0)
                        (range 0 (len sp.1))) with
  | row :: _ => Some (row, col)
  | [] => None
  end.

Definition skew_partition_to_selected_rows (fuel : nat) (sp : list Z * list Z)
  : outcome (list Z) :=
  selected_rows_with (left sp) (top sp) sp.1 set_iadd fuel.

(** *** all.py: [RaisingOperatorAlgebra] *)

(** [index_mul], local to [Element._mul_]. *)
Definition index_mul (index1 index2 : list Z) : list Z :=
  let max_len := Nat.max (length index1) (length index2) in
  let index1 := index1 ++ replicate (max_len - length index1) 0 in
  let index2 := index2 ++ replicate (max_len - length index2) 0 in
  zip_with Z.add index1 index2.

(** [ij_to_seq], local to [indexed_root_ideal_to_catalan_function]; the
    coordinates of a root ideal are natural numbers. *)
Definition ij_to_seq (ij : nat * nat) : list Z :=
  let '(i, j) := ij in
  let seq := replicate (Nat.max i j + 1) 0 in
  let seq := <[i := 1]> seq in
  let seq := <[j := -1]> seq in
  seq.

(** The base ring of the algebra ([QQ['t']] by default): its constants and
    operations.  Any commutative ring with a decidable equality will do. *)
Class CoeffRing (C : Type) : Type := {
  c0 : C;
  c1 : C;
  cadd : C -> C -> C;
  cmul : C -> C -> C;
  csub : C -> C -> C;
  copp : C -> C
}.

(** The integers as a base ring. *)
#[local] Instance Z_CoeffRing : CoeffRing Z :=
  {| c0 := 0; c1 := 1; cadd := Z.add; cmul := Z.mul; csub := Z.sub; copp := Z.opp |}.

Section RaisingOperatorAlgebra.

Context {C : Type} `{EqDecision C} `{CoeffRing C}.

(** Modelled from the spec: the elements of Sage's [CombinatorialFreeModule],
    which is not part of this repository: a dictionary from basis indices to
    non-zero coefficients. *)
Local Abbreviation element := (gmap (list Z) C).

(** [coeff * ROA(index)]. *)
Definition term (coeff : C) (index : list Z) : element :=
  if decide (coeff = c0) then ∅ else {[ index := coeff ]}.

(** The sum of two elements: coefficients of equal indices are added and a
    zero coefficient is dropped. *)
Definition elt_add (x y : element) : element :=
  union_with (fun a b => if decide (cadd a b = c0) then None else Some (cadd a b)) x y.

(** [ROA.sum(out_list)]. *)
Definition ROA_sum (out_list : list element) : element :=
  foldl elt_add ∅ out_list.

(** [-x] and [x - y]. *)
Definition elt_neg (x : element) : element := copp <$> x.
Definition elt_sub (x y : element) : element := elt_add x (elt_neg y).

(** [t * x] for a scalar [t]. *)
Definition scale (t : C) (x : element) : element :=
  omap (fun c => if decide (cmul t c = c0) then None else Some (cmul t c)) x.

(** [R(seq)], the basis element of index [seq], and [R.one()]. *)
Definition R (seq : list Z) : element := {[ seq := c1 ]}.
Definition one : element := R [].

(** [Element._mul_]: every pair of terms is multiplied, and the products
    are summed. *)
Definition _mul_ (self other : element) : element :=
  let self_index_coeff_list := map_to_list self in
  let other_index_coeff_list := map_to_list other in
  let out_index_coeff_list :=
    flat_map (fun '(index1, coeff1) =>
                map (fun '(index2, coeff2) => (index_mul index1 index2, cmul coeff1 coeff2))
                    other_index_coeff_list)
             self_index_coeff_list in
  let out_list := map (fun '(index, coeff) => term coeff index) out_index_coeff_list in
  ROA_sum out_list.

(** [prod], local to [indexed_root_ideal_to_catalan_function]:
    [reduce(R.Element._mul_, iterable, R.one())]. *)
Definition prod (iterable : list element) : element := foldl _mul_ one iterable.

(** The operator [op] of [indexed_root_ideal_to_catalan_function], for the
    pairs of the complement in the order they are enumerated. *)
Definition catalan_operator (t : C) (ri_complement : list (nat * nat)) : element :=
  let ri_complement_seq := map ij_to_seq ri_complement in
  prod (map (fun seq => elt_sub one (scale t (R seq))) ri_complement_seq).

(** **** Notions used to state and prove the algebra's laws *)

(** Finite sums in the base ring. *)
Definition lsum {A : Type} (f : A -> C) (l : list A) : C :=
  foldr (fun a acc => cadd (f a) acc) c0 l.

(** The coefficient of the index [k]. *)
Definition coef (x : element) (k : list Z) : C := default c0 (x !! k).

(** The sum of [G index coeff] over the terms of an element. *)
Definition ev (G : list Z -> C -> C) (x : element) : C :=
  lsum (fun p => G p.1 p.2) (map_to_list x).

(** [G] is additive in the coefficient. *)
Definition additive (G : list Z -> C -> C) : Prop :=
  (forall k, G k c0 = c0) /\ (forall k a b, G k (cadd a b) = cadd (G k a) (G k b)).

(** No stored coefficient is zero. *)
Definition wf (x : element) : Prop := forall k, x !! k <> Some c0.

(** The functional that reads off the coefficient of [k]. *)
Definition delta (k : list Z) (i : list Z) (c : C) : C := if decide (i = k) then c else c0.

End RaisingOperatorAlgebra.

(** *** partition.py: calls guarded by [assert] *)

(** What a call of [partition.py] does: it returns a value, fails an
    [assert], raises one of the exceptions above, or is still running. *)
Inductive guarded (A : Type) : Type :=
| Value (a : A)
| AssertionError
| Error (e : exn)
| Unfinished.

Arguments Value {A} a.
Arguments AssertionError {A}.
Arguments Error {A} e.
Arguments Unfinished {A}.

#[global] Instance guarded_ret : MRet guarded := fun A a => Value a.
#[global] Instance guarded_bind : MBind guarded := fun A B f m =>
  match m with
  | Value a => f a
  | AssertionError => AssertionError
  | Error e => Error e
  | Unfinished => Unfinished
  end.

(** A call of a function of the first part, made from a guarded one. *)
Definition lift {A : Type} (m : outcome A) : guarded A :=
  match m with
  | Returned a => Value a
  | Raised e => Error e
  | OutOfFuel => Unfinished
  end.

(** [any(f(x) for x in l)]: the generator is consumed up to the first true
    value, and an exception raised on the way comes out of [any]. *)
Fixpoint any_of {A : Type} (f : A -> guarded bool) (l : list A) : guarded bool :=
  match l with
  | [] => Value false
  | x :: l' => b ← f x; if b : bool then Value true else any_of f l'
  end.

(** [max(ptn)] on a list that is not empty. *)
Definition py_max (x : Z) (l : list Z) : Z := foldl Z.max x l.

(** *** partition.py: rectangles and k-irreducibility *)

Definition k_rectangle_dimension_list (k : Z) : list (Z * Z) :=
  map (fun i => (k - i + 1, i)) (range 1 (k + 1)).

Definition has_rectangle (ptn : list Z) (h w : Z) : guarded bool :=
  if bool_decide (h >= 1) then
    if bool_decide (w >= 1) then
      let num_rows_of_len_w :=
        foldl (fun num part => if bool_decide (part = w) then num + 1 else num) 0 ptn in
      Value (bool_decide (num_rows_of_len_w >= h))
    else AssertionError
  else AssertionError.

Definition has_k_rectangle (ptn : list Z) (k : Z) : guarded bool :=
  any_of (fun '(a, b) => has_rectangle ptn a b) (k_rectangle_dimension_list k).

Definition is_k_bounded (ptn : list Z) (k : Z) : bool :=
  let least_upper_bound :=
    match ptn with
    | [] => 0
    | x :: ptn' => py_max x ptn'
    end in
  bool_decide (least_upper_bound <= k).

Definition is_k_reducible (ptn : list Z) (k : Z) : guarded bool :=
  if is_k_bounded ptn k then has_k_rectangle ptn k else AssertionError.

Definition is_k_irreducible (ptn : list Z) (k : Z) : guarded bool :=
  b ← is_k_reducible ptn k; Value (negb b).

(** *** all.py: [get_k_rectangles] and [get_k_irreducible_partitions] *)

(** [[f(x) for x in l]], stopping at the first exception. *)
Fixpoint list_of {A B : Type} (f : A -> outcome B) (l : list A) : outcome (list B) :=
  match l with
  | [] => Returned []
  | x :: l' => y ← f x; ys ← list_of f l'; Returned (y :: ys)
  end.

Definition get_k_rectangles (k : Z) : outcome (list (list Z)) :=
  list_of (fun '(a, b) => Sage.Partition (replicate (Z.to_nat b) a))
          (k_rectangle_dimension_list k).

Definition get_k_irreducible_partitions (k : nat) : outcome (list (list Z)) :=
  list_of Sage.Partition (get_k_irreducible_partition_lists k).

(** *** main.py: [k_boundary_to_partition], [is_k_boundary], [kBoundary.partition] *)

Module SagePartition.

(** Modelled from the spec: Sage's [Partition.k_interior], which is not part
    of this repository: row by row, the number of cells whose hook length
    exceeds [k]. *)
Definition k_interior (l : list Z) (k : Z) : outcome (list Z) :=
  Sage.Partition (map (fun row => len (filter (fun x => x > k) row)) (Sage.hook_lengths l)).

(** Modelled from the spec: Sage's [Partition.k_boundary], which is not part
    of this repository: the skew partition of [l] over its k-interior. *)
Definition k_boundary (l : list Z) (k : Z) : outcome (list Z * list Z) :=
  inner ← k_interior l k; Sage.SkewPartition l inner.

End SagePartition.

(** With [strict] set (the default) the function evaluates
    [is_k_boundary(skew_shape)], a call that lacks the argument [k]. *)
Definition k_boundary_to_partition (skew_shape : list Z * list Z) (strict : bool)
  : outcome (list Z) :=
  if strict then Raised TypeError else Returned skew_shape.1.

Definition is_k_boundary (skew_shape : list Z * list Z) (k : Z) : outcome bool :=
  if bool_decide (k = 0) then Returned (bool_decide (skew_shape.1 = skew_shape.2))
  else
    l ← k_boundary_to_partition skew_shape false;
    correct_k_boundary ← SagePartition.k_boundary l k;
    Returned (bool_decide (skew_shape = correct_k_boundary)).

(** [kBoundary.partition]. *)
Definition kBoundary_partition (self : list Z * list Z) : outcome (list Z) :=
  k_boundary_to_partition self false.

(** *** partition.py: [k_row_lengths] and [k_column_lengths] *)

Definition k_row_lengths (ptn : list Z) (k : Z) : outcome (list Z) :=
  sp ← SagePartition.k_boundary ptn k; Returned (Sage.row_lengths sp).

Definition k_column_lengths (ptn : list Z) (k : Z) : outcome (list Z) :=
  sp ← SagePartition.k_boundary ptn k; Returned (Sage.column_lengths sp).

(** *** partition.py: [boundary] and [k_rim] *)

(** [horizontal_piece], local to [boundary]. *)
Definition horizontal_piece (start : Z * Z) (bdy : list (Z * Z)) : list (Z * Z) :=
  let '(start_x, start_y) := start in
  let h_piece :=
    match last bdy with
    | None => [(start_x, start_y)]
    | Some b =>
        let stop_x := b.1 in
        let y := start_y in
        map (fun x => (x, y)) (range start_x stop_x)
    end in
  reverse h_piece.

Definition boundary (ptn : list Z) : list (Z * Z) :=
  let bdy :=
    foldl (fun bdy '(i, part) =>
             let '(cell_x, cell_y) := (part - 1, Z.of_nat i) in
             let '(x, y) := (cell_x + 1, cell_y + 1) in
             let bdy := bdy ++ horizontal_piece (x, y - 1) bdy in
             bdy ++ [(x, y)])
          [] (enumerate ptn) in
  let '(top_left_x, top_left_y) := (0, len ptn) in
  bdy ++ horizontal_piece (top_left_x, top_left_y) bdy.

(** [range(a, b, -1)]. *)
Definition range_down (a b : Z) : list Z := reverse (range (b + 1) (a + 1)).

Definition k_rim (ptn : list Z) (k : Z) : outcome (list (Z * Z)) :=
  interior ← SagePartition.k_interior ptn k;
  let interior_rim := boundary interior in
  top_left ← getitem interior_rim (-1);
  let interior_top_left_y := top_left.2 in
  let v_piece := map (fun y => (0, y)) (range (interior_top_left_y + 1) (len ptn + 1)) in
  bottom_right ← getitem interior_rim 0;
  let interior_bottom_right_x := bottom_right.1 in
  let ptn_bottom_right_x := match ptn with [] => 0 | part :: _ => part end in
  let h_piece :=
    map (fun x => (x, 0)) (range_down ptn_bottom_right_x interior_bottom_right_x) in
  Returned (h_piece ++ interior_rim ++ v_piece).

(** *** partition.py: [next] *)

(** [condition], local to [next]; [type] is [None] or a string. *)
Definition condition (type : option string) (a b : Z) : guarded bool :=
  match type with
  | Some t =>
      if String.eqb t "strictly decreasing" then Value (bool_decide (a < b - 1))
      else Error ValueError
  | None => Value (bool_decide (a < b))
  end.

(** The loop [for r in range(len(p) - 1, -1, -1)], entered with a [max]
    that is not [None]: [Some next_p] when the loop is left by [break] (or
    runs out of indices), [None] when it is left by [return None]. *)
Fixpoint next_loop (type : option string) (p min max : list Z) (rs : list Z) (next_p : list Z)
  : guarded (option (list Z)) :=
  match rs with
  | [] => Value (Some next_p)
  | r :: rs' =>
      if bool_decide (r = 0) then
        p_r ← lift (getitem p r);
        max_r ← lift (getitem max r);
        if bool_decide (p_r < max_r) then
          v ← lift (getitem next_p r);
          next_p ← lift (setitem next_p r (v + 1));
          Value (Some next_p)
        else Value None
      else
        p_r ← lift (getitem p r);
        max_r ← lift (getitem max r);
        go ← (if bool_decide (p_r < max_r)
              then p_r1 ← lift (getitem p (r - 1)); condition type p_r p_r1
              else Value false);
        if go : bool then
          v ← lift (getitem next_p r);
          next_p ← lift (setitem next_p r (v + 1));
          Value (Some next_p)
        else
          min_r ← lift (getitem min r);
          next_p ← lift (setitem next_p r min_r);
          next_loop type p min max rs' next_p
  end.

(** [next(p, min, max, type)]; the result [None] is Python's [None]. *)
Definition next (p min : list Z) (max : option (list Z)) (type : option string)
  : guarded (option (list Z)) :=
  _ ← match max with
      | Some mx =>
          pmax ← lift (Sage.Partition mx);
          pp ← lift (Sage.Partition p);
          if Sage.contains pmax pp then Value tt else AssertionError
      | None => Value tt
      end;
  pp ← lift (Sage.Partition p);
  pmin ← lift (Sage.Partition min);
  if Sage.contains pp pmin then
    max_is_empty ← match max with
                   | Some mx => pmax ← lift (Sage.Partition mx); Value (bool_decide (pmax = []))
                   | None => Value false
                   end;
    if max_is_empty : bool then Value None
    else
      match max with
      | None => q ← lift (Sage.Partition (p ++ [1])); Value (Some q)
      | Some mx =>
          let p := p ++ replicate (length mx - length p) 0 in
          let min := min ++ replicate (length mx - length min) 0 in
          let next_p := p in
          r ← next_loop type p min mx (reverse (range 0 (len p))) next_p;
          match r with
          | None => Value None
          | Some next_p => q ← lift (Sage.Partition next_p); Value (Some q)
          end
      end
  else AssertionError.

(** *** all.py: [RaisingOperatorAlgebra.Element.index] and [Element.__call__] *)

(** [raise_func], local to [Element.__call__], on an operand that is a list:
    the operand is padded to the length of [seq], then [seq] to the length
    of the padded operand, and the two are added entry by entry. *)
Definition raise_func (seq operand : list Z) : list Z :=
  let operand := operand ++ replicate (length seq - length operand) 0 in
  let seq := seq ++ replicate (length operand - length seq) 0 in
  zip_with Z.add operand seq.

Section RaisingOperatorAlgebraElement.

Context {C : Type} `{EqDecision C} `{CoeffRing C}.

(** [Element.indecis]: the support of the element. *)
Definition indecis (self : gmap (list Z) C) : list (list Z) := (map_to_list self).*1.

(** [Element.index]. *)
Definition Element_index (self : gmap (list Z) C) : outcome (list Z) :=
  if bool_decide (size self <> 1%nat) then Raised ValueError
  else getitem (indecis self) 0.

(** [call_monomial], local to [Element.__call__]. *)
Definition call_monomial (seq : list Z) (coeff : C) (operand : list Z) (power : nat)
  : list Z * C :=
  (Nat.iter power (raise_func seq) operand, coeff).

(** [Element.__call__] on an operand that is a list: one pair of a raised
    list and a coefficient for each term of the element. *)
Definition Element_call (self : gmap (list Z) C) (operand : list Z) : list (list Z * C) :=
  let index_coeff_list := map_to_list self in
  map (fun '(index, coeff) => call_monomial index coeff operand 1) index_coeff_list.

End RaisingOperatorAlgebraElement.

(** *** all.py: [compositional_hall_littlewood_Qp] *)

(** [H(gamma)(hl.one())], for the unit [one] of the Hall-Littlewood basis. *)
Definition compositional_hall_littlewood_Qp (E : Type) (hl_creation_operator : Z -> E -> E)
    (one : E) (gamma : composition_arg) : outcome E :=
  H_apply E hl_creation_operator gamma one.

(** *** Notions used to state and prove the properties *)

(** What every list holds after the rounds [i = 1 .. m]: it is weakly
    decreasing, its parts lie in [k-m .. k-1], and a part [v] occurs at most
    [k - v] times. *)
Definition k_irr_inv (k m : nat) (l : list Z) : Prop :=
  StronglySorted Z.ge l /\
  Forall (fun x => Z.of_nat k - Z.of_nat m <= x < Z.of_nat k) l /\
  forall v : Z, v <= Z.of_nat k ->
    Z.of_nat (length (filter (fun x => x = v) l)) <= Z.of_nat k - v.

(** A list is weakly decreasing when an earlier entry is never smaller than
    a later one. *)
Definition weakly_decreasing (li : list Z) : Prop :=
  forall i j x y, (i <= j)%nat -> li !! i = Some x -> li !! j = Some y -> y <= x.

(** The inner row length [kBoundary] computes for row [i], of length [p_i]. *)
Definition interior_row (l : list Z) (k : Z) (i : nat) (p_i : Z) : Z :=
  len (filter (fun x => x > k)
         (map (fun j => p_i - (Z.of_nat i + 1)
                        + nth (Z.to_nat j) (Sage.conjugate l) 0 - (j + 1) + 1)
              (range 0 p_i))).

(** A row of a skew diagram: its first column and the column after its
    last one, that is [(inner[k], outer[k])]. *)
Definition rowlen (r : Z * Z) : Z := r.2 - r.1.

(** The number of rows that have a cell in column [c]. *)
Definition cover (c : Z) (rows : list (Z * Z)) : Z :=
  len (filter (fun r => r.1 <= c < r.2) rows).

(** The loop state once exactly the rows [pre] have been slid into place,
    for a diagram of [n] columns. *)
Definition rc_of (n : Z) (pre : list (Z * Z)) : rc_state :=
  {| rc_outer := pre.*2;
     rc_inner := pre.*1;
     rc_current_cs := map (fun c => cover c pre) (range 0 n);
     rc_row_index := len pre |}.

(** Rows listed by weakly decreasing outer length, as the rows of a skew
    partition are. *)
Definition rows_sorted (rows : list (Z * Z)) : Prop :=
  StronglySorted (fun r r' => r'.2 <= r.2) rows.

(** The rows of the skew partition [(outer, inner)], the inner partition
    padded with zeros. *)
Definition sp_rows (outer inner : list Z) : list (Z * Z) :=
  zip (inner ++ replicate (length outer - length inner) 0) outer.

(** The pairs of positions [i < j] at which [l] increases. *)
Definition noninversion_pairs (l : list Z) : list (nat * nat) :=
  filter (fun p => (p.1 < p.2)%nat /\ nth p.1 l 0 < nth p.2 l 0)
         (list_prod (seq 0 (length l)) (seq 0 (length l))).

(** A list of points in which every point is one unit west or one unit
    north of the point before it. *)
Definition unit_steps (l : list (Z * Z)) : Prop :=
  forall i a b, l !! i = Some a -> l !! S i = Some b ->
    b = (a.1 - 1, a.2) \/ b = (a.1, a.2 + 1).

(** A path of such steps from [a] to [b], built point by point. *)
Inductive rim_path (a : Z * Z) : list (Z * Z) -> Z * Z -> Prop :=
| rim_path_start : rim_path a [a] a
| rim_path_west l x y : rim_path a l (x, y) -> rim_path a (l ++ [(x - 1, y)]) (x - 1, y)
| rim_path_north l x y : rim_path a l (x, y) -> rim_path a (l ++ [(x, y + 1)]) (x, y + 1).

(** The lexicographic order on partitions, a partition read as the sequence
    of its parts followed by zeros. *)
Definition lex_lt (p q : list Z) : Prop :=
  exists r : nat, (forall i, (i < r)%nat -> nth i p 0 = nth i q 0) /\ nth r p 0 < nth r q 0.

(** Row [i] of [p] can grow by one cell inside [max] with the rows above it
    kept as they are; [gap] is 0, or 1 when the parts must stay strictly
    decreasing. *)
Definition incrementable (gap : Z) (p max : list Z) (i : nat) : Prop :=
  nth i p 0 < nth i max 0 /\ (i = 0%nat \/ nth i p 0 < nth (i - 1) p 0 - gap).

(** The last such row among the first [m]. *)
Fixpoint last_incrementable (gap : Z) (p max : list Z) (m : nat) : option nat :=
  match m with
  | O => None
  | S m' =>
      if bool_decide (incrementable gap p max m') then Some m'
      else last_incrementable gap p max m'
  end.

(** The positive parts of [q] are strictly decreasing. *)
Definition strict_parts (q : list Z) : Prop :=
  forall i, 0 < nth (S i) q 0 -> nth (S i) q 0 < nth i q 0.

(** The rows [pre] account for the lists the loop of
    [row_col_to_skew_partition] has built: row [i] ends after column
    [outer[i]], starts in column [inner[i]] and has length [rs[i]]. *)
Definition rc_rows (rs : list Z) (st : rc_state) (pre : list (Z * Z)) : Prop :=
  rc_outer st = pre.*2 /\ rc_inner st = pre.*1 /\ rc_row_index st = len pre /\
  map rowlen pre = take (length pre) rs /\ (length pre <= length rs)%nat.

(** When no row of [pre] is empty or starts left of column 0, the counters
    [current_cs] are the column lengths of [pre]. *)
Definition rc_counts (n : Z) (st : rc_state) (pre : list (Z * Z)) : Prop :=
  Forall (fun r => 0 <= r.1 < r.2) pre ->
  rc_current_cs st = map (fun c => cover c pre) (range 0 n).

(** The state after the columns [len(cs) - 1] down to [len(cs) - t]: the
    rows end right of these columns, and fill them as [cs] asks. *)
Definition rc_inv (rs cs : list Z) (t : nat) (st : rc_state) (pre : list (Z * Z)) : Prop :=
  rc_rows rs st pre /\ rc_counts (len cs) st pre /\
  Forall (fun r => len cs - Z.of_nat t < r.2 <= len cs) pre /\
  (Forall (fun r => 0 <= r.1 < r.2) pre ->
   forall c, len cs - Z.of_nat t <= c < len cs -> cover c pre = nth (Z.to_nat c) cs 0).

(** The number of cells listed by row or by column lengths, [sum(l)]. *)
Definition total (l : list Z) : Z := foldr Z.add 0 l.

(** The negative of what [straighten] returns. *)
Definition straightened_neg (s : straightened) : straightened :=
  match s with
  | Zero => Zero
  | Term sign index => Term (- sign) index
  end.

(** ** Part II: properties *)

(** *** The k-irreducible partition lists *)

Lemma k_irr_round_length k ptns i :
  length (k_irr_round k ptns i) = (length ptns * (i + 1))%nat.
Proof.
  unfold k_irr_round. induction ptns as [|p ptns IH]; simpl; [done|].
  rewrite length_app, length_map, length_seq, IH. lia.
Qed.

Lemma k_irr_rounds_snoc k m :
  foldl (k_irr_round k) [[]] (seq 1 (S m)) =
  k_irr_round k (foldl (k_irr_round k) [[]] (seq 1 m)) (S m).
Proof. by rewrite seq_S, foldl_app. Qed.

Lemma k_irr_rounds_length k m :
  length (foldl (k_irr_round k) [[]] (seq 1 m)) = fact (S m).
Proof.
  induction m as [|m IH]; [done|].
  rewrite k_irr_rounds_snoc, k_irr_round_length, IH.
  change (fact (S (S m))) with (S (S m) * fact (S m))%nat. lia.
Qed.

Lemma filter_eq_replicate (v w : Z) n :
  filter (fun x => x = v) (replicate n w) = if decide (w = v) then replicate n w else [].
Proof.
  induction n as [|n IH]; simpl; [by destruct (decide _)|].
  rewrite filter_cons, IH. by destruct (decide (w = v)).
Qed.

Lemma filter_eq_absent (v : Z) l :
  Forall (fun x => x <> v) l -> filter (fun x => x = v) l = [].
Proof.
  induction 1 as [|x l Hx _ IH]; [done|].
  rewrite filter_cons, IH. by destruct (decide (x = v)).
Qed.

Lemma StronglySorted_ge_replicate n (w : Z) : StronglySorted Z.ge (replicate n w).
Proof.
  induction n as [|n IH]; simpl; constructor; [done|].
  apply Forall_forall. intros y Hy%elem_of_replicate. lia.
Qed.

Lemma k_irr_inv_extend k m l num :
  (S m < k)%nat -> (num <= S m)%nat -> k_irr_inv k m l ->
  k_irr_inv k (S m) (l ++ replicate num (Z.of_nat k - Z.of_nat (S m))).
Proof.
  intros Hm Hnum (Hs & Hr & Hc). split; [|split].
  - apply StronglySorted_app. split; [|split; [done|apply StronglySorted_ge_replicate]].
    intros x y Hx Hy%elem_of_replicate. rewrite Forall_forall in Hr.
    specialize (Hr x Hx). simpl in Hr. lia.
  - apply Forall_app. split.
    + eapply Forall_impl; [exact Hr|]. simpl. lia.
    + apply Forall_forall. intros y Hy%elem_of_replicate. lia.
  - intros v Hv. rewrite filter_app, length_app, filter_eq_replicate.
    destruct (decide (Z.of_nat k - Z.of_nat (S m) = v)) as [<-|Hne].
    + rewrite filter_eq_absent, length_replicate; [simpl; lia|].
      eapply Forall_impl; [exact Hr|]. simpl. lia.
    + simpl. specialize (Hc v Hv). lia.
Qed.

Lemma k_irr_rounds_inv k m :
  (m < k)%nat ->
  Forall (k_irr_inv k m) (foldl (k_irr_round k) [[]] (seq 1 m)).
Proof.
  induction m as [|m IH]; intros Hm.
  - simpl. constructor; [|constructor]. split; [constructor|]. split; [constructor|].
    intros v Hv. rewrite filter_nil. simpl. lia.
  - rewrite k_irr_rounds_snoc. specialize (IH ltac:(lia)).
    unfold k_irr_round. apply Forall_forall. intros l Hl.
    apply list_elem_of_In, in_flat_map in Hl as (p & Hp & Hl).
    apply in_map_iff in Hl as (num & <- & Hnum%in_seq).
    apply k_irr_inv_extend; [lia|lia|].
    rewrite Forall_forall in IH. apply IH. by apply list_elem_of_In.
Qed.

(** C10: [get_k_irreducible_partition_lists k] returns [k!] lists, and each
    of them is a weakly decreasing list of positive integers below [k] in
    which every part [i] with [1 <= i < k] occurs at most [k - i] times. *)
Theorem get_k_irreducible_partition_lists_spec (k : nat) :
  length (get_k_irreducible_partition_lists k) = fact k /\
  Forall (fun l =>
            StronglySorted Z.ge l /\
            Forall (fun x => 0 < x < Z.of_nat k) l /\
            forall i : Z, 1 <= i < Z.of_nat k ->
              Z.of_nat (length (filter (fun x => x = i) l)) <= Z.of_nat k - i)
         (get_k_irreducible_partition_lists k).
Proof.
  unfold get_k_irreducible_partition_lists. destruct k as [|k].
  - split; [done|]. simpl. constructor; [|constructor].
    split; [constructor|]. split; [constructor|]. intros i Hi. lia.
  - replace (S k - 1)%nat with k by lia. split.
    + apply k_irr_rounds_length.
    + eapply Forall_impl; [apply k_irr_rounds_inv; lia|].
      intros l (Hs & Hr & Hc). split; [done|]. split.
      * eapply Forall_impl; [exact Hr|]. simpl. lia.
      * intros i Hi. apply Hc. lia.
Qed.

(** *** The vertex-operator chain *)

Lemma HallLittlewoodVertexOperator_call_foldr (E : Type) (create : Z -> E -> E) gamma x :
  HallLittlewoodVertexOperator_call E create gamma x = foldr create x gamma.
Proof.
  unfold HallLittlewoodVertexOperator_call.
  rewrite <- (reverse_involutive gamma) at 2.
  generalize (reverse gamma) as l. intros l. revert x.
  induction l as [|g l IH]; intros x; [done|].
  rewrite reverse_cons, foldr_app. simpl. apply IH.
Qed.

(** C8 (as stated) fails for a negative integer: [H(-1)] is rejected with
    [ValueError], while the one-element list [[-1]] is accepted. *)
Lemma H_negative_integer_rejected :
  H_apply Z Z.add (ArgInt (-1)) 0 = Raised ValueError /\
  H_apply Z Z.add (ArgList [-1]) 0 = Returned (-1).
Proof. split; reflexivity. Qed.

(** C8 (amended): a list [gamma = (g1, ..., gm)] yields
    [create g1 (create g2 (... (create gm x)))], the parts being applied in
    reverse order; a non-negative integer [k] is treated as the one-element
    composition [(k)], and a negative integer is rejected with [ValueError]. *)
Theorem H_apply_spec (E : Type) (create : Z -> E -> E) (gamma : list Z) (k : Z) (x : E) :
  H_apply E create (ArgList gamma) x = Returned (foldr create x gamma) /\
  H_apply E create (ArgInt k) x =
    (if bool_decide (0 <= k) then Returned (create k x) else Raised ValueError).
Proof.
  split.
  - unfold H_apply. simpl. by rewrite HallLittlewoodVertexOperator_call_foldr.
  - unfold H_apply. simpl. by destruct (bool_decide (0 <= k)).
Qed.

(** *** Self-conjugacy *)

(** C6: [is_symmetric] answers [True] on the partition [2], whose conjugate is
    [1, 1]; the columns left of the last part are never compared.  On [3, 1]
    it raises [IndexError] instead of answering. *)
Theorem is_symmetric_misses_first_columns :
  is_symmetric [2] = Returned true /\
  Sage.conjugate [2] = [1; 1] /\
  is_symmetric [1; 1] = Returned true /\
  Sage.conjugate [1; 1] = [2] /\
  is_symmetric [3; 1] = Raised IndexError.
Proof. repeat split; vm_compute; reflexivity. Qed.

(** *** Calls that need no fuel *)

Lemma bind_terminates {A B : Type} (m : outcome A) (f : A -> outcome B) :
  m <> OutOfFuel -> (forall a, f a <> OutOfFuel) -> bind m f <> OutOfFuel.
Proof. destruct m; simpl; auto. Qed.

Lemma index_terminates {A : Type} (l : list A) i : index l i <> OutOfFuel.
Proof. unfold index. repeat case_bool_decide; done. Qed.

Lemma getitem_terminates {A : Type} (l : list A) i : getitem l i <> OutOfFuel.
Proof.
  unfold getitem. apply bind_terminates; [apply index_terminates|].
  intros k. by destruct (l !! k).
Qed.

Lemma setitem_terminates {A : Type} (l : list A) i x : setitem l i x <> OutOfFuel.
Proof. unfold setitem. apply bind_terminates; [apply index_terminates|done]. Qed.

Lemma for_each_terminates {A S : Type} (body : S -> A -> outcome S) items st :
  (forall s x, body s x <> OutOfFuel) -> for_each body items st <> OutOfFuel.
Proof.
  intros Hbody. revert st. induction items as [|x items IH]; intros st; simpl; [done|].
  apply bind_terminates; auto.
Qed.

Lemma incr_cols_terminates cur cols : incr_cols cur cols <> OutOfFuel.
Proof.
  apply for_each_terminates. intros s c.
  apply bind_terminates; [apply getitem_terminates|]. intros v. apply setitem_terminates.
Qed.

Lemma slide_rows_terminates rs col_num n st : slide_rows rs col_num n st <> OutOfFuel.
Proof.
  revert st. induction n as [|n IH]; intros st; simpl; [done|].
  case_bool_decide; [done|].
  apply bind_terminates; [apply getitem_terminates|]. intros r.
  apply bind_terminates; [apply incr_cols_terminates|]. intros cur. apply IH.
Qed.

Lemma rc_column_terminates rs cs st item : rc_column rs cs st item <> OutOfFuel.
Proof.
  destruct item as [col_coindex col_length]. unfold rc_column.
  apply bind_terminates; [apply getitem_terminates|]. intros v.
  case_bool_decide; [done|]. apply slide_rows_terminates.
Qed.

Lemma Partition_terminates mu : Sage.Partition mu <> OutOfFuel.
Proof. unfold Sage.Partition. by destruct (_ && _). Qed.

Lemma SkewPartition_terminates outer inner : Sage.SkewPartition outer inner <> OutOfFuel.
Proof.
  unfold Sage.SkewPartition.
  apply bind_terminates; [apply Partition_terminates|]. intros o.
  apply bind_terminates; [apply Partition_terminates|]. intros i.
  by destruct (Sage.contains o i).
Qed.

Lemma row_col_to_skew_partition_terminates rs cs :
  row_col_to_skew_partition rs cs <> OutOfFuel.
Proof.
  unfold row_col_to_skew_partition.
  apply bind_terminates.
  - apply for_each_terminates, rc_column_terminates.
  - intros st. apply SkewPartition_terminates.
Qed.

(** *** Counting the linked self pairs *)

Example partitions_4 :
  Sage.Partitions 4 = [[4]; [3; 1]; [2; 2]; [2; 1; 1]; [1; 1; 1; 1]].
Proof. vm_compute. reflexivity. Qed.

Lemma count_linked_spec ps count :
  count_linked ps count =
  Returned (count + len (filter (fun p => is_returned (row_col_to_skew_partition p p) = true) ps)).
Proof.
  revert count. induction ps as [|p ps IH]; intros count; simpl.
  - f_equal. unfold len. simpl. lia.
  - rewrite filter_cons.
    pose proof (row_col_to_skew_partition_terminates p p) as Hp.
    destruct (row_col_to_skew_partition p p) as [sp|e|]; simpl; [| |done].
    + rewrite IH. f_equal. unfold len. simpl. lia.
    + rewrite IH. done.
Qed.

(** C9 (as stated) fails at [n = 3]: the candidate [[3]] raises [IndexError],
    not the [ValueError] of an impossible shape, and the count is returned
    all the same. *)
Lemma count_swallows_IndexError :
  [3] ∈ Sage.Partitions 3 /\
  row_col_to_skew_partition [3] [3] = Raised IndexError /\
  n_to_number_of_linked_partition_self_pairs 3 = Returned 2.
Proof.
  split; [|split]; [|vm_compute; reflexivity..].
  vm_compute. apply list_elem_of_here.
Qed.

(** C9 (amended): [n_to_number_of_linked_partition_self_pairs n] always
    returns, and its value is the number of partitions [p] of [n] for which
    [row_col_to_skew_partition p p] returns; a candidate is left out whenever
    that call raises, whatever the exception. *)
Theorem n_to_number_of_linked_partition_self_pairs_spec (n : nat) :
  n_to_number_of_linked_partition_self_pairs n =
  Returned (len (filter (fun p => is_returned (row_col_to_skew_partition p p) = true)
                        (Sage.Partitions n))).
Proof.
  unfold n_to_number_of_linked_partition_self_pairs. by rewrite count_linked_spec.
Qed.

(** *** Partitions as lists *)

Lemma is_weakly_decreasing_adjacent li :
  is_weakly_decreasing li = true <->
  forall i x y, li !! i = Some x -> li !! S i = Some y -> y <= x.
Proof.
  unfold is_weakly_decreasing. rewrite forallb_forall. split.
  - intros H i x y Hx Hy.
    assert (Hi : In i (seq 0 (length li - 1))).
    { apply in_seq. apply lookup_lt_Some in Hy. lia. }
    apply H, bool_decide_eq_true in Hi.
    rewrite (nth_lookup_Some _ _ _ _ Hx), (nth_lookup_Some _ _ _ _ Hy) in Hi. lia.
  - intros H i Hi%in_seq. apply bool_decide_eq_true.
    destruct (lookup_lt_is_Some_2 li i) as [x Hx]; [lia|].
    destruct (lookup_lt_is_Some_2 li (S i)) as [y Hy]; [lia|].
    rewrite (nth_lookup_Some _ _ _ _ Hx), (nth_lookup_Some _ _ _ _ Hy).
    specialize (H i x y Hx Hy). lia.
Qed.

Lemma is_weakly_decreasing_spec li :
  is_weakly_decreasing li = true <-> weakly_decreasing li.
Proof.
  rewrite is_weakly_decreasing_adjacent. split.
  - intros H i j x y Hij. revert y. induction Hij as [|j Hij IH]; intros y Hx Hy.
    + assert (x = y) by congruence. lia.
    + destruct (lookup_lt_is_Some_2 li j) as [z Hz].
      { apply lookup_lt_Some in Hy. lia. }
      specialize (IH z Hx Hz). specialize (H j z y Hz Hy). lia.
  - intros H i x y Hx Hy. apply (H i (S i)); [lia|done..].
Qed.

Lemma forallb_nonneg mu :
  forallb (fun x => bool_decide (0 <= x)) mu = true <-> Forall (fun x => 0 <= x) mu.
Proof.
  rewrite forallb_forall, Forall_forall. split.
  - intros H x Hx. apply list_elem_of_In, H, bool_decide_eq_true in Hx. done.
  - intros H x Hx. apply bool_decide_eq_true, H, list_elem_of_In, Hx.
Qed.

Lemma Partition_intro mu :
  Forall (fun x => 0 <= x) mu -> weakly_decreasing mu ->
  Sage.Partition mu = Returned (Sage.strip_zeros mu).
Proof.
  intros Hnn Hwd. unfold Sage.Partition.
  apply forallb_nonneg in Hnn. apply is_weakly_decreasing_spec in Hwd.
  by rewrite Hnn, Hwd.
Qed.

Lemma strip_zeros_fixed mu : Sage.strip_zeros mu = mu -> Forall (fun x => x <> 0) mu.
Proof.
  induction mu as [|x mu IH]; simpl; [constructor|].
  case_bool_decide; [done|]. intros [= Hmu]. constructor; auto.
Qed.

Lemma strip_zeros_positive mu : Forall (fun x => 0 < x) mu -> Sage.strip_zeros mu = mu.
Proof.
  induction 1 as [|x mu Hx _ IH]; simpl; [done|].
  case_bool_decide; [lia|]. by rewrite IH.
Qed.

Lemma strip_zeros_padded mu n :
  Forall (fun x => 0 < x) mu -> Sage.strip_zeros (mu ++ replicate n 0) = mu.
Proof.
  induction 1 as [|x mu Hx _ IH]; simpl.
  - by destruct n.
  - case_bool_decide; [lia|]. by rewrite IH.
Qed.

Lemma strip_zeros_lookup mu i x :
  Sage.strip_zeros mu !! i = Some x -> mu !! i = Some x.
Proof.
  revert i. induction mu as [|y mu IH]; intros i; simpl; [done|].
  case_bool_decide; [done|]. destruct i; simpl; auto.
Qed.

Lemma strip_zeros_length mu : (length (Sage.strip_zeros mu) <= length mu)%nat.
Proof.
  induction mu as [|y mu IH]; simpl; [done|].
  case_bool_decide; simpl; lia.
Qed.

(** What it means for [p] to be a value of Sage's [Partition] type. *)
Lemma Partition_value p :
  Sage.Partition p = Returned p <-> weakly_decreasing p /\ Forall (fun x => 0 < x) p.
Proof.
  split.
  - unfold Sage.Partition. destruct (forallb _ p) eqn:Hnn; simpl; [|done].
    destruct (is_weakly_decreasing p) eqn:Hwd; [|done]. intros [= Hs].
    apply is_weakly_decreasing_spec in Hwd. apply forallb_nonneg in Hnn.
    apply strip_zeros_fixed in Hs. split; [done|].
    rewrite Forall_forall in *. intros x Hx. specialize (Hnn x Hx). specialize (Hs x Hx). lia.
  - intros [Hwd Hpos]. rewrite Partition_intro; [by rewrite strip_zeros_positive|
      eapply Forall_impl; [exact Hpos|simpl; lia] | done].
Qed.

Lemma contains_spec outer inner :
  Sage.contains outer inner = true <->
  (length inner <= length outer)%nat /\
  forall i x y, inner !! i = Some x -> outer !! i = Some y -> x <= y.
Proof.
  unfold Sage.contains. rewrite andb_true_iff, bool_decide_eq_true, forallb_forall.
  split; intros [Hlen H]; (split; [done|]).
  - intros i x y Hx Hy.
    assert (Hi : In i (seq 0 (length inner))).
    { apply in_seq. apply lookup_lt_Some in Hx. lia. }
    apply H, bool_decide_eq_true in Hi.
    rewrite (nth_lookup_Some _ _ _ _ Hx), (nth_lookup_Some _ _ _ _ Hy) in Hi. lia.
  - intros i Hi%in_seq. apply bool_decide_eq_true.
    destruct (lookup_lt_is_Some_2 inner i) as [x Hx]; [lia|].
    destruct (lookup_lt_is_Some_2 outer i) as [y Hy]; [lia|].
    rewrite (nth_lookup_Some _ _ _ _ Hx), (nth_lookup_Some _ _ _ _ Hy).
    specialize (H i x y Hx Hy). lia.
Qed.

Lemma weakly_decreasing_hd p i x :
  weakly_decreasing p -> p !! i = Some x -> x <= hd 0 p.
Proof.
  intros Hwd Hx. destruct p as [|y p]; [done|]. simpl.
  apply (Hwd 0%nat i y x); [lia|done..].
Qed.

(** *** Conjugates and hook lengths *)

Lemma range_length a b : length (range a b) = Z.to_nat (b - a).
Proof. unfold range. apply length_seqZ. Qed.

Lemma range_split a b c : a <= b <= c -> range a c = range a b ++ range b c.
Proof.
  intros H. unfold range. replace (c - a) with ((b - a) + (c - b)) by lia.
  rewrite seqZ_app by lia. do 2 f_equal. lia.
Qed.

Lemma range_cons a b : a < b -> range a b = a :: range (a + 1) b.
Proof.
  intros H. unfold range. rewrite seqZ_cons by lia. do 2 f_equal; lia.
Qed.

Lemma range_nil a b : b <= a -> range a b = [].
Proof. intros H. unfold range. apply seqZ_nil. lia. Qed.

Lemma elem_of_range a b x : x ∈ range a b <-> a <= x < b.
Proof. unfold range. rewrite elem_of_seqZ. lia. Qed.

Lemma conjugate_lookup p j :
  0 <= j < hd 0 p ->
  Sage.conjugate p !! Z.to_nat j = Some (len (filter (fun x => j < x) p)).
Proof.
  intros Hj. unfold Sage.conjugate, range, len.
  change (map ?f ?l) with (f <$> l). rewrite list_lookup_fmap, lookup_seqZ_lt by lia.
  simpl. replace (0 + Z.of_nat (Z.to_nat j)) with j by lia. done.
Qed.

Lemma conjugate_length p : length (Sage.conjugate p) = Z.to_nat (hd 0 p).
Proof.
  unfold Sage.conjugate. rewrite length_map, range_length. f_equal. lia.
Qed.

Lemma conjugate_nth_le p n : 0 <= nth n (Sage.conjugate p) 0 <= len p.
Proof.
  rewrite nth_lookup. destruct (Sage.conjugate p !! n) as [c|] eqn:Hc; simpl; [|unfold len; lia].
  apply list_elem_of_lookup_2 in Hc. unfold Sage.conjugate in Hc.
  apply list_elem_of_In, in_map_iff in Hc as (j & <- & _).
  pose proof (length_filter (fun x => j < x) p). unfold len. lia.
Qed.

Lemma count_above_prefix p i p_i j :
  weakly_decreasing p -> p !! i = Some p_i -> j < p_i ->
  Z.of_nat i + 1 <= len (filter (fun x => j < x) p).
Proof.
  intros Hwd Hi Hj. rewrite <- (take_drop (S i) p), filter_app. unfold len.
  rewrite length_app.
  assert (Hall : Forall (fun x => j < x) (take (S i) p)).
  { apply Forall_forall. intros x Hx. apply list_elem_of_lookup in Hx as [n Hn].
    apply lookup_take_Some in Hn as [Hn Hlt].
    specialize (Hwd n i x p_i ltac:(lia) Hn Hi). lia. }
  assert (Hf : filter (fun x => j < x) (take (S i) p) = take (S i) p).
  { clear -Hall. induction Hall as [|x l Hx _ IH]; [done|].
    rewrite filter_cons, decide_True by done. by rewrite IH. }
  rewrite Hf, length_take. apply lookup_lt_Some in Hi. lia.
Qed.

Lemma lookup_map {A B : Type} (f : A -> B) (l : list A) i : map f l !! i = f <$> l !! i.
Proof. apply (list_lookup_fmap f l i). Qed.

Lemma filter_keeps_all {A : Type} (P : A -> Prop) `{!forall x, Decision (P x)} (l : list A) :
  Forall P l -> filter P l = l.
Proof.
  induction 1 as [|x l Hx _ IH]; [done|].
  rewrite filter_cons, decide_True by done. by rewrite IH.
Qed.

Lemma filter_keeps_none {A : Type} (P : A -> Prop) `{!forall x, Decision (P x)} (l : list A) :
  Forall (fun x => ~ P x) l -> filter P l = [].
Proof.
  induction 1 as [|x l Hx _ IH]; [done|].
  by rewrite filter_cons, decide_False.
Qed.

Lemma filter_above_length_mono (f g : Z -> Z) (k : Z) (l : list Z) :
  (forall j, j ∈ l -> f j > k -> g j > k) ->
  (length (filter (fun x => (x > k)%Z) (map f l)) <=
   length (filter (fun x => (x > k)%Z) (map g l)))%nat.
Proof.
  induction l as [|j l IH]; intros H; simpl; [done|].
  rewrite !filter_cons.
  assert (IH' := IH (fun j' Hj' => H j' (list_elem_of_further _ _ _ Hj'))).
  specialize (H j (list_elem_of_here _ _)).
  destruct (decide (f j > k)); destruct (decide (g j > k)); simpl; lia.
Qed.

Example hook_lengths_example :
  Sage.hook_lengths [3; 2; 1] = [[5; 3; 1]; [3; 1]; [1]].
Proof. vm_compute. reflexivity. Qed.

Lemma kBoundary_inner_lookup l k i :
  map (fun row => len (filter (fun x => x > k) row)) (Sage.hook_lengths l) !! i
  = interior_row l k i <$> l !! i.
Proof.
  unfold Sage.hook_lengths. rewrite lookup_map, list_lookup_imap.
  by destruct (l !! i).
Qed.

Lemma interior_row_bounds l k i p_i : 0 <= p_i -> 0 <= interior_row l k i p_i <= p_i.
Proof.
  intros Hp. unfold interior_row, len.
  match goal with |- context [filter ?P ?l] => pose proof (length_filter P l) as Hf end.
  rewrite length_map, range_length in Hf. lia.
Qed.

Lemma interior_row_mono l k i p p' :
  0 <= p' <= p -> interior_row l k (S i) p' <= interior_row l k i p.
Proof.
  intros Hp. unfold interior_row, len.
  rewrite (range_split 0 p' p) by lia. rewrite map_app, filter_app, length_app.
  match goal with |- Z.of_nat (length (filter _ (map ?f ?l))) <=
                     Z.of_nat (length (filter _ (map ?g ?l)) + _) =>
    pose proof (filter_above_length_mono f g k l) as Hm end.
  simpl in Hm. specialize (Hm ltac:(intros; lia)). lia.
Qed.

Lemma interior_row_k0 l i p_i :
  weakly_decreasing l -> l !! i = Some p_i -> 0 <= p_i -> interior_row l 0 i p_i = p_i.
Proof.
  intros Hwd Hi Hp. unfold interior_row, len.
  rewrite filter_keeps_all; [rewrite length_map, range_length; lia|].
  apply Forall_forall. intros x Hx.
  apply list_elem_of_In, in_map_iff in Hx as (j & <- & Hj).
  apply list_elem_of_In, elem_of_range in Hj.
  pose proof (weakly_decreasing_hd l i p_i Hwd Hi) as Hhd.
  rewrite (nth_lookup_Some _ _ _ _ (conjugate_lookup l j ltac:(lia))).
  pose proof (count_above_prefix l i p_i j Hwd Hi ltac:(lia)). lia.
Qed.

Lemma interior_row_large l k i p_i :
  weakly_decreasing l -> l !! i = Some p_i -> hd 0 l + len l - 1 <= k ->
  interior_row l k i p_i = 0.
Proof.
  intros Hwd Hi Hk. unfold interior_row.
  rewrite filter_keeps_none; [done|].
  apply Forall_forall. intros x Hx.
  apply list_elem_of_In, in_map_iff in Hx as (j & <- & Hj).
  apply list_elem_of_In, elem_of_range in Hj.
  pose proof (weakly_decreasing_hd l i p_i Hwd Hi) as Hhd.
  pose proof (conjugate_nth_le l (Z.to_nat j)). lia.
Qed.

(** The corner cell has the largest hook length, [l[0] + len(l) - 1]. *)
Lemma interior_row_corner l k p_0 :
  Forall (fun x => 0 < x) l -> l !! 0%nat = Some p_0 -> k < hd 0 l + len l - 1 ->
  0 < interior_row l k 0 p_0.
Proof.
  intros Hpos H0 Hk. destruct l as [|x l']; [done|]. injection H0 as ->.
  pose proof (Forall_inv Hpos) as Hp. simpl in Hp, Hk.
  unfold interior_row. rewrite range_cons by lia. cbn [map].
  rewrite (nth_lookup_Some _ _ _ _ (conjugate_lookup (p_0 :: l') 0 ltac:(simpl; lia))).
  rewrite (filter_keeps_all (fun x => 0 < x) (p_0 :: l') Hpos).
  rewrite filter_cons, decide_True by (unfold len in *; lia).
  unfold len. simpl. lia.
Qed.

Lemma strip_zeros_all_zero mu : Forall (fun x => x = 0) mu -> Sage.strip_zeros mu = [].
Proof. destruct 1 as [|x mu Hx _]; simpl; [done|]. by rewrite bool_decide_eq_true_2. Qed.

Lemma kBoundary_returns l k :
  Sage.Partition l = Returned l ->
  kBoundary l k =
  Returned (l, Sage.strip_zeros
                 (map (fun row => len (filter (fun x => x > k) row)) (Sage.hook_lengths l))).
Proof.
  intros Hl. pose proof Hl as [Hwd Hpos]%Partition_value.
  unfold kBoundary, Sage.SkewPartition. rewrite Hl. simpl.
  set (inner := map _ (Sage.hook_lengths l)).
  assert (Hlook : forall i x, inner !! i = Some x ->
            exists p_i, l !! i = Some p_i /\ x = interior_row l k i p_i /\ 0 < p_i).
  { intros i x Hx. unfold inner in Hx. rewrite kBoundary_inner_lookup in Hx.
    destruct (l !! i) as [p_i|] eqn:Hi; [|done]. injection Hx as <-.
    exists p_i. split; [done|]. split; [done|].
    rewrite Forall_forall in Hpos. eapply Hpos, list_elem_of_lookup_2, Hi. }
  rewrite Partition_intro.
  - simpl. rewrite (proj2 (contains_spec _ _)); [done|]. split.
    + etrans; [apply strip_zeros_length|]. unfold inner, Sage.hook_lengths.
      by rewrite length_map, length_imap.
    + intros i x y Hx%strip_zeros_lookup Hy.
      destruct (Hlook i x Hx) as (p_i & Hi & -> & Hp).
      assert (y = p_i) as -> by congruence.
      apply interior_row_bounds. lia.
  - apply Forall_forall. intros x Hx. apply list_elem_of_lookup in Hx as [i Hi].
    destruct (Hlook i x Hi) as (p_i & _ & -> & Hp). apply interior_row_bounds. lia.
  - apply is_weakly_decreasing_spec, is_weakly_decreasing_adjacent.
    intros i x y Hx Hy.
    destruct (Hlook i x Hx) as (p & Hp & -> & Hp0).
    destruct (Hlook (S i) y Hy) as (p' & Hp' & -> & Hp0').
    apply interior_row_mono. split; [lia|]. apply (Hwd i (S i)); [lia|done..].
Qed.

(** C5 (as stated) fails for [l = [1, 1]] and [k = 1 = max(l)]: the cell of
    hook length 2 stays in the interior, so the inner partition is [[1]]. *)
Lemma kBoundary_max_part_not_enough :
  kBoundary [1; 1] 1 = Returned ([1; 1], [1]).
Proof. vm_compute. reflexivity. Qed.

(** C5 (amended): for every partition [l] and bound [k >= 0], the
    k-boundary has outer partition [l]; its inner partition is [l] itself
    when [k = 0], and is empty exactly when [k] is at least the largest hook
    length, [l[0] + len(l) - 1]. *)
Theorem kBoundary_spec (l : list Z) (k : Z) :
  Sage.Partition l = Returned l -> 0 <= k ->
  exists inner,
    kBoundary l k = Returned (l, inner) /\
    (k = 0 -> inner = l) /\
    (inner = [] <-> hd 0 l + len l - 1 <= k).
Proof.
  intros Hl Hk. pose proof Hl as [Hwd Hpos]%Partition_value.
  eexists. split; [by apply kBoundary_returns|]. split; [|split].
  - intros ->. rewrite <- (strip_zeros_positive l Hpos) at 2. f_equal.
    apply list_eq. intros i. rewrite kBoundary_inner_lookup.
    destruct (l !! i) as [p_i|] eqn:Hi; [|done]. simpl. f_equal.
    apply interior_row_k0; [done..|].
    rewrite Forall_forall in Hpos.
    specialize (Hpos p_i (list_elem_of_lookup_2 _ _ _ Hi)). simpl in Hpos. lia.
  - intros Hempty. destruct (decide (hd 0 l + len l - 1 <= k)) as [|Hsmall]; [done|].
    exfalso. destruct l as [|p_0 l'] eqn:El; [unfold len in Hsmall; simpl in Hsmall; lia|].
    pose proof (interior_row_corner (p_0 :: l') k p_0 Hpos eq_refl ltac:(lia)) as Hcorner.
    unfold Sage.hook_lengths in Hempty. rewrite imap_cons in Hempty.
    cbn [map Sage.strip_zeros] in Hempty. fold (interior_row (p_0 :: l') k 0 p_0) in Hempty.
    rewrite bool_decide_eq_false_2 in Hempty by lia. done.
  - intros Hlarge. apply strip_zeros_all_zero, Forall_forall. intros x Hx.
    apply list_elem_of_lookup in Hx as [i Hi]. rewrite kBoundary_inner_lookup in Hi.
    destruct (l !! i) as [p_i|] eqn:Hp; [|done]. injection Hi as <-.
    by apply interior_row_large.
Qed.

Lemma kBoundary_spec_witness :
  exists inner,
    kBoundary [3; 2; 1] 5 = Returned ([3; 2; 1], inner) /\
    (5 = 0 -> inner = [3; 2; 1]) /\
    (inner = [] <-> hd 0 [3; 2; 1] + len [3; 2; 1] - 1 <= 5).
Proof. apply (kBoundary_spec [3; 2; 1] 5); [vm_compute; reflexivity | lia]. Defined.

(** *** Rebuilding a skew partition from its row and column lengths *)

Lemma cover_app c rows1 rows2 : cover c (rows1 ++ rows2) = cover c rows1 + cover c rows2.
Proof. unfold cover, len. rewrite filter_app, length_app. lia. Qed.

Lemma cover_nil c : cover c [] = 0.
Proof. done. Qed.

Lemma cover_singleton c r : cover c [r] = if bool_decide (r.1 <= c < r.2) then 1 else 0.
Proof.
  unfold cover, len. rewrite filter_cons, filter_nil.
  case_bool_decide; [by rewrite decide_True|by rewrite decide_False].
Qed.

Lemma cover_list_lookup n rows (j : nat) :
  Z.of_nat j < n ->
  map (fun c => cover c rows) (range 0 n) !! j = Some (cover (Z.of_nat j) rows).
Proof.
  intros Hj. rewrite lookup_map. unfold range. rewrite lookup_seqZ_lt by lia.
  simpl. done.
Qed.

Lemma cover_list_length n rows : length (map (fun c => cover c rows) (range 0 n)) = Z.to_nat n.
Proof. rewrite length_map, range_length. f_equal. lia. Qed.

Lemma index_nonneg {A : Type} (l : list A) i :
  0 <= i < len l -> index l i = Returned (Z.to_nat i).
Proof. intros Hi. unfold index. by rewrite bool_decide_eq_true_2. Qed.

Lemma getitem_lookup {A : Type} (l : list A) (j : nat) x :
  l !! j = Some x -> getitem l (Z.of_nat j) = Returned x.
Proof.
  intros Hx. unfold getitem. rewrite index_nonneg.
  - simpl. by rewrite Nat2Z.id, Hx.
  - apply lookup_lt_Some in Hx. unfold len. lia.
Qed.

Lemma getitem_nonneg {A : Type} (l : list A) i x :
  0 <= i -> l !! Z.to_nat i = Some x -> getitem l i = Returned x.
Proof.
  intros Hi Hx. rewrite <- (Z2Nat.id i) by done. by apply getitem_lookup.
Qed.

Lemma setitem_nonneg {A : Type} (l : list A) i x :
  0 <= i < len l -> setitem l i x = Returned (<[Z.to_nat i := x]> l).
Proof. intros Hi. unfold setitem. by rewrite index_nonneg. Qed.

(** [current_cs[c] += 1] for the columns [a .. b-1], none of them out of
    range. *)
Lemma incr_cols_spec cur a b :
  0 <= a <= b -> b <= len cur ->
  incr_cols cur (range a b) =
  Returned (imap (fun j x => if bool_decide (a <= Z.of_nat j < b) then x + 1 else x) cur).
Proof.
  intros Hab Hb. remember (Z.to_nat (b - a)) as d eqn:Hd.
  revert cur a Hab Hb Hd. induction d as [|d IH]; intros cur a Hab Hb Hd.
  - rewrite range_nil by lia. unfold incr_cols. simpl. f_equal. apply list_eq. intros j.
    rewrite list_lookup_imap. destruct (cur !! j); simpl; [|done].
    by rewrite bool_decide_eq_false_2 by lia.
  - rewrite range_cons by lia. unfold incr_cols. simpl.
    destruct (lookup_lt_is_Some_2 cur (Z.to_nat a)) as [v Hv]; [unfold len in Hb; lia|].
    rewrite (getitem_nonneg _ _ _ (proj1 Hab) Hv). simpl.
    rewrite setitem_nonneg by lia. simpl.
    change (for_each ?f ?l ?s) with (incr_cols s l).
    rewrite IH; [|lia|unfold len in *; rewrite length_insert; lia|lia].
    f_equal. apply list_eq. intros j. rewrite !list_lookup_imap.
    destruct (decide (j = Z.to_nat a)) as [->|Hne].
    + rewrite list_lookup_insert_eq by (unfold len in Hb; lia). rewrite Hv. simpl.
      rewrite bool_decide_eq_false_2 by lia. by rewrite bool_decide_eq_true_2 by lia.
    + rewrite list_lookup_insert_ne by done. destruct (cur !! j); simpl; [|done].
      f_equal. repeat case_bool_decide; lia.
Qed.

Lemma incr_cols_cover n pre a b :
  0 <= a <= b -> b <= n ->
  incr_cols (map (fun c => cover c pre) (range 0 n)) (range a b) =
  Returned (map (fun c => cover c (pre ++ [(a, b)])) (range 0 n)).
Proof.
  intros Hab Hb. rewrite incr_cols_spec; [|done|unfold len; rewrite cover_list_length; lia].
  f_equal. apply list_eq. intros j. rewrite list_lookup_imap.
  destruct (decide (Z.of_nat j < n)) as [Hj|Hj].
  - rewrite !cover_list_lookup by done. simpl. f_equal.
    rewrite cover_app, cover_singleton. simpl. repeat case_bool_decide; lia.
  - rewrite !lookup_ge_None_2; [done|rewrite cover_list_length; lia..].
Qed.

(** Sliding the rows [blk], all of which end in column [col_num]. *)
Lemma slide_rows_spec n rs col_num pre blk rest :
  rs = map rowlen (pre ++ blk ++ rest) ->
  Forall (fun r => r.2 = col_num /\ 0 <= r.1 <= r.2 /\ r.2 <= n) blk ->
  slide_rows rs col_num (length blk) (rc_of n pre) = Returned (rc_of n (pre ++ blk)).
Proof.
  intros Hrs Hblk. revert pre Hrs. induction Hblk as [|[a b] blk (Hb & Ha & Hn) _ IH];
    intros pre Hrs.
  - by rewrite app_nil_r.
  - simpl in Hb, Ha, Hn. subst b. cbn [length slide_rows].
    assert (Hlook : rs !! length pre = Some (col_num - a)).
    { rewrite Hrs, lookup_map, lookup_app_r, Nat.sub_diag by lia. done. }
    cbn [rc_of rc_row_index rc_current_cs rc_outer rc_inner].
    rewrite bool_decide_eq_false_2.
    2:{ apply lookup_lt_Some in Hlook. unfold len. lia. }
    change (getitem rs (len pre)) with (getitem rs (Z.of_nat (length pre))).
    rewrite (getitem_lookup _ _ _ Hlook). simpl.
    replace (col_num - (col_num - a)) with a by lia.
    rewrite incr_cols_cover by lia. simpl.
    specialize (IH (pre ++ [(a, col_num)])).
    rewrite <- !app_assoc in IH. simpl in IH. rewrite <- IH by done.
    f_equal. unfold rc_of. rewrite !fmap_app. simpl. f_equal.
    unfold len. rewrite length_app. simpl. lia.
Qed.

(** The rows that end in column [q] are the ones column [q] still lacks
    once all longer rows are in place. *)
Lemma column_deficit q rows :
  Forall (fun r => r.1 < r.2) rows ->
  cover (q - 1) rows - cover (q - 1) (filter (fun r => q + 1 <= r.2) rows)
  = len (filter (fun r => r.2 = q) rows).
Proof.
  unfold cover, len. induction 1 as [|r rows Hr _ IH]; [done|].
  rewrite !filter_cons.
  destruct (decide (r.2 = q)); destruct (decide (q + 1 <= r.2));
    destruct (decide (r.1 <= q - 1 < r.2)); simpl length;
    rewrite ?filter_cons; try destruct (decide (r.1 <= q - 1 < r.2)); simpl length; lia.
Qed.

Lemma rows_sorted_split_ge q rows :
  rows_sorted rows ->
  rows = filter (fun r => q <= r.2) rows ++ filter (fun r => r.2 < q) rows.
Proof.
  induction 1 as [|r rows Hs IH Hr]; [done|].
  rewrite !filter_cons. destruct (decide (q <= r.2)).
  - rewrite decide_False by lia. simpl. by rewrite <- IH.
  - rewrite decide_True by lia.
    rewrite (filter_keeps_none (fun r => q <= r.2) rows).
    + simpl. f_equal. symmetry. apply filter_keeps_all.
      eapply Forall_impl; [exact Hr|]. simpl. lia.
    + eapply Forall_impl; [exact Hr|]. simpl. lia.
Qed.

Lemma rows_sorted_split_eq q rows :
  rows_sorted rows ->
  filter (fun r => q <= r.2) rows =
  filter (fun r => q + 1 <= r.2) rows ++ filter (fun r => r.2 = q) rows.
Proof.
  induction 1 as [|r rows Hs IH Hr]; [done|].
  rewrite !filter_cons. destruct (decide (q + 1 <= r.2)).
  - rewrite decide_True, decide_False by lia. simpl. by rewrite IH.
  - rewrite (filter_keeps_none (fun r => q + 1 <= r.2) rows).
    2:{ eapply Forall_impl; [exact Hr|]. simpl. lia. }
    rewrite IH, (filter_keeps_none (fun r => q + 1 <= r.2) rows).
    2:{ eapply Forall_impl; [exact Hr|]. simpl. lia. }
    simpl. destruct (decide (q <= r.2)).
    + by rewrite decide_True by lia.
    + by rewrite decide_False by lia.
Qed.

Lemma cover_list_nil n : map (fun c => cover c []) (range 0 n) = replicate (Z.to_nat n) 0.
Proof.
  apply list_eq. intros j. destruct (decide (Z.of_nat j < n)).
  - rewrite cover_list_lookup by done. by rewrite lookup_replicate_2 by lia.
  - rewrite !lookup_ge_None_2; [done|rewrite ?length_replicate, ?cover_list_length; lia..].
Qed.

Section ColumnLoop.

Variable n : nat.
Variable rows : list (Z * Z).
Hypothesis Hsorted : rows_sorted rows.
Hypothesis Hrows : Forall (fun r => 0 <= r.1 /\ r.1 < r.2 /\ r.2 <= Z.of_nat n) rows.

Local Abbreviation rs := (map rowlen rows).
Local Abbreviation cs := (map (fun c => cover c rows) (range 0 (Z.of_nat n))).

Lemma rc_column_spec (t : nat) :
  (t < n)%nat ->
  rc_column rs cs
    (rc_of (Z.of_nat n) (filter (fun r => Z.of_nat n - Z.of_nat t + 1 <= r.2) rows))
    (t, cover (Z.of_nat n - Z.of_nat t - 1) rows)
  = Returned (rc_of (Z.of_nat n) (filter (fun r => Z.of_nat n - Z.of_nat t <= r.2) rows)).
Proof using Hsorted Hrows.
  intros Ht. set (q := Z.of_nat n - Z.of_nat t).
  set (pre := filter (fun r => q + 1 <= r.2) rows).
  unfold rc_column. cbn [rc_of rc_current_cs].
  assert (Hcur : reverse (map (fun c => cover c pre) (range 0 (Z.of_nat n))) !! t
                 = Some (cover (q - 1) pre)).
  { rewrite reverse_lookup by (rewrite cover_list_length; lia).
    rewrite cover_list_length.
    replace (Z.to_nat (Z.of_nat n) - S t)%nat with (Z.to_nat (q - 1)) by lia.
    rewrite cover_list_lookup by lia. do 2 f_equal. lia. }
  rewrite (getitem_lookup _ _ _ Hcur). cbn [mbind outcome_bind bind].
  assert (Hnonempty : Forall (fun r : Z * Z => r.1 < r.2) rows).
  { eapply Forall_impl; [exact Hrows|]. simpl. lia. }
  replace (Z.of_nat n - Z.of_nat t - 1) with (q - 1) by lia.
  pose proof (column_deficit q rows Hnonempty) as Hdef. fold pre in Hdef.
  rewrite bool_decide_eq_false_2 by (unfold len in Hdef; lia).
  rewrite Hdef.
  replace (len cs - Z.of_nat t) with q.
  2:{ unfold len. rewrite cover_list_length. lia. }
  unfold len. rewrite Nat2Z.id.
  rewrite (rows_sorted_split_eq q rows Hsorted). fold pre.
  apply slide_rows_spec with (rest := filter (fun r => r.2 < q) rows).
  - f_equal. unfold pre. rewrite app_assoc.
    rewrite <- (rows_sorted_split_eq q rows Hsorted).
    apply rows_sorted_split_ge, Hsorted.
  - apply Forall_forall. intros r Hr. apply list_elem_of_filter in Hr as [Hq Hr].
    rewrite Forall_forall in Hrows. specialize (Hrows r Hr). simpl in Hrows. lia.
Qed.

Lemma rc_columns_spec (d t : nat) :
  (t + d = n)%nat ->
  for_each (rc_column rs cs) (enumerate_from t (drop t (reverse cs)))
    (rc_of (Z.of_nat n) (filter (fun r => Z.of_nat n - Z.of_nat t + 1 <= r.2) rows))
  = Returned (rc_of (Z.of_nat n) (filter (fun r => 1 <= r.2) rows)).
Proof using Hsorted Hrows.
  assert (Hlen : length cs = n).
  { rewrite cover_list_length. lia. }
  revert t. induction d as [|d IH]; intros t Htd.
  - rewrite drop_ge by (rewrite length_reverse; lia). simpl.
    replace (Z.of_nat n - Z.of_nat t + 1) with 1 by lia. done.
  - assert (Hx : reverse cs !! t = Some (cover (Z.of_nat n - Z.of_nat t - 1) rows)).
    { rewrite reverse_lookup by lia. rewrite Hlen.
      replace (n - S t)%nat with (Z.to_nat (Z.of_nat n - Z.of_nat t - 1)) by lia.
      rewrite <- (Z2Nat.id (Z.of_nat n - Z.of_nat t - 1)) at 2 by lia.
      apply cover_list_lookup. lia. }
    rewrite (drop_S _ _ _ Hx). cbn [enumerate_from for_each].
    rewrite rc_column_spec by lia. cbn [bind].
    specialize (IH (S t) ltac:(lia)).
    replace (Z.of_nat n - Z.of_nat (S t) + 1) with (Z.of_nat n - Z.of_nat t) in IH by lia.
    exact IH.
Qed.

Lemma rc_loop_spec :
  for_each (rc_column rs cs) (enumerate (reverse cs))
    {| rc_outer := []; rc_inner := [];
       rc_current_cs := replicate (length cs) 0; rc_row_index := 0 |}
  = Returned (rc_of (Z.of_nat n) rows).
Proof using Hsorted Hrows.
  pose proof (rc_columns_spec n 0 ltac:(lia)) as H.
  rewrite drop_0 in H. unfold enumerate.
  rewrite (filter_keeps_none _ rows) in H.
  2:{ eapply Forall_impl; [exact Hrows|]. simpl. lia. }
  rewrite (filter_keeps_all _ rows) in H.
  2:{ eapply Forall_impl; [exact Hrows|]. simpl. lia. }
  rewrite <- H. f_equal. unfold rc_of. cbn [fmap list_fmap length]. f_equal.
  by rewrite cover_list_length, cover_list_nil.
Qed.

End ColumnLoop.

Lemma SkewPartition_value outer inner :
  Sage.SkewPartition outer inner = Returned (outer, inner) ->
  Sage.Partition outer = Returned outer /\ Sage.Partition inner = Returned inner /\
  Sage.contains outer inner = true.
Proof.
  unfold Sage.SkewPartition.
  destruct (Sage.Partition outer) as [o| |] eqn:Ho; simpl; [|done..].
  destruct (Sage.Partition inner) as [i| |] eqn:Hi; simpl; [|done..].
  destruct (Sage.contains o i) eqn:Hc; [|done]. intros [= -> ->]. done.
Qed.

Lemma row_lengths_lookup x y j :
  (length y <= length x)%nat ->
  Sage.row_lengths (x, y) !! j = (fun a => a - nth j y 0) <$> x !! j.
Proof.
  unfold Sage.row_lengths. simpl. revert y j.
  induction x as [|a x IH]; intros [|b y] j Hlen; simpl in *; try lia.
  - done.
  - destruct ((a :: x) !! j) eqn:Hj; simpl; [|done]. f_equal. destruct j; simpl; lia.
  - destruct j; simpl; [done|]. apply IH. lia.
Qed.

Lemma padded_lookup (i : list Z) m j :
  (j < length i + m)%nat -> (i ++ replicate m 0) !! j = Some (nth j i 0).
Proof.
  intros Hj. destruct (decide (j < length i)%nat) as [Hlt|Hge].
  - rewrite lookup_app_l by done.
    destruct (lookup_lt_is_Some_2 i j Hlt) as [x Hx].
    by rewrite Hx, (nth_lookup_Some _ _ _ _ Hx).
  - rewrite lookup_app_r by lia. rewrite lookup_replicate_2 by lia.
    by rewrite nth_overflow by lia.
Qed.

Lemma sp_rows_lookup outer inner j :
  (length inner <= length outer)%nat ->
  sp_rows outer inner !! j = (fun a => (nth j inner 0, a)) <$> outer !! j.
Proof.
  intros Hlen. unfold sp_rows. rewrite lookup_zip_with.
  destruct (outer !! j) as [a|] eqn:Ha; simpl.
  - rewrite padded_lookup; [done|]. apply lookup_lt_Some in Ha. lia.
  - by destruct ((inner ++ _) !! j).
Qed.

Lemma sp_rows_outer outer inner :
  (length inner <= length outer)%nat -> (sp_rows outer inner).*2 = outer.
Proof.
  intros Hlen. unfold sp_rows. apply snd_zip.
  rewrite length_app, length_replicate. lia.
Qed.

Lemma sp_rows_inner outer inner :
  (length inner <= length outer)%nat ->
  (sp_rows outer inner).*1 = inner ++ replicate (length outer - length inner) 0.
Proof.
  intros Hlen. unfold sp_rows. apply fst_zip.
  rewrite length_app, length_replicate. lia.
Qed.

Lemma row_lengths_rows outer inner :
  (length inner <= length outer)%nat ->
  Sage.row_lengths (outer, inner) = map rowlen (sp_rows outer inner).
Proof.
  intros Hlen. apply list_eq. intros j.
  rewrite row_lengths_lookup, lookup_map, sp_rows_lookup by done.
  by destruct (outer !! j).
Qed.

Lemma cover_count c rows :
  Forall (fun r => r.1 <= r.2) rows ->
  cover c rows = len (filter (fun x => c < x) (rows.*2)) - len (filter (fun x => c < x) (rows.*1)).
Proof.
  unfold cover, len. induction 1 as [|r rows Hr _ IH]; [done|].
  rewrite !fmap_cons, !filter_cons.
  destruct (decide (r.1 <= c < r.2)); destruct (decide (c < r.2));
    destruct (decide (c < r.1)); simpl length; lia.
Qed.

Lemma count_above_padded c (i : list Z) m :
  0 <= c -> filter (fun x => c < x) (i ++ replicate m 0) = filter (fun x => c < x) i.
Proof.
  intros Hc. rewrite filter_app, (filter_keeps_none _ (replicate m 0)), app_nil_r; [done|].
  apply Forall_forall. intros x Hx%elem_of_replicate. lia.
Qed.

Lemma conjugate_nth p c :
  weakly_decreasing p -> 0 <= c ->
  nth (Z.to_nat c) (Sage.conjugate p) 0 = len (filter (fun x => c < x) p).
Proof.
  intros Hwd Hc. destruct (decide (c < hd 0 p)) as [Hlt|Hge].
  - apply nth_lookup_Some, conjugate_lookup. lia.
  - rewrite nth_overflow by (rewrite conjugate_length; lia).
    rewrite filter_keeps_none; [done|].
    apply Forall_forall. intros x Hx. apply list_elem_of_lookup in Hx as [k Hk].
    pose proof (weakly_decreasing_hd p k x Hwd Hk). lia.
Qed.

Section RoundTrip.

Variables outer inner : list Z.
Hypothesis Hsp : Sage.SkewPartition outer inner = Returned (outer, inner).

Lemma sp_outer_value : weakly_decreasing outer /\ Forall (fun x => 0 < x) outer.
Proof using Hsp. apply Partition_value. by apply SkewPartition_value in Hsp as (? & ? & ?). Qed.

Lemma sp_inner_value : weakly_decreasing inner /\ Forall (fun x => 0 < x) inner.
Proof using Hsp. apply Partition_value. by apply SkewPartition_value in Hsp as (? & ? & ?). Qed.

Lemma sp_contains :
  (length inner <= length outer)%nat /\
  forall i x y, inner !! i = Some x -> outer !! i = Some y -> x <= y.
Proof using Hsp. apply contains_spec. by apply SkewPartition_value in Hsp as (? & ? & ?). Qed.

Lemma sp_rows_bounds :
  Forall (fun r => 0 <= r.1 /\ r.1 <= r.2 /\ 0 < r.2 /\ r.2 <= hd 0 outer) (sp_rows outer inner).
Proof using Hsp.
  destruct sp_outer_value as [Hwd Hpos]. destruct sp_inner_value as [Hwdi Hposi].
  destruct sp_contains as [Hlen Hle].
  apply Forall_forall. intros [a b] Hr. apply list_elem_of_lookup in Hr as [j Hj].
  rewrite sp_rows_lookup in Hj by done.
  destruct (outer !! j) as [y|] eqn:Hy; [|done]. injection Hj as <- <-. simpl.
  rewrite Forall_forall in Hpos, Hposi.
  pose proof (Hpos y (list_elem_of_lookup_2 _ _ _ Hy)) as Hy0. simpl in Hy0.
  pose proof (weakly_decreasing_hd outer j y Hwd Hy).
  rewrite nth_lookup. destruct (inner !! j) as [x|] eqn:Hx; simpl; [|lia].
  pose proof (Hposi x (list_elem_of_lookup_2 _ _ _ Hx)) as Hx0. simpl in Hx0.
  specialize (Hle j x y Hx Hy). lia.
Qed.

Lemma sp_rows_sorted : rows_sorted (sp_rows outer inner).
Proof using Hsp.
  destruct sp_outer_value as [Hwd _]. destruct sp_contains as [Hlen _].
  unfold rows_sorted.
  assert (Hgen : forall rows : list (Z * Z),
            weakly_decreasing (rows.*2) -> StronglySorted (fun r r' => r'.2 <= r.2) rows).
  { induction rows as [|r rows IH]; intros Hw; constructor.
    - apply IH. intros i j x y Hij Hx Hy. apply (Hw (S i) (S j)); [lia|done..].
    - apply Forall_forall. intros r' Hr'. apply list_elem_of_lookup in Hr' as [j Hj].
      apply (Hw 0%nat (S j)); [lia|done|]. simpl. by rewrite list_lookup_fmap, Hj. }
  apply Hgen. by rewrite sp_rows_outer.
Qed.

Lemma column_lengths_rows :
  Sage.column_lengths (outer, inner) =
  map (fun c => cover c (sp_rows outer inner)) (range 0 (hd 0 outer)).
Proof using Hsp.
  destruct sp_outer_value as [Hwd Hpos]. destruct sp_inner_value as [Hwdi Hposi].
  destruct sp_contains as [Hlen Hle].
  assert (Hhd : 0 <= hd 0 inner <= hd 0 outer).
  { destruct inner as [|x i'] eqn:Hi; destruct outer as [|y o'] eqn:Ho; simpl in *; try lia.
    - apply Forall_cons in Hpos as [? _]. lia.
    - apply Forall_cons in Hposi as [? _]. specialize (Hle 0%nat x y eq_refl eq_refl). lia. }
  apply list_eq. intros j. unfold Sage.column_lengths. simpl.
  rewrite row_lengths_lookup by (rewrite !conjugate_length; lia).
  destruct (decide (Z.of_nat j < hd 0 outer)) as [Hj|Hj].
  - rewrite cover_list_lookup by done.
    pose proof (conjugate_lookup outer (Z.of_nat j) ltac:(lia)) as Hco.
    pose proof (conjugate_nth inner (Z.of_nat j) Hwdi ltac:(lia)) as Hci.
    rewrite Nat2Z.id in Hco, Hci. rewrite Hco, Hci. simpl. f_equal.
    rewrite cover_count.
    + rewrite sp_rows_outer, sp_rows_inner by done.
      rewrite count_above_padded by lia. done.
    + eapply Forall_impl; [apply sp_rows_bounds|]. simpl. lia.
  - rewrite !lookup_ge_None_2; [done|rewrite ?cover_list_length, ?conjugate_length; lia..].
Qed.

Lemma SkewPartition_padded m :
  Sage.SkewPartition outer (inner ++ replicate m 0) = Returned (outer, inner).
Proof using Hsp.
  destruct sp_inner_value as [Hwdi Hposi].
  pose proof Hsp as (Ho & Hi & Hc)%SkewPartition_value.
  unfold Sage.SkewPartition. rewrite Ho. simpl.
  rewrite Partition_intro.
  - simpl. rewrite strip_zeros_padded by done. by rewrite Hc.
  - apply Forall_app. split.
    + eapply Forall_impl; [exact Hposi|]. simpl. lia.
    + apply Forall_forall. intros x Hx%elem_of_replicate. lia.
  - intros i j x y Hij Hx Hy.
    apply lookup_app_Some in Hy as [Hy|[Hge Hy]].
    + rewrite lookup_app_l in Hx by (apply lookup_lt_Some in Hy; lia).
      by apply (Hwdi i j).
    + apply lookup_replicate in Hy as [-> _].
      apply list_elem_of_lookup_2, elem_of_app in Hx as [Hx|Hx%elem_of_replicate]; [|lia].
      rewrite Forall_forall in Hposi. specialize (Hposi x Hx). simpl in Hposi. lia.
Qed.

(** The round trip for a skew partition without empty rows. *)
Lemma round_trip_without_empty_rows :
  Forall (fun r => 0 < r) (Sage.row_lengths (outer, inner)) ->
  row_col_to_skew_partition (Sage.row_lengths (outer, inner))
                            (Sage.column_lengths (outer, inner))
  = Returned (outer, inner).
Proof using Hsp.
  intros Hne. destruct sp_contains as [Hlen _]. destruct sp_outer_value as [_ Hpos].
  rewrite row_lengths_rows in Hne by done.
  unfold row_col_to_skew_partition.
  rewrite column_lengths_rows, row_lengths_rows by done.
  assert (Hn : hd 0 outer = Z.of_nat (Z.to_nat (hd 0 outer))).
  { pose proof sp_rows_bounds as Hb. destruct outer as [|y o']; simpl; [done|].
    apply Forall_cons in Hpos as [? _]. lia. }
  rewrite Hn. rewrite (rc_loop_spec (Z.to_nat (hd 0 outer)) (sp_rows outer inner)).
  - simpl. rewrite sp_rows_outer, sp_rows_inner by done. apply SkewPartition_padded.
  - apply sp_rows_sorted.
  - rewrite <- Hn. pose proof sp_rows_bounds as Hb.
    rewrite Forall_forall in Hb. rewrite Forall_forall in Hne.
    apply Forall_forall. intros r Hr.
    specialize (Hb r Hr). simpl in Hb.
    assert (Hr' : rowlen r ∈ map rowlen (sp_rows outer inner)).
    { apply list_elem_of_In, in_map, list_elem_of_In, Hr. }
    specialize (Hne _ Hr'). unfold rowlen in Hne. simpl in Hne. lia.
Qed.

End RoundTrip.

Lemma padded_weakly_decreasing (i : list Z) m :
  weakly_decreasing i -> Forall (fun x => 0 < x) i ->
  weakly_decreasing (i ++ replicate m 0).
Proof.
  intros Hwd Hpos a b x y Hab Hx Hy.
  apply lookup_app_Some in Hy as [Hy|[Hge Hy]].
  - rewrite lookup_app_l in Hx by (apply lookup_lt_Some in Hy; lia).
    by apply (Hwd a b).
  - apply lookup_replicate in Hy as [-> _].
    apply list_elem_of_lookup_2, elem_of_app in Hx as [Hx|Hx%elem_of_replicate]; [|lia].
    rewrite Forall_forall in Hpos. specialize (Hpos x Hx). simpl in Hpos. lia.
Qed.

Lemma cover_nonneg c rows : 0 <= cover c rows.
Proof. unfold cover, len. lia. Qed.

Lemma cover_positive c rows r : r ∈ rows -> r.1 <= c < r.2 -> 0 < cover c rows.
Proof.
  intros Hr Hc. unfold cover, len.
  assert (Hin : r ∈ filter (fun r => r.1 <= c < r.2) rows) by (by apply list_elem_of_filter).
  destruct (filter _ rows); [by apply not_elem_of_nil in Hin|simpl; lia].
Qed.

Section LinkedRows.

Variables outer inner : list Z.
Hypothesis Hsp : Sage.SkewPartition outer inner = Returned (outer, inner).
Hypothesis Hlinked : is_skew_linked_diagram (outer, inner) = true.

(** In a skew-linked diagram one empty row makes every row empty. *)
Lemma linked_empty_row_all_empty r0 :
  r0 ∈ sp_rows outer inner -> r0.1 = r0.2 ->
  Forall (fun r => r.1 = r.2) (sp_rows outer inner).
Proof using Hsp Hlinked.
  intros Hr0 Hempty.
  destruct (sp_outer_value outer inner Hsp) as [Hwd Hpos].
  destruct (sp_inner_value outer inner Hsp) as [Hwdi Hposi].
  destruct (sp_contains outer inner Hsp) as [Hlen Hle].
  pose proof (sp_rows_bounds outer inner Hsp) as Hb. rewrite Forall_forall in Hb.
  apply andb_true_iff in Hlinked as [Hrs Hcs].
  apply is_weakly_decreasing_spec in Hrs, Hcs.
  rewrite row_lengths_rows in Hrs by done.
  rewrite (column_lengths_rows outer inner Hsp) in Hcs.
  set (rows := sp_rows outer inner) in *.
  apply list_elem_of_lookup in Hr0 as [k Hk].
  (* no row reaches column 0 *)
  assert (Hleft : forall r, r ∈ rows -> 0 < r.1).
  { intros r Hr. apply list_elem_of_lookup in Hr as [j Hj].
    pose proof (Hb r (list_elem_of_lookup_2 _ _ _ Hj)) as Hbr.
    pose proof (Hb r0 (list_elem_of_lookup_2 _ _ _ Hk)) as Hbr0. simpl in Hbr, Hbr0.
    destruct (decide (j <= k)%nat) as [Hjk|Hjk].
    - assert (Hin : weakly_decreasing (rows.*1)).
      { unfold rows. rewrite sp_rows_inner by done. by apply padded_weakly_decreasing. }
      specialize (Hin j k r.1 r0.1 Hjk). rewrite !list_lookup_fmap, Hj, Hk in Hin.
      specialize (Hin eq_refl eq_refl). lia.
    - specialize (Hrs k j (rowlen r0) (rowlen r) ltac:(lia)).
      rewrite !lookup_map, Hj, Hk in Hrs. specialize (Hrs eq_refl eq_refl).
      unfold rowlen in Hrs. lia. }
  assert (Hn : 0 < hd 0 outer).
  { pose proof (Hb r0 (list_elem_of_lookup_2 _ _ _ Hk)) as Hbr0. simpl in Hbr0. lia. }
  assert (Hzero : cover 0 rows = 0).
  { unfold cover. rewrite filter_keeps_none; [done|].
    apply Forall_forall. intros r Hr. specialize (Hleft r Hr). lia. }
  assert (Hcols : forall c, 0 <= c < hd 0 outer -> cover c rows = 0).
  { intros c Hc. specialize (Hcs 0%nat (Z.to_nat c) (cover 0 rows) (cover c rows) ltac:(lia)).
    rewrite (cover_list_lookup _ _ 0%nat) in Hcs by lia.
    rewrite (cover_list_lookup _ _ (Z.to_nat c)) in Hcs by lia.
    rewrite Z2Nat.id in Hcs by lia. specialize (Hcs eq_refl eq_refl).
    pose proof (cover_nonneg c rows). lia. }
  apply Forall_forall. intros r Hr.
  pose proof (Hb r Hr) as Hbr. simpl in Hbr.
  destruct (decide (r.1 = r.2)) as [|Hne]; [done|]. exfalso.
  pose proof (cover_positive r.1 rows r Hr ltac:(lia)).
  specialize (Hcols r.1 ltac:(lia)). lia.
Qed.

Lemma linked_rows_nonempty :
  outer <> inner -> Forall (fun r => 0 < r) (Sage.row_lengths (outer, inner)).
Proof using Hsp Hlinked.
  intros Hcell.
  destruct (sp_outer_value outer inner Hsp) as [Hwd Hpos].
  destruct (sp_contains outer inner Hsp) as [Hlen Hle].
  pose proof (sp_rows_bounds outer inner Hsp) as Hb. rewrite Forall_forall in Hb.
  rewrite row_lengths_rows by done.
  apply Forall_forall. intros x Hx.
  apply list_elem_of_In, in_map_iff in Hx as (r & <- & Hr%list_elem_of_In).
  pose proof (Hb r Hr) as Hbr. simpl in Hbr. unfold rowlen.
  destruct (decide (r.1 = r.2)) as [Heq|Hne]; [|lia]. exfalso. apply Hcell.
  pose proof (linked_empty_row_all_empty r Hr Heq) as Hall.
  assert (Hfs : (sp_rows outer inner).*1 = (sp_rows outer inner).*2).
  { clear -Hall. induction Hall as [|r rows Hr _ IH]; [done|].
    rewrite !fmap_cons. by rewrite Hr, IH. }
  rewrite sp_rows_inner, sp_rows_outer in Hfs by done.
  destruct (decide (length inner = length outer)) as [Hl|Hl].
  - rewrite Hl, Nat.sub_diag, app_nil_r in Hfs. done.
  - exfalso. assert (Hz : outer !! length inner = Some 0).
    { rewrite <- Hfs. rewrite lookup_app_r, Nat.sub_diag by lia.
      apply lookup_replicate_2. lia. }
    rewrite Forall_forall in Hpos.
    specialize (Hpos 0 (list_elem_of_lookup_2 _ _ _ Hz)). simpl in Hpos. lia.
Qed.

End LinkedRows.

(** The skew partition of the tests is rebuilt from its lengths. *)
Example row_col_example :
  row_col_to_skew_partition [4; 3; 3; 2; 2; 1] [4; 3; 3; 2; 2; 1]
  = Returned ([6; 5; 3; 2; 2; 1], [2; 2]).
Proof. vm_compute. reflexivity. Qed.

(** C2 (as stated) fails for the skew partition [[[1], [1]]], which has no
    cell: its row and column lengths are [[0]] and it comes back as the
    empty skew partition. *)
Lemma row_col_round_trip_fails_without_cells :
  Sage.SkewPartition [1] [1] = Returned ([1], [1]) /\
  is_skew_linked_diagram ([1], [1]) = true /\
  row_col_to_skew_partition (Sage.row_lengths ([1], [1])) (Sage.column_lengths ([1], [1]))
  = Returned ([], []).
Proof. repeat split; vm_compute; reflexivity. Qed.

(** C2 (amended): for every skew partition [sp = (outer, inner)] whose row
    lengths and column lengths are both weakly decreasing, and which has a
    cell or is the empty skew partition,
    [row_col_to_skew_partition(sp.row_lengths(), sp.column_lengths())]
    returns [sp]. *)
Theorem row_col_round_trip (outer inner : list Z) :
  Sage.SkewPartition outer inner = Returned (outer, inner) ->
  is_skew_linked_diagram (outer, inner) = true ->
  (outer = inner -> outer = []) ->
  row_col_to_skew_partition (Sage.row_lengths (outer, inner))
                            (Sage.column_lengths (outer, inner))
  = Returned (outer, inner).
Proof.
  intros Hsp Hlinked Hcell. apply round_trip_without_empty_rows; [done|].
  destruct (decide (outer = inner)) as [Heq|Hne].
  - rewrite <- Heq, (Hcell Heq). constructor.
  - by apply linked_rows_nonempty.
Qed.

Lemma row_col_round_trip_witness :
  row_col_to_skew_partition (Sage.row_lengths ([6; 5; 3; 2; 2; 1], [2; 2]))
                            (Sage.column_lengths ([6; 5; 3; 2; 2; 1], [2; 2]))
  = Returned ([6; 5; 3; 2; 2; 1], [2; 2]).
Proof.
  apply (row_col_round_trip [6; 5; 3; 2; 2; 1] [2; 2]);
    [vm_compute; reflexivity | vm_compute; reflexivity | intros H; discriminate H].
Defined.

(** *** Straightening *)

(** The example of the docstring: [s[2, 1, 3] = -s[2, 2, 2]]. *)
Example straighten_213 : straighten [2; 1; 3] = Term (-1) [2; 2; 2].
Proof. vm_compute. reflexivity. Qed.

Lemma has_nonnegative_parts_spec lis :
  has_nonnegative_parts lis = true <-> Forall (fun e => 0 <= e) lis.
Proof.
  unfold has_nonnegative_parts. rewrite forallb_forall, Forall_forall. split.
  - intros H x Hx. apply list_elem_of_In, H, bool_decide_eq_true in Hx. lia.
  - intros H x Hx. apply bool_decide_eq_true. apply list_elem_of_In, H in Hx. lia.
Qed.

Lemma size_list_to_set_le (l : list Z) : (size (list_to_set l : gset Z) <= length l)%nat.
Proof.
  induction l as [|a l IH]; [done|]. simpl.
  destruct (decide (a ∈ l)) as [Hin|Hnin].
  - rewrite subseteq_union_1_L; [lia|]. apply singleton_subseteq_l. by apply elem_of_list_to_set.
  - rewrite size_union, size_singleton; [lia|].
    apply disjoint_singleton_l. by rewrite elem_of_list_to_set.
Qed.

Lemma has_distinct_parts_spec lis : has_distinct_parts lis = true <-> NoDup lis.
Proof.
  unfold has_distinct_parts. rewrite bool_decide_eq_true. split; [|apply size_list_to_set].
  induction lis as [|a l IH]; intros H; constructor; simpl in H.
  - intros Hin. rewrite subseteq_union_1_L in H.
    + pose proof (size_list_to_set_le l). lia.
    + apply singleton_subseteq_l. by apply elem_of_list_to_set.
  - apply IH. destruct (decide (a ∈ l)) as [Hin|Hnin].
    + rewrite subseteq_union_1_L in H.
      * pose proof (size_list_to_set_le l). lia.
      * apply singleton_subseteq_l. by apply elem_of_list_to_set.
    + rewrite size_union, size_singleton in H; [lia|].
      apply disjoint_singleton_l. by rewrite elem_of_list_to_set.
Qed.

Lemma count_loop_spec {A : Type} (P : A -> Prop) `{!forall x, Decision (P x)} (js : list A) num :
  foldl (fun num j => if bool_decide (P j) then num + 1 else num) num js
  = num + len (filter P js).
Proof.
  revert num. induction js as [|j js IH]; intros num; simpl; [unfold len; simpl; lia|].
  rewrite IH, filter_cons. unfold len.
  case_bool_decide; [rewrite decide_True by done|rewrite decide_False by done]; simpl; lia.
Qed.

Lemma filter_pair_length {A B : Type} (Q : A * B -> Prop) `{!forall p, Decision (Q p)}
    (i : A) (js : list B) :
  length (filter Q (map (pair i) js)) = length (filter (fun j => Q (i, j)) js).
Proof.
  induction js as [|j js IH]; simpl; [done|].
  rewrite !filter_cons. destruct (decide (Q (i, j))); simpl; by rewrite IH.
Qed.

Lemma filter_ext_elem_of {A : Type} (P1 P2 : A -> Prop)
    `{!forall x, Decision (P1 x), !forall x, Decision (P2 x)} (l : list A) :
  (forall x, x ∈ l -> P1 x <-> P2 x) -> filter P1 l = filter P2 l.
Proof.
  induction l as [|a l IH]; intros Hext; [done|].
  rewrite !filter_cons, IH by (intros x Hx; apply Hext; by right).
  pose proof (Hext a (list_elem_of_here _ _)).
  destruct (decide (P1 a)); destruct (decide (P2 a)); tauto.
Qed.

Lemma filter_later_columns (P : nat -> Prop) `{!forall x, Decision (P x)} (i n : nat) :
  filter (fun j => (i < j)%nat /\ P j) (seq 0 n) = filter P (seq (i + 1) (n - (i + 1))).
Proof.
  destruct (decide (i < n)%nat) as [Hi|Hi].
  - replace n with ((i + 1) + (n - (i + 1)))%nat at 1 by lia.
    rewrite seq_app, filter_app. rewrite (filter_keeps_none _ (seq 0 (i + 1))).
    + simpl. apply filter_ext_elem_of. intros j Hj%list_elem_of_In%in_seq. intuition lia.
    + apply Forall_forall. intros j Hj%list_elem_of_In%in_seq. lia.
  - replace (n - (i + 1))%nat with 0%nat by lia. simpl.
    apply filter_keeps_none, Forall_forall. intros j Hj%list_elem_of_In%in_seq. lia.
Qed.

Lemma number_of_noninversions_spec l :
  number_of_noninversions l = len (noninversion_pairs l).
Proof.
  unfold number_of_noninversions, noninversion_pairs.
  assert (Hgen : forall rows acc,
    foldl (fun num i =>
             foldl (fun num j => if bool_decide (nth i l 0 < nth j l 0) then num + 1 else num)
                   num (seq (i + 1) (length l - (i + 1)))) acc rows
    = acc + len (filter (fun p => (p.1 < p.2)%nat /\ nth p.1 l 0 < nth p.2 l 0)
                        (list_prod rows (seq 0 (length l))))).
  { intros rows. induction rows as [|i rows IH]; intros acc; simpl; [unfold len; simpl; lia|].
    rewrite IH, count_loop_spec, filter_app. unfold len.
    rewrite length_app, filter_pair_length. simpl.
    rewrite (filter_later_columns (fun j => nth i l 0 < nth j l 0)). lia. }
  by rewrite Hgen.
Qed.

Lemma rho_S n : rho (Z.of_nat (S n)) = Z.of_nat n :: rho (Z.of_nat n).
Proof.
  unfold rho, range. rewrite seqZ_cons by lia. simpl map. f_equal; [lia|].
  replace (Z.succ 0) with (1 + 0) by lia. rewrite <- fmap_add_seqZ.
  replace (Z.pred (Z.of_nat (S n) - 0)) with (Z.of_nat n - 0) by lia.
  change (map ?f (?g <$> ?l)) with (f <$> (g <$> l)). rewrite <- list_fmap_compose.
  apply list_fmap_ext. intros _ x _. simpl. lia.
Qed.

Lemma rho_length l : length (rho l) = Z.to_nat l.
Proof. unfold rho. rewrite length_map, range_length. f_equal. lia. Qed.

Lemma rho_lookup l (i : nat) :
  Z.of_nat i < l -> rho l !! i = Some (l - 1 - Z.of_nat i).
Proof.
  intros Hi. unfold rho, range. rewrite lookup_map, lookup_seqZ_lt by lia. simpl.
  f_equal; lia.
Qed.

Lemma StronglySorted_reverse_le (l : list Z) :
  StronglySorted Z.le l -> StronglySorted Z.ge (reverse l).
Proof.
  induction 1 as [|x l Hs IH Hx]; [constructor|].
  rewrite reverse_cons. apply StronglySorted_app. split; [|split; [done|repeat constructor]].
  intros y z Hy Hz%list_elem_of_singleton. subst z. rewrite elem_of_reverse in Hy.
  rewrite Forall_forall in Hx. specialize (Hx y Hy). lia.
Qed.

Lemma StronglySorted_strict (d : list Z) :
  StronglySorted Z.ge d -> NoDup d -> StronglySorted Z.gt d.
Proof.
  induction 1 as [|x d Hs IH Hx]; intros Hnd; constructor.
  - apply IH. by apply NoDup_cons in Hnd as [_ ?].
  - apply NoDup_cons in Hnd as [Hnin _]. rewrite Forall_forall in *.
    intros y Hy. specialize (Hx y Hy). assert (x <> y) by (intros ->; done). lia.
Qed.

(** A strictly decreasing list of non-negative integers dominates [rho],
    and what is left after subtracting [rho] is weakly decreasing. *)
Lemma strict_minus_rho d :
  StronglySorted Z.gt d -> Forall (fun x => 0 <= x) d ->
  let idx := zip_with Z.sub d (rho (len d)) in
  Forall (fun x => 0 <= x) idx /\
  (forall i a b, idx !! i = Some a -> idx !! S i = Some b -> b <= a) /\
  (forall x, hd_error d = Some x -> hd_error idx = Some (x - (len d - 1))).
Proof.
  unfold len. induction 1 as [|x d Hs IH Hx]; intros Hnn; [by repeat split|].
  apply Forall_cons in Hnn as [Hx0 Hnn]. destruct (IH Hnn) as (IH1 & IH2 & IH3).
  cbn [length]. rewrite rho_S. cbn [zip_with].
  assert (Hhd : forall b, hd_error (zip_with Z.sub d (rho (Z.of_nat (length d)))) = Some b ->
                  b <= x - Z.of_nat (length d)).
  { intros b Hb. destruct d as [|y d']; [done|].
    rewrite (IH3 y eq_refl) in Hb. injection Hb as <-.
    apply Forall_cons in Hx as [Hxy _]. cbn [length]. lia. }
  split; [|split].
  - constructor; [|done].
    destruct (zip_with Z.sub d (rho (Z.of_nat (length d)))) as [|b idx] eqn:Hidx.
    + destruct d as [|y d']; [simpl; lia|]. cbn [length] in Hidx.
      rewrite rho_S in Hidx. done.
    + specialize (Hhd b eq_refl). apply Forall_cons in IH1 as [Hb _]. lia.
  - intros [|i] a b Ha Hb; simpl in Ha, Hb.
    + injection Ha as <-. apply Hhd.
      destruct (zip_with Z.sub d _); simpl in *; congruence.
    + by apply (IH2 i).
  - intros x' [= <-]. simpl. f_equal. lia.
Qed.

(** C3: with [combined = gamma + rho], [straighten gamma] is zero when
    [combined] has a negative or a repeated entry; otherwise it is
    [(-1)^c] times the basis element indexed by [d - rho], where [d] is
    [combined] sorted into strictly decreasing order and [c] counts the pairs
    [i < j] with [combined[i] < combined[j]]; that index is weakly decreasing
    with non-negative entries. *)
Theorem straighten_spec (gamma : list Z) :
  let combined := zip_with Z.add gamma (rho (len gamma)) in
  (forall i : nat, (i < length gamma)%nat ->
     rho (len gamma) !! i = Some (len gamma - 1 - Z.of_nat i)) /\
  (Exists (fun x => x < 0) combined \/ ~ NoDup combined -> straighten gamma = Zero) /\
  (Forall (fun x => 0 <= x) combined -> NoDup combined ->
   exists d,
     d ≡ₚ combined /\ StronglySorted Z.gt d /\
     straighten gamma =
       Term ((-1) ^ len (noninversion_pairs combined)) (zip_with Z.sub d (rho (len gamma))) /\
     is_weakly_decreasing (zip_with Z.sub d (rho (len gamma))) = true /\
     Forall (fun x => 0 <= x) (zip_with Z.sub d (rho (len gamma)))).
Proof.
  intros combined. split; [|split].
  - intros i Hi. apply rho_lookup. unfold len. lia.
  - intros Hbad. unfold straighten. fold combined.
    destruct (has_distinct_parts combined) eqn:Hd; [|done].
    destruct (has_nonnegative_parts combined) eqn:Hn; [|done]. exfalso.
    apply has_distinct_parts_spec in Hd. apply has_nonnegative_parts_spec in Hn.
    destruct Hbad as [Hneg|Hdup]; [|done].
    apply Exists_exists in Hneg as (x & Hx & Hx0). rewrite Forall_forall in Hn.
    specialize (Hn x Hx). lia.
  - intros Hnn Hnd. exists (reverse (merge_sort Z.le combined)).
    assert (Hperm : reverse (merge_sort Z.le combined) ≡ₚ combined).
    { by rewrite reverse_Permutation, merge_sort_Permutation. }
    assert (Hsorted : StronglySorted Z.gt (reverse (merge_sort Z.le combined))).
    { apply StronglySorted_strict; [|by rewrite Hperm].
      apply StronglySorted_reverse_le, StronglySorted_merge_sort; apply _. }
    assert (Hlen : len (reverse (merge_sort Z.le combined)) = len gamma).
    { unfold len. rewrite Hperm. unfold combined.
      rewrite length_zip_with, rho_length. unfold len. lia. }
    pose proof (strict_minus_rho _ Hsorted ltac:(by rewrite Hperm)) as (H1 & H2 & _).
    rewrite Hlen in H1, H2.
    split; [done|]. split; [done|]. split; [|split; [|done]].
    + unfold straighten. fold combined.
      rewrite (proj2 (has_distinct_parts_spec _) Hnd).
      rewrite (proj2 (has_nonnegative_parts_spec _) Hnn). simpl.
      by rewrite number_of_noninversions_spec.
    + by apply is_weakly_decreasing_adjacent.
Qed.

(** *** Bump paths and selected rows *)

(** The values [test_main.py] asserts for the cell finders. *)
Example left_top_tests :
  left ([5; 5; 4; 2; 2], [4; 3; 2]) 2 = Some (2, 2) /\
  left ([2], [1]) 0 = Some (0, 1) /\
  left ([2], [2]) 0 = None /\
  top ([1; 1], []) 0 = Some (1, 0) /\
  top ([1; 1], [1]) 0 = Some (1, 0) /\
  top ([2], [2]) 0 = None /\
  top ([5; 5; 4; 2; 2], [4; 3; 2]) 2 = Some (2, 2) /\
  top ([5; 5; 4; 2; 2], [4; 3; 2]) 3 = Some (2, 3).
Proof. repeat split; vm_compute; reflexivity. Qed.

Section SelectedRowsFacts.

Variable left' top' : Z -> option (Z * Z).
Variable outer : list Z.

(** With no row blocked, one piece of the path goes from [r] to the row of
    the cell [top] finds above the left end of [r]. *)
Lemma bump_path_loop_step fuel r cell2 cell3 new :
  left' r = Some cell2 -> top' cell2.2 = Some cell3 -> cell3.1 <= len outer - 1 ->
  bump_path_loop left' top' outer (S fuel) r ∅ new
  = bump_path_loop left' top' outer fuel cell3.1 ∅ (new ∪ {[cell3.1]}).
Proof.
  intros Hl Ht Hle. cbn [bump_path_loop]. unfold bump_path_piece.
  rewrite Hl. cbn [cell_of mbind outcome_bind bind]. rewrite Ht.
  cbn [cell_of mbind outcome_bind bind skip_blocked].
  rewrite decide_False by set_solver. cbn [mbind outcome_bind bind].
  rewrite bool_decide_eq_false_2 by lia. done.
Qed.

(** A row whose piece leads back to itself keeps the loop running. *)
Lemma bump_path_loop_stuck r cell2 :
  left' r = Some cell2 -> top' cell2.2 = Some (r, cell2.2) -> r <= len outer - 1 ->
  forall fuel new, bump_path_loop left' top' outer fuel r ∅ new = OutOfFuel.
Proof.
  intros Hl Ht Hle. induction fuel as [|fuel IH]; intros new; [done|].
  rewrite (bump_path_loop_step fuel r cell2 (r, cell2.2)) by done. apply IH.
Qed.

Lemma bump_path_loop_grows fuel r blocked new s :
  bump_path_loop left' top' outer fuel r blocked new = Returned s -> new ⊆ s.
Proof.
  revert r new. induction fuel as [|fuel IH]; intros r new; [done|].
  cbn [bump_path_loop].
  destruct (bump_path_piece left' top' outer (S fuel) r blocked) as [[|r']| |];
    cbn [mbind outcome_bind bind]; [|intros H%IH|done..].
  - intros [= ->]. done.
  - set_solver.
Qed.

(** The statement [blocked_rows += new_blocked_rows] ends the first round
    of the main loop, if that round gets so far. *)
Lemma selected_rows_iadd_never_returns fuel :
  outer <> [] ->
  is_returned (selected_rows_with left' top' outer set_iadd fuel) = false.
Proof.
  intros Hne. destruct outer as [|x rest]; [done|].
  unfold selected_rows_with, enumerate. cbn [enumerate_from for_each].
  unfold selected_rows_step at 1.
  by destruct (bump_path left' top' (x :: rest) fuel _ ∅).
Qed.

(** Read as a union, the update blocks every row the loop visits. *)
Lemma selected_rows_ior_blocks fuel (items : list Z) :
  forall (t : nat) (blocked s : gset Z),
    for_each (selected_rows_step left' top' outer set_ior fuel) (enumerate_from t items) blocked
    = Returned s ->
    blocked ⊆ s /\
    forall j : nat, (t <= j < t + length items)%nat -> Z.of_nat j ∈ s.
Proof.
  induction items as [|x items IH]; intros t blocked s; cbn [enumerate_from for_each].
  - intros [= ->]. split; [done|]. simpl. lia.
  - unfold selected_rows_step at 1. unfold bump_path. cbn [fst].
    destruct (bump_path_loop left' top' outer fuel (Z.of_nat t) blocked {[Z.of_nat t]})
      as [new| |] eqn:Hnew; cbn [mbind outcome_bind bind set_ior]; [|done..].
    intros Hs. apply IH in Hs as [Hsub Hin]. apply bump_path_loop_grows in Hnew.
    clear IH. split; [set_solver|].
    intros j Hj. destruct (decide (j = t)) as [->|Hne]; [clear Hj; set_solver|].
    apply Hin. simpl in Hj. lia.
Qed.

Lemma selected_rows_ior_empty fuel l :
  selected_rows_with left' top' outer set_ior fuel = Returned l -> l = [].
Proof.
  unfold selected_rows_with, enumerate.
  destruct (for_each _ (enumerate_from 0 outer) ∅) as [s| |] eqn:Hs;
    cbn [mbind outcome_bind bind]; [|done..].
  apply selected_rows_ior_blocks in Hs as [_ Hin]. intros [= <-].
  replace (list_to_set (range 0 (len outer)) ∖ s) with (∅ : gset Z); [done|].
  symmetry. apply set_eq. intros z. split; [|set_solver].
  intros [Hz Hnz]%elem_of_difference. exfalso. apply Hnz.
  apply elem_of_list_to_set, elem_of_range in Hz. unfold len in Hz.
  rewrite <- (Z2Nat.id z) by lia. apply Hin. lia.
Qed.

End SelectedRowsFacts.

(** C1: on the skew partition [[[6,5,3,2,2,1], [2,2]]] the function does not
    return [[0, 1, 2, 5]], the value [test_main.py] asserts.  With the cell
    finders of the spec the path from row 0 reaches row 2, then row 5, and
    stays there for ever.  Whatever the cell finders are, the first
    [blocked_rows += new_blocked_rows] raises; and read as a union it would
    block every row, leaving no row selected. *)
Theorem selected_rows_example_not_returned :
  (forall fuel, skew_partition_to_selected_rows fuel ([6; 5; 3; 2; 2; 1], [2; 2]) = OutOfFuel) /\
  (forall left' top' fuel,
     is_returned (selected_rows_with left' top' [6; 5; 3; 2; 2; 1] set_iadd fuel) = false) /\
  (forall left' top' fuel l,
     selected_rows_with left' top' [6; 5; 3; 2; 2; 1] set_ior fuel = Returned l -> l = []).
Proof.
  split; [|split].
  - intros fuel. unfold skew_partition_to_selected_rows, selected_rows_with, enumerate.
    cbn [fst enumerate_from for_each]. unfold selected_rows_step at 1, bump_path.
    cbn [fst].
    set (sp := ([6; 5; 3; 2; 2; 1], [2; 2])).
    assert (H5 : forall fuel new,
              bump_path_loop (left sp) (top sp) [6; 5; 3; 2; 2; 1] fuel 5 ∅ new = OutOfFuel).
    { apply (bump_path_loop_stuck _ _ _ 5 (5, 0)); [reflexivity|reflexivity|].
      vm_compute. discriminate. }
    assert (H2 : forall fuel new,
              bump_path_loop (left sp) (top sp) [6; 5; 3; 2; 2; 1] fuel 2 ∅ new = OutOfFuel).
    { intros [|f] new; [done|].
      rewrite (bump_path_loop_step _ _ _ f 2 (2, 0) (5, 0));
        [apply H5|reflexivity|reflexivity|vm_compute; discriminate]. }
    destruct fuel as [|f]; [done|].
    rewrite (bump_path_loop_step _ _ _ f 0 (0, 2) (2, 2));
      [|reflexivity|reflexivity|vm_compute; discriminate].
    cbn [fst]. by rewrite H2.
  - intros left' top' fuel. by apply selected_rows_iadd_never_returns.
  - intros left' top' fuel l. apply selected_rows_ior_empty.
Qed.

(** C7: the empty skew partition yields the empty list, but on the one-cell
    skew partition [[[1], []]], for which [test_main.py] asserts [[0]], the
    function does not return: with the cell finders of the spec the path from
    row 0 leads back to row 0 for ever.  On no shape with a row does the code
    return a list: the first [blocked_rows += new_blocked_rows] raises, and
    read as a union it would block every row that starts a bump path. *)
Theorem selected_rows_never_selects :
  (forall fuel, skew_partition_to_selected_rows fuel ([], []) = Returned []) /\
  (forall fuel, skew_partition_to_selected_rows fuel ([1], []) = OutOfFuel) /\
  (forall left' top' outer fuel,
     outer <> [] -> is_returned (selected_rows_with left' top' outer set_iadd fuel) = false) /\
  (forall left' top' outer fuel l,
     selected_rows_with left' top' outer set_ior fuel = Returned l -> l = []).
Proof.
  split; [|split; [|split]].
  - intros fuel. reflexivity.
  - intros fuel. unfold skew_partition_to_selected_rows, selected_rows_with, enumerate.
    cbn [fst enumerate_from for_each]. unfold selected_rows_step at 1, bump_path.
    cbn [fst].
    rewrite (bump_path_loop_stuck (left ([1], [])) (top ([1], [])) [1] 0 (0, 0));
      [done|reflexivity|reflexivity|vm_compute; discriminate].
  - intros left' top' outer fuel. apply selected_rows_iadd_never_returns.
  - intros left' top' outer fuel l. apply selected_rows_ior_empty.
Qed.

(** *** The raising operator algebra: indices *)

Lemma list_eq_nth (l k : list Z) :
  length l = length k -> (forall i, nth i l 0 = nth i k 0) -> l = k.
Proof.
  intros Hlen Hnth. apply list_eq. intros i.
  destruct (decide (i < length l)%nat) as [Hi|Hi].
  - destruct (lookup_lt_is_Some_2 l i Hi) as [x Hx].
    destruct (lookup_lt_is_Some_2 k i ltac:(lia)) as [y Hy].
    specialize (Hnth i).
    rewrite (nth_lookup_Some _ _ _ _ Hx), (nth_lookup_Some _ _ _ _ Hy) in Hnth. congruence.
  - rewrite !lookup_ge_None_2 by lia. done.
Qed.

Lemma index_mul_length a b : length (index_mul a b) = Nat.max (length a) (length b).
Proof.
  unfold index_mul. rewrite length_zip_with, !length_app, !length_replicate. lia.
Qed.

(** The index of a product is the elementwise sum of the zero-padded
    indices. *)
Lemma index_mul_nth a b k : nth k (index_mul a b) 0 = nth k a 0 + nth k b 0.
Proof.
  destruct (decide (k < Nat.max (length a) (length b))%nat) as [Hk|Hk].
  - apply nth_lookup_Some. unfold index_mul.
    rewrite lookup_zip_with, !padded_lookup by lia. done.
  - rewrite !nth_overflow; [lia|lia|lia|rewrite index_mul_length; lia].
Qed.

Lemma index_mul_comm a b : index_mul a b = index_mul b a.
Proof.
  apply list_eq_nth; [rewrite !index_mul_length; lia|].
  intros i. rewrite !index_mul_nth. lia.
Qed.

Lemma index_mul_assoc a b c : index_mul (index_mul a b) c = index_mul a (index_mul b c).
Proof.
  apply list_eq_nth; [rewrite !index_mul_length; lia|].
  intros i. rewrite !index_mul_nth. lia.
Qed.

Lemma index_mul_nil_l a : index_mul [] a = a.
Proof.
  apply list_eq_nth; [rewrite index_mul_length; simpl; lia|].
  intros i. rewrite index_mul_nth. destruct i; simpl; lia.
Qed.

(** *** The raising operator algebra: elements *)

Section ROATheory.

Context {C : Type} `{EqDecision C} `{CoeffRing C}.
Hypothesis Hring : ring_theory c0 c1 cadd cmul csub copp eq.
Hypothesis Hnontrivial : c1 <> c0.

Add Ring coefficient_ring : Hring.

Local Notation "a ⊕ b" := (cadd a b) (at level 50, left associativity).
Local Notation "a ⊗ b" := (cmul a b) (at level 40, left associativity).
Local Abbreviation elt := (gmap (list Z) C).
Local Abbreviation add := elt_add.
Local Abbreviation mul := _mul_.
Local Abbreviation tm := term.
Local Abbreviation RR := R.

Lemma lsum_app {A : Type} (f : A -> C) l k : lsum f (l ++ k) = lsum f l ⊕ lsum f k.
Proof using Hring. induction l as [|a l IH]; simpl; [ring|rewrite IH; ring]. Qed.

Lemma lsum_ext {A : Type} (f g : A -> C) l :
  (forall a, a ∈ l -> f a = g a) -> lsum f l = lsum g l.
Proof.
  induction l as [|a l IH]; intros Hfg; simpl; [done|].
  rewrite (Hfg a), IH; [done| |by left]. intros b Hb. apply Hfg. by right.
Qed.

Lemma lsum_perm {A : Type} (f : A -> C) l k : l ≡ₚ k -> lsum f l = lsum f k.
Proof using Hring.
  induction 1 as [|a l k _ IH|a b l|l k m _ IH1 _ IH2]; simpl.
  - done.
  - by rewrite IH.
  - ring.
  - by rewrite IH1.
Qed.

Lemma lsum_add {A : Type} (f g : A -> C) l :
  lsum (fun a => f a ⊕ g a) l = lsum f l ⊕ lsum g l.
Proof using Hring. induction l as [|a l IH]; simpl; [ring|rewrite IH; ring]. Qed.

Lemma lsum_zero {A : Type} (l : list A) : lsum (fun _ => c0) l = c0.
Proof using Hring. induction l as [|a l IH]; simpl; [done|rewrite IH; ring]. Qed.

Lemma lsum_swap {A B : Type} (f : A -> B -> C) l k :
  lsum (fun a => lsum (fun b => f a b) k) l = lsum (fun b => lsum (fun a => f a b) l) k.
Proof using Hring.
  induction l as [|a l IH]; simpl.
  - by rewrite lsum_zero.
  - by rewrite IH, lsum_add.
Qed.

Lemma lsum_map {A B : Type} (f : B -> C) (g : A -> B) l :
  lsum f (map g l) = lsum (fun a => f (g a)) l.
Proof. induction l as [|a l IH]; simpl; [done|by rewrite IH]. Qed.

Lemma lsum_flat_map {A B : Type} (f : B -> C) (g : A -> list B) l :
  lsum f (flat_map g l) = lsum (fun a => lsum f (g a)) l.
Proof using Hring.
  induction l as [|a l IH]; simpl; [done|]. by rewrite lsum_app, IH.
Qed.

Lemma lsum_point {A : Type} `{EqDecision A} (f : A -> C) (u : C) (i : A) K :
  NoDup K -> i ∈ K -> f i = c0 ->
  lsum (fun k => if decide (k = i) then u else f k) K = u ⊕ lsum f K.
Proof using Hring.
  intros Hnd Hi Hfi. induction Hnd as [|k K Hk Hnd IH]; [by apply not_elem_of_nil in Hi|].
  simpl. destruct (decide (k = i)) as [->|Hne].
  - rewrite Hfi. rewrite (lsum_ext _ f).
    + ring.
    + intros a Ha. rewrite decide_False; [done|]. intros ->. done.
  - apply elem_of_cons in Hi as [->|Hi]; [done|]. rewrite IH by done. ring.
Qed.

Lemma coef_insert (m : elt) i c k :
  coef (<[i := c]> m) k = if decide (k = i) then c else coef m k.
Proof.
  unfold coef. rewrite lookup_insert.
  destruct (decide (i = k)) as [->|Hne]; [by rewrite decide_True|by rewrite decide_False].
Qed.

Lemma ev_empty (G : list Z -> C -> C) : ev G ∅ = c0.
Proof. unfold ev. by rewrite map_to_list_empty. Qed.

Lemma ev_insert (G : list Z -> C -> C) (m : elt) i c :
  m !! i = None -> ev G (<[i := c]> m) = G i c ⊕ ev G m.
Proof using Hring.
  intros Hi. unfold ev. by rewrite (lsum_perm _ _ _ (map_to_list_insert m i c Hi)).
Qed.

Lemma ev_singleton (G : list Z -> C -> C) i c : ev G ({[ i := c ]} : elt) = G i c.
Proof using Hring. unfold ev. rewrite map_to_list_singleton. simpl. ring. Qed.

Lemma ev_ext (G1 G2 : list Z -> C -> C) (x : elt) :
  (forall i c, G1 i c = G2 i c) -> ev G1 x = ev G2 x.
Proof. intros HG. unfold ev. apply lsum_ext. intros [i c] _. apply HG. Qed.

(** The sum over the terms, taken over any duplicate-free list of indices
    that covers the support. *)
Lemma ev_support (G : list Z -> C -> C) (x : elt) K :
  (forall k, G k c0 = c0) -> NoDup K -> (forall k, is_Some (x !! k) -> k ∈ K) ->
  ev G x = lsum (fun k => G k (coef x k)) K.
Proof using Hring.
  intros HG Hnd. induction x as [|i c m Hi IH] using map_ind; intros Hdom.
  - rewrite ev_empty. rewrite (lsum_ext _ (fun _ => c0)); [by rewrite lsum_zero|].
    intros k _. unfold coef. by rewrite lookup_empty.
  - rewrite ev_insert by done. rewrite IH.
    2:{ intros k Hk. apply Hdom. rewrite lookup_insert. by destruct (decide (i = k)). }
    rewrite (lsum_ext (fun k => G k (coef (<[i:=c]> m) k))
                      (fun k => if decide (k = i) then G i c else G k (coef m k))).
    + apply eq_sym, lsum_point; [done| |].
      * apply Hdom. rewrite lookup_insert_eq. by eexists.
      * unfold coef. by rewrite Hi.
    + intros k _. rewrite coef_insert. by destruct (decide (k = i)) as [->|].
Qed.

Lemma coef_ev (x : elt) k : coef x k = ev (delta k) x.
Proof using Hring.
  induction x as [|i c m Hi IH] using map_ind.
  - by rewrite ev_empty.
  - rewrite ev_insert, coef_insert, <- IH by done. unfold delta.
    destruct (decide (k = i)) as [->|Hne].
    + rewrite decide_True by done. unfold coef. rewrite Hi. simpl. ring.
    + rewrite decide_False by done. ring.
Qed.

Lemma delta_additive k : additive (delta k).
Proof using Hring.
  split; intros i; unfold delta; destruct (decide (i = k)); intros; ring.
Qed.

Lemma coef_add (x y : elt) k : coef (add x y) k = coef x k ⊕ coef y k.
Proof using Hring.
  unfold coef, elt_add. rewrite lookup_union_with.
  destruct (x !! k) as [a|], (y !! k) as [b|];
    unfold union_with, option_union_with; simpl; try ring.
  destruct (decide (a ⊕ b = c0)) as [Hz|]; simpl; [by rewrite Hz|done].
Qed.

Lemma add_support (x y : elt) k :
  is_Some (add x y !! k) -> is_Some (x !! k) \/ is_Some (y !! k).
Proof.
  unfold elt_add. rewrite lookup_union_with.
  destruct (x !! k), (y !! k); unfold union_with, option_union_with; simpl;
    intros [? ?]; eauto; done.
Qed.

Lemma ev_add (G : list Z -> C -> C) (x y : elt) : additive G -> ev G (add x y) = ev G x ⊕ ev G y.
Proof using Hring.
  intros [HG0 HGadd].
  set (K := elements (dom x ∪ dom y)).
  assert (Hnd : NoDup K) by apply NoDup_elements.
  assert (HK : forall k, is_Some (x !! k) \/ is_Some (y !! k) -> k ∈ K).
  { intros k Hk. apply elem_of_elements, elem_of_union.
    destruct Hk as [Hk|Hk]; [left|right]; by apply elem_of_dom. }
  rewrite (ev_support G (add x y) K), (ev_support G x K), (ev_support G y K); auto.
  - rewrite <- lsum_add. apply lsum_ext. intros k _. by rewrite coef_add, HGadd.
  - intros k Hk. by apply HK, add_support.
Qed.

Lemma ev_term (G : list Z -> C -> C) c i : G i c0 = c0 -> ev G (tm c i) = G i c.
Proof using Hring.
  intros HG. unfold term. destruct (decide (c = c0)) as [->|].
  - by rewrite ev_empty, HG.
  - apply ev_singleton.
Qed.

Lemma ev_sum (G : list Z -> C -> C) (l : list elt) :
  additive G -> ev G (ROA_sum l) = lsum (ev G) l.
Proof using Hring.
  intros HG. unfold ROA_sum.
  assert (Hgen : forall acc, ev G (foldl add acc l) = ev G acc ⊕ lsum (ev G) l).
  { induction l as [|x l IH]; intros acc; simpl; [ring|].
    rewrite IH, ev_add by done. ring. }
  rewrite Hgen, ev_empty. ring.
Qed.

(** A sum over the terms of a product is a double sum over the terms of
    its factors. *)
Lemma ev_mul (G : list Z -> C -> C) (x y : elt) :
  additive G ->
  ev G (mul x y) = ev (fun i1 a1 => ev (fun i2 a2 => G (index_mul i1 i2) (a1 ⊗ a2)) y) x.
Proof using Hring.
  intros HG. unfold _mul_. rewrite ev_sum by done.
  rewrite lsum_map, lsum_flat_map. unfold ev at 2. apply lsum_ext.
  intros [i1 a1] _. rewrite lsum_map. unfold ev. apply lsum_ext.
  intros [i2 a2] _. simpl. apply ev_term, HG.
Qed.

Lemma wf_empty : wf ∅.
Proof. intros k. by rewrite lookup_empty. Qed.

Lemma wf_term c i : wf (tm c i).
Proof.
  unfold term. destruct (decide (c = c0)) as [|Hc]; [apply wf_empty|].
  intros k. rewrite lookup_singleton. destruct (decide (i = k)); congruence.
Qed.

Lemma wf_add (x y : elt) : wf x -> wf y -> wf (add x y).
Proof.
  intros Hx Hy k. unfold elt_add. rewrite lookup_union_with.
  specialize (Hx k). specialize (Hy k).
  destruct (x !! k) as [a|], (y !! k) as [b|];
    unfold union_with, option_union_with; simpl; try done.
  destruct (decide (a ⊕ b = c0)); congruence.
Qed.

Lemma wf_sum (l : list elt) : Forall wf l -> wf (ROA_sum l).
Proof.
  intros Hl. unfold ROA_sum.
  assert (Hgen : forall acc, wf acc -> wf (foldl add acc l)).
  { induction Hl as [|x l Hx _ IH]; intros acc Hacc; simpl; [done|].
    apply IH. by apply wf_add. }
  apply Hgen, wf_empty.
Qed.

Lemma wf_mul (x y : elt) : wf (mul x y).
Proof.
  unfold _mul_. apply wf_sum, Forall_forall. intros e He.
  apply list_elem_of_In, in_map_iff in He as ([i c] & <- & _). apply wf_term.
Qed.

Lemma wf_R seq : wf (RR seq).
Proof using Hnontrivial.
  intros k. unfold R. rewrite lookup_singleton. destruct (decide (seq = k)); congruence.
Qed.

(** Two elements without zero coefficients are equal when all their
    coefficients agree. *)
Lemma elt_ext (x y : elt) :
  wf x -> wf y -> (forall k, coef x k = coef y k) -> x = y.
Proof.
  intros Hx Hy Hc. apply map_eq. intros k.
  specialize (Hx k). specialize (Hy k). specialize (Hc k). unfold coef in Hc.
  destruct (x !! k) as [a|], (y !! k) as [b|]; simpl in Hc; congruence.
Qed.

Lemma mul_comm (x y : elt) : mul x y = mul y x.
Proof using Hring.
  apply elt_ext; [apply wf_mul..|]. intros k.
  rewrite !coef_ev, !ev_mul by apply delta_additive.
  unfold ev. rewrite lsum_swap. apply lsum_ext. intros [i2 a2] _.
  apply lsum_ext. intros [i1 a1] _. simpl.
  rewrite (index_mul_comm i1 i2). f_equal. ring.
Qed.

Lemma mul_assoc (x y z : elt) : mul (mul x y) z = mul x (mul y z).
Proof using Hring.
  apply elt_ext; [apply wf_mul..|]. intros k.
  rewrite !coef_ev. rewrite (ev_mul _ (mul x y) z), (ev_mul _ x (mul y z))
    by apply delta_additive.
  rewrite ev_mul.
  2:{ split.
      - intros m. rewrite (ev_ext _ (fun _ _ => c0)).
        + unfold ev. apply lsum_zero.
        + intros i c. unfold delta. destruct (decide _); ring.
      - intros m a b. unfold ev. rewrite <- lsum_add. apply lsum_ext.
        intros [i c] _. simpl. unfold delta. destruct (decide _); ring. }
  apply ev_ext. intros i1 a1. rewrite ev_mul.
  2:{ split; intros; unfold delta; destruct (decide _); ring. }
  apply ev_ext. intros i2 a2. apply ev_ext. intros i3 a3.
  rewrite index_mul_assoc. f_equal. ring.
Qed.

Lemma mul_one_l (x : elt) : wf x -> mul one x = x.
Proof using Hring.
  intros Hx. apply elt_ext; [apply wf_mul|done|]. intros k.
  rewrite !coef_ev, ev_mul by apply delta_additive.
  unfold one, R. rewrite ev_singleton. apply ev_ext. intros i c.
  rewrite index_mul_nil_l. f_equal. ring.
Qed.

Lemma mul_R a b : mul (RR a) (RR b) = RR (index_mul a b).
Proof using Hring Hnontrivial.
  unfold _mul_, R. rewrite !map_to_list_singleton. simpl.
  unfold ROA_sum. simpl. unfold elt_add. rewrite (left_id ∅ _).
  unfold term. replace (c1 ⊗ c1) with c1 by ring. by rewrite decide_False.
Qed.

(** The product of a list of elements does not depend on their order. *)
Lemma foldl_mul_perm (l l' : list elt) :
  l ≡ₚ l' -> forall a, foldl mul a l = foldl mul a l'.
Proof using Hring.
  induction 1 as [|x l l' _ IH|x y l|l l' l'' _ IH1 _ IH2]; intros a; simpl.
  - done.
  - apply IH.
  - f_equal. rewrite !mul_assoc. f_equal. apply mul_comm.
  - by rewrite IH1.
Qed.

(** C4: the product of two basis generators is the generator of the
    zero-padded elementwise sum of their indices; it is commutative and
    associative, and [R(())] is a two-sided identity.  Multiplication is
    commutative and associative on all elements, so the operator that
    [indexed_root_ideal_to_catalan_function] builds is the same for every
    enumeration order of the complement pairs. *)
Theorem RaisingOperatorAlgebra_mul_spec (a b c : list Z) (x y z : elt) (t : C)
    (ri_complement ri_complement' : list (nat * nat)) :
  mul (RR a) (RR b) = mul (RR b) (RR a) /\
  mul (RR a) (RR b) = RR (index_mul a b) /\
  length (index_mul a b) = Nat.max (length a) (length b) /\
  (forall k, nth k (index_mul a b) 0 = nth k a 0 + nth k b 0) /\
  mul (mul (RR a) (RR b)) (RR c) = mul (RR a) (mul (RR b) (RR c)) /\
  mul (RR []) (RR a) = RR a /\
  mul (RR a) (RR []) = RR a /\
  mul x y = mul y x /\
  mul (mul x y) z = mul x (mul y z) /\
  (ri_complement ≡ₚ ri_complement' ->
   catalan_operator t ri_complement
   = catalan_operator t ri_complement').
Proof using Hring Hnontrivial.
  repeat split.
  - apply mul_comm.
  - apply mul_R.
  - apply index_mul_length.
  - apply index_mul_nth.
  - apply mul_assoc.
  - apply (mul_one_l (RR a)), wf_R.
  - rewrite mul_comm. apply (mul_one_l (RR a)), wf_R.
  - apply mul_comm.
  - apply mul_assoc.
  - intros Hperm. unfold catalan_operator, prod. apply foldl_mul_perm.
    by do 2 apply Permutation_map.
Qed.

End ROATheory.

Lemma RaisingOperatorAlgebra_mul_spec_witness :
  _mul_ (R [1; -1]) (R [0; 1; -1]) = _mul_ (R [0; 1; -1]) (R [1; -1] : gmap (list Z) Z) /\
  _mul_ (R [1; -1]) (R [0; 1; -1]) = (R [1; 0; -1] : gmap (list Z) Z) /\
  catalan_operator (2 : Z) [(0, 1); (1, 2)]%nat = catalan_operator (2 : Z) [(1, 2); (0, 1)]%nat.
Proof.
  pose proof (RaisingOperatorAlgebra_mul_spec Zth ltac:(simpl; lia)
                [1; -1] [0; 1; -1] [] ∅ ∅ ∅ 2 [(0, 1); (1, 2)]%nat [(1, 2); (0, 1)]%nat)
    as (H1 & H2 & _ & _ & _ & _ & _ & _ & _ & H8).
  split; [exact H1|]. split; [exact H2|]. apply H8. apply perm_swap.
Defined.

(** ** Part III: further properties of the code *)

(** *** Rectangles and k-irreducible partitions *)

Lemma any_of_values {A : Type} (f : A -> guarded bool) (g : A -> bool) l :
  (forall x, x ∈ l -> f x = Value (g x)) -> any_of f l = Value (existsb g l).
Proof.
  induction l as [|x l IH]; intros Hf; [done|]. simpl.
  rewrite (Hf x) by left. simpl. destruct (g x); [done|].
  apply IH. intros y Hy. apply Hf. by right.
Qed.

Lemma count_rows_spec (w : Z) ptn :
  foldl (fun num part => if bool_decide (part = w) then num + 1 else num) 0 ptn
  = len (filter (fun x => x = w) ptn).
Proof. by rewrite (count_loop_spec (fun x => x = w)). Qed.

Lemma has_rectangle_value ptn h w :
  1 <= h -> 1 <= w ->
  has_rectangle ptn h w = Value (bool_decide (len (filter (fun x => x = w) ptn) >= h)).
Proof.
  intros Hh Hw. unfold has_rectangle.
  rewrite !bool_decide_eq_true_2 by lia. by rewrite count_rows_spec.
Qed.

Lemma has_k_rectangle_value ptn k :
  has_k_rectangle ptn k =
  Value (existsb (fun d => bool_decide (len (filter (fun x => x = d.2) ptn) >= d.1))
                 (k_rectangle_dimension_list k)).
Proof.
  unfold has_k_rectangle. apply any_of_values. intros [a b] Hd.
  unfold k_rectangle_dimension_list in Hd.
  apply list_elem_of_fmap in Hd as (i & [= -> ->] & Hi%elem_of_range).
  simpl. apply has_rectangle_value; lia.
Qed.

Lemma py_max_spec x l k : py_max x l <= k <-> Forall (fun y => y <= k) (x :: l).
Proof.
  unfold py_max. revert x. induction l as [|y l IH]; intros x; simpl.
  - split; [intros; repeat constructor; done|]. by intros ?%Forall_inv.
  - rewrite IH, !Forall_cons, Z.max_lub_iff. tauto.
Qed.

Lemma is_k_bounded_spec ptn k :
  is_k_bounded ptn k = true <-> 0 <= k /\ Forall (fun y => y <= k) ptn \/ ptn <> [] /\ Forall (fun y => y <= k) ptn.
Proof.
  unfold is_k_bounded. rewrite bool_decide_eq_true. destruct ptn as [|x l].
  - split; [intros; left; by split|]. intros [[? _]|[? _]]; done.
  - rewrite py_max_spec. split; [intros; right; by split|]. by intros [[_ ?]|[_ ?]].
Qed.

Lemma weakly_decreasing_sorted l : weakly_decreasing l <-> StronglySorted Z.ge l.
Proof.
  split.
  - induction l as [|x l IH]; intros Hwd; constructor.
    + apply IH. intros i j a b Hij Ha Hb. by apply (Hwd (S i) (S j)); [lia|..].
    + apply Forall_forall. intros y Hy. apply list_elem_of_lookup in Hy as [j Hj].
      apply Z.le_ge. by apply (Hwd 0%nat (S j) x y); [lia|..].
  - induction 1 as [|x l Hs IH Hx]; intros i j a b Hij Ha Hb.
    + by rewrite lookup_nil in Ha.
    + destruct i as [|i], j as [|j]; simpl in *; try lia.
      * assert (a = b) by congruence. lia.
      * injection Ha as ->. rewrite Forall_forall in Hx.
        apply Z.ge_le, Hx. by eapply list_elem_of_lookup_2.
      * by apply (IH i j); [lia|..].
Qed.

Lemma existsb_false {A : Type} (f : A -> bool) l :
  existsb f l = false <-> forall x, x ∈ l -> f x = false.
Proof.
  induction l as [|y l IH]; simpl.
  - split; [|done]. by intros _ x ?%elem_of_nil.
  - rewrite orb_false_iff, IH. split.
    + intros [Hy Hl] x [->|Hx]%elem_of_cons; auto.
    + intros Hall. split; [apply Hall; left|intros x Hx; apply Hall; by right].
Qed.

(** What [is_k_irreducible] returning true means for the parts. *)
Lemma is_k_irreducible_true ptn k :
  is_k_irreducible ptn k = Value true <->
  is_k_bounded ptn k = true /\
  forall i, 1 <= i <= k -> len (filter (fun x => x = i) ptn) <= k - i.
Proof.
  unfold is_k_irreducible, is_k_reducible.
  destruct (is_k_bounded ptn k); [|split; [done|by intros [? _]]].
  rewrite has_k_rectangle_value. simpl.
  set (b := existsb _ _). assert (Hb : Value (negb b) = Value true <-> b = false).
  { destruct b; split; (done || by intros [=]). }
  rewrite Hb. unfold b. rewrite existsb_false. unfold k_rectangle_dimension_list. split.
  - intros Hall. split; [done|]. intros i Hi.
    specialize (Hall (k - i + 1, i)). simpl in Hall.
    rewrite bool_decide_eq_false in Hall. 
    assert ((k - i + 1, i) ∈ map (fun i => (k - i + 1, i)) (range 1 (k + 1))) as Hin.
    { apply list_elem_of_fmap. exists i. split; [done|]. apply elem_of_range. lia. }
    specialize (Hall Hin). lia.
  - intros [_ Hall] [a c] (i & [= -> ->] & Hi%elem_of_range)%list_elem_of_fmap. simpl.
    apply bool_decide_eq_false. specialize (Hall i ltac:(lia)). lia.
Qed.

Lemma sorted_split_min (v : Z) l :
  StronglySorted Z.ge l -> Forall (fun x => v <= x) l ->
  l = filter (fun x => v < x) l ++ replicate (length (filter (fun x => x = v) l)) v.
Proof.
  induction 1 as [|x l Hs IH Hx]; intros Hv; [done|].
  apply Forall_cons in Hv as [Hxv Hv]. rewrite !filter_cons.
  destruct (decide (v < x)) as [Hlt|Hge].
  - rewrite decide_False by lia. simpl. f_equal. by apply IH.
  - assert (x = v) as -> by lia. rewrite decide_True by done.
    assert (Forall (fun y => y = v) l) as Hall.
    { rewrite Forall_forall in Hx, Hv. apply Forall_forall. intros y Hy.
      specialize (Hx y Hy). specialize (Hv y Hy). simpl in *. lia. }
    rewrite (filter_keeps_none (fun y => v < y)) by (eapply Forall_impl; [exact Hall|]; simpl; lia).
    rewrite (filter_keeps_all (fun y => y = v)) by done.
    simpl. f_equal. clear -Hall. induction Hall as [|y l -> _ IH]; simpl; [done|by f_equal].
Qed.

Lemma StronglySorted_ge_filter (P : Z -> Prop) `{!forall x, Decision (P x)} l :
  StronglySorted Z.ge l -> StronglySorted Z.ge (filter P l).
Proof.
  induction 1 as [|x l Hs IH Hx]; [constructor|].
  rewrite filter_cons. destruct (decide (P x)); [|done].
  constructor; [done|]. apply Forall_forall. intros y [_ Hy]%list_elem_of_filter.
  rewrite Forall_forall in Hx. by apply Hx.
Qed.

Lemma filter_filter_length {A : Type} (P Q : A -> Prop)
    `{!forall x, Decision (P x), !forall x, Decision (Q x)} (l : list A) :
  (length (filter P (filter Q l)) <= length (filter P l))%nat.
Proof.
  induction l as [|x l IH]; [done|]. rewrite !filter_cons.
  destruct (decide (Q x)), (decide (P x)); rewrite ?filter_cons; simpl;
    repeat (destruct (decide _)); simpl; (done || lia).
Qed.

Lemma k_irr_rounds_complete k m l :
  k_irr_inv k m l -> l ∈ foldl (k_irr_round k) [[]] (seq 1 m).
Proof.
  revert l. induction m as [|m IH]; intros l (Hs & Hr & Hc).
  - destruct l as [|x l]; [by left|]. apply Forall_inv in Hr. lia.
  - rewrite k_irr_rounds_snoc. set (v := Z.of_nat k - Z.of_nat (S m)).
    assert (Hsplit := sorted_split_min v l Hs ltac:(eapply Forall_impl; [exact Hr|]; simpl; lia)).
    unfold k_irr_round. apply list_elem_of_In, in_flat_map.
    exists (filter (fun x => v < x) l). split.
    + apply list_elem_of_In, IH. split; [by apply StronglySorted_ge_filter|]. split.
      * apply Forall_forall. intros x [Hx Hin]%list_elem_of_filter.
        rewrite Forall_forall in Hr. specialize (Hr x Hin). simpl in Hr. lia.
      * intros w Hw. etrans; [|apply (Hc w Hw)].
        apply inj_le, filter_filter_length.
    + apply in_map_iff. exists (length (filter (fun x => x = v) l)). split; [symmetry; exact Hsplit|].
      apply in_seq. specialize (Hc v ltac:(lia)). lia.
Qed.

Lemma append_copies_inj (v : Z) p p' n n' :
  Forall (fun x => x <> v) p -> Forall (fun x => x <> v) p' ->
  p ++ replicate n v = p' ++ replicate n' v -> p = p' /\ n = n'.
Proof.
  intros Hp Hp' Heq.
  assert (p = p') as <-.
  { apply (f_equal (filter (fun x => x <> v))) in Heq.
    assert (Hnone : forall m, filter (fun x => x <> v) (replicate m v) = []).
    { intros m. apply filter_keeps_none, Forall_forall. intros y Hy%elem_of_replicate. tauto. }
    rewrite !filter_app, !Hnone, !app_nil_r in Heq.
    by rewrite (filter_keeps_all _ p Hp), (filter_keeps_all _ p' Hp') in Heq. }
  split; [done|]. apply app_inv_head in Heq.
  apply (f_equal length) in Heq. by rewrite !length_replicate in Heq.
Qed.

Lemma flat_map_bind {A B : Type} (f : A -> list B) l : flat_map f l = l ≫= f.
Proof. induction l as [|x l IH]; [done|]. simpl. by rewrite IH. Qed.

Lemma k_irr_rounds_NoDup k m :
  (m < k)%nat -> NoDup (foldl (k_irr_round k) [[]] (seq 1 m)).
Proof.
  induction m as [|m IH]; intros Hm; [apply NoDup_singleton|].
  rewrite k_irr_rounds_snoc. specialize (IH ltac:(lia)).
  pose proof (k_irr_rounds_inv k m ltac:(lia)) as Hinv. rewrite Forall_forall in Hinv.
  assert (Hfresh : forall p, p ∈ foldl (k_irr_round k) [[]] (seq 1 m) ->
            Forall (fun x => x <> Z.of_nat k - Z.of_nat (S m)) p).
  { intros p (_ & Hr & _)%Hinv. eapply Forall_impl; [exact Hr|]. simpl. lia. }
  unfold k_irr_round. rewrite flat_map_bind. apply NoDup_bind; [| |done].
  - intros p p' y Hp Hp' (n & -> & _)%list_elem_of_fmap (n' & Heq & _)%list_elem_of_fmap.
    by apply append_copies_inj in Heq as [? _]; [|apply Hfresh..].
  - intros p Hp. apply NoDup_fmap_2_strong; [|apply NoDup_seq].
    intros n n' _ _ Heq. by apply append_copies_inj in Heq as [_ ?]; [|apply Hfresh..].
Qed.

Lemma list_of_fixed {A : Type} (f : A -> outcome A) l :
  Forall (fun x => f x = Returned x) l -> list_of f l = Returned l.
Proof. induction 1 as [|x l Hx _ IH]; [done|]. simpl. by rewrite Hx, IH. Qed.

Lemma k_irr_inv_partition k m l :
  (m < k)%nat -> k_irr_inv k m l -> Sage.Partition l = Returned l.
Proof.
  intros Hm (Hs & Hr & _). apply Partition_value. split; [by apply weakly_decreasing_sorted|].
  eapply Forall_impl; [exact Hr|]. simpl. lia.
Qed.

(** X1: a list is returned by [get_k_irreducible_partition_lists k] exactly
    when it is a partition that [is_k_irreducible] accepts for [k]. *)
Theorem get_k_irreducible_partition_lists_exact (k : nat) (p : list Z) :
  p ∈ get_k_irreducible_partition_lists k <->
  Sage.Partition p = Returned p /\ is_k_irreducible p (Z.of_nat k) = Value true.
Proof.
  unfold get_k_irreducible_partition_lists. rewrite is_k_irreducible_true, is_k_bounded_spec.
  destruct k as [|k].
  - simpl. rewrite list_elem_of_singleton. split.
    + intros ->. split; [done|]. split; [left; by split|]. intros i Hi. lia.
    + intros (Hp%Partition_value & Hb & _). destruct p as [|x p]; [done|].
      destruct Hp as [_ Hpos%Forall_inv]. destruct Hb as [[_ Hb%Forall_inv]|[_ Hb%Forall_inv]]; lia.
  - replace (S k - 1)%nat with k by lia. split.
    + intros Hin. pose proof (k_irr_rounds_inv (S k) k ltac:(lia)) as Hinv.
      rewrite Forall_forall in Hinv. specialize (Hinv p Hin).
      split; [by eapply k_irr_inv_partition; [|done]; lia|].
      destruct Hinv as (_ & Hr & Hc). split.
      * left. split; [lia|]. eapply Forall_impl; [exact Hr|]. simpl. lia.
      * intros i Hi. apply Hc. lia.
    + intros ([Hwd Hpos]%Partition_value & Hb & Hc). apply k_irr_rounds_complete.
      assert (Hle : Forall (fun y => y <= Z.of_nat (S k)) p) by (by destruct Hb as [[_ ?]|[_ ?]]).
      assert (Hcount : forall v, v <= Z.of_nat (S k) ->
                len (filter (fun x => x = v) p) <= Z.of_nat (S k) - v).
      { intros v Hv. destruct (decide (1 <= v)); [apply Hc; lia|].
        rewrite filter_keeps_none; [unfold len; simpl; lia|].
        eapply Forall_impl; [exact Hpos|]. simpl. lia. }
      split; [by apply weakly_decreasing_sorted|]. split; [|exact Hcount].
      apply Forall_forall. intros x Hx. rewrite Forall_forall in Hpos, Hle.
      specialize (Hpos x Hx). specialize (Hle x Hx). simpl in *.
      assert (x <> Z.of_nat (S k)); [|lia]. intros ->.
      specialize (Hcount (Z.of_nat (S k)) ltac:(lia)).
      assert (0 < length (filter (fun x => x = Z.of_nat (S k)) p))%nat; [|unfold len in *; lia].
      assert (Z.of_nat (S k) ∈ filter (fun x => x = Z.of_nat (S k)) p) as Hin
        by (by apply list_elem_of_filter).
      destruct (filter _ p); [by apply elem_of_nil in Hin|simpl; lia].
Qed.

(** X2: [get_k_irreducible_partition_lists k] returns no list twice. *)
Theorem get_k_irreducible_partition_lists_NoDup (k : nat) :
  NoDup (get_k_irreducible_partition_lists k).
Proof.
  unfold get_k_irreducible_partition_lists. destruct k as [|k]; [apply NoDup_singleton|].
  apply k_irr_rounds_NoDup. lia.
Qed.

(** X3: [get_k_irreducible_partitions k] raises nothing: every list that
    [get_k_irreducible_partition_lists k] builds is a partition as it stands,
    and the [k!] partitions returned are these lists. *)
Theorem get_k_irreducible_partitions_spec (k : nat) :
  get_k_irreducible_partitions k = Returned (get_k_irreducible_partition_lists k) /\
  length (get_k_irreducible_partition_lists k) = fact k.
Proof.
  unfold get_k_irreducible_partitions, get_k_irreducible_partition_lists. destruct k as [|k]; [done|].
  replace (S k - 1)%nat with k by lia. split; [|apply k_irr_rounds_length].
  apply list_of_fixed. eapply Forall_impl; [apply (k_irr_rounds_inv (S k) k); lia|].
  intros l Hl. eapply k_irr_inv_partition; [|done]. lia.
Qed.

(** The k-interior is empty exactly from the largest hook length on. *)
Lemma kBoundary_interior_empty l k :
  Sage.Partition l = Returned l -> -1 <= k ->
  kBoundary l k = Returned (l, []) <-> hd 0 l + len l - 1 <= k.
Proof.
  intros Hl Hk. pose proof Hl as [Hwd Hpos]%Partition_value.
  rewrite kBoundary_returns by done. split.
  - intros [= Hempty]. destruct (decide (hd 0 l + len l - 1 <= k)) as [|Hsmall]; [done|].
    exfalso. destruct l as [|p_0 l']; [unfold len in Hsmall; simpl in Hsmall; lia|].
    pose proof (interior_row_corner (p_0 :: l') k p_0 Hpos eq_refl ltac:(lia)) as Hcorner.
    unfold Sage.hook_lengths in Hempty. rewrite imap_cons in Hempty.
    cbn [map Sage.strip_zeros] in Hempty. fold (interior_row (p_0 :: l') k 0 p_0) in Hempty.
    rewrite bool_decide_eq_false_2 in Hempty by lia. done.
  - intros Hlarge. do 2 f_equal. apply strip_zeros_all_zero, Forall_forall. intros x Hx.
    apply list_elem_of_lookup in Hx as [i Hi]. rewrite kBoundary_inner_lookup in Hi.
    destruct (l !! i) as [p_i|] eqn:Hp; [|done]. injection Hi as <-.
    by apply interior_row_large.
Qed.

Lemma list_of_map {A B : Type} (f : A -> outcome B) (g : A -> B) l :
  (forall x, x ∈ l -> f x = Returned (g x)) -> list_of f l = Returned (map g l).
Proof.
  induction l as [|x l IH]; intros Hf; [done|]. simpl.
  rewrite (Hf x) by left. simpl. rewrite IH; [done|]. intros y Hy. apply Hf. by right.
Qed.

Lemma rectangle_partition (n : nat) (a : Z) :
  0 < a -> Sage.Partition (replicate n a) = Returned (replicate n a).
Proof.
  intros Ha. apply Partition_value. split.
  - apply weakly_decreasing_sorted, StronglySorted_ge_replicate.
  - apply Forall_forall. by intros y [-> _]%elem_of_replicate.
Qed.

Lemma get_k_rectangles_value k :
  get_k_rectangles k =
  Returned (map (fun d => replicate (Z.to_nat d.2) d.1) (k_rectangle_dimension_list k)).
Proof.
  unfold get_k_rectangles. apply list_of_map. intros [a b] Hd. simpl.
  unfold k_rectangle_dimension_list in Hd.
  apply list_elem_of_fmap in Hd as (i & [= -> ->] & Hi%elem_of_range).
  apply rectangle_partition. lia.
Qed.

Lemma k_rectangle_shape k r :
  r ∈ map (fun d => replicate (Z.to_nat d.2) d.1) (k_rectangle_dimension_list k) ->
  exists i, 1 <= i <= k /\ r = replicate (Z.to_nat i) (k - i + 1).
Proof.
  intros ([a b] & -> & Hd)%list_elem_of_fmap. unfold k_rectangle_dimension_list in Hd.
  apply list_elem_of_fmap in Hd as (i & [= -> ->] & Hi%elem_of_range).
  exists i. split; [lia|done].
Qed.

(** X4: [get_k_rectangles k] returns the [k] rectangles [[k-i+1] * i],
    [i = 1 .. k]; the largest hook length of each is [k]: its k-boundary is
    the whole rectangle, its (k-1)-boundary is not. *)
Theorem get_k_rectangles_spec (k : Z) :
  let rects := map (fun i => replicate (Z.to_nat i) (k - i + 1)) (range 1 (k + 1)) in
  get_k_rectangles k = Returned rects /\
  Forall (fun r => kBoundary r k = Returned (r, []) /\
                   kBoundary r (k - 1) <> Returned (r, [])) rects.
Proof.
  intros rects. split.
  - rewrite get_k_rectangles_value. unfold k_rectangle_dimension_list, rects.
    rewrite map_map. done.
  - apply Forall_forall. intros r (i & -> & Hi%elem_of_range)%list_elem_of_fmap.
    assert (Hp := rectangle_partition (Z.to_nat i) (k - i + 1) ltac:(lia)).
    assert (Hhook : hd 0 (replicate (Z.to_nat i) (k - i + 1))
                    + len (replicate (Z.to_nat i) (k - i + 1)) - 1 = k).
    { unfold len. rewrite length_replicate.
      destruct (Z.to_nat i) as [|n] eqn:En; [lia|]. simpl. lia. }
    rewrite !kBoundary_interior_empty by (done || lia). lia.
Qed.

(** X5: every k-rectangle that [get_k_rectangles k] returns is k-bounded and
    has a k-rectangle: [is_k_reducible] accepts it and [is_k_irreducible]
    rejects it, neither failing its assertion. *)
Theorem k_rectangles_are_k_reducible (k : Z) (rects : list (list Z)) :
  get_k_rectangles k = Returned rects ->
  Forall (fun r => is_k_reducible r k = Value true /\ is_k_irreducible r k = Value false) rects.
Proof.
  rewrite get_k_rectangles_value. intros [= <-]. apply Forall_forall.
  intros r (i & Hi & ->)%k_rectangle_shape.
  assert (Hred : is_k_reducible (replicate (Z.to_nat i) (k - i + 1)) k = Value true).
  { unfold is_k_reducible. rewrite (proj2 (is_k_bounded_spec _ _)).
    - rewrite has_k_rectangle_value. f_equal. apply existsb_exists.
      exists (i, k - i + 1). split.
      + apply list_elem_of_In, list_elem_of_fmap. exists (k - i + 1).
        split; [f_equal; lia|apply elem_of_range; lia].
      + simpl. apply bool_decide_eq_true. rewrite filter_eq_replicate, decide_True by done.
        unfold len. rewrite length_replicate. lia.
    - right. split.
      + destruct (Z.to_nat i) eqn:En; [lia|done].
      + apply Forall_forall. intros y [-> _]%elem_of_replicate. lia. }
  split; [done|]. unfold is_k_irreducible. by rewrite Hred.
Qed.

Lemma k_rectangles_are_k_reducible_witness :
  Forall (fun r => is_k_reducible r 3 = Value true /\ is_k_irreducible r 3 = Value false)
         [[3]; [2; 2]; [1; 1; 1]].
Proof. apply (k_rectangles_are_k_reducible 3). reflexivity. Defined.

(** *** Recognising a k-boundary *)

Lemma strip_zeros_partition mu :
  Forall (fun x => 0 <= x) mu -> weakly_decreasing mu ->
  weakly_decreasing (Sage.strip_zeros mu) /\ Forall (fun x => 0 < x) (Sage.strip_zeros mu).
Proof.
  intros Hnn Hwd. split.
  - apply weakly_decreasing_sorted in Hwd. apply weakly_decreasing_sorted.
    clear Hnn. induction Hwd as [|x mu Hs IH Hx]; simpl; [constructor|].
    destruct (bool_decide (x = 0)); constructor; [done|].
    apply Forall_forall. intros y [i Hy%strip_zeros_lookup]%list_elem_of_lookup.
    rewrite Forall_forall in Hx. by eapply Hx, list_elem_of_lookup_2.
  - clear Hwd. induction Hnn as [|x mu Hx _ IH]; simpl; [constructor|].
    destruct (bool_decide (x = 0)) eqn:E; constructor; [|done].
    apply bool_decide_eq_false in E. lia.
Qed.

Lemma Partition_idempotent mu nu :
  Sage.Partition mu = Returned nu -> Sage.Partition nu = Returned nu.
Proof.
  unfold Sage.Partition at 1.
  destruct (forallb _ mu && is_weakly_decreasing mu) eqn:E; [|done].
  apply andb_true_iff in E as [Hnn%forallb_nonneg Hwd%is_weakly_decreasing_spec].
  intros [= <-]. apply Partition_value. by apply strip_zeros_partition.
Qed.

Lemma k_boundary_kBoundary l k :
  Sage.Partition l = Returned l -> SagePartition.k_boundary l k = kBoundary l k.
Proof.
  intros Hl. pose proof (kBoundary_returns l k Hl) as Hk. rewrite Hk.
  unfold kBoundary, Sage.SkewPartition in Hk. rewrite Hl in Hk. simpl in Hk.
  unfold SagePartition.k_boundary, SagePartition.k_interior.
  destruct (Sage.Partition (map _ (Sage.hook_lengths l))) as [nu| |] eqn:Hnu; [|done..].
  simpl in *. unfold Sage.SkewPartition. rewrite Hl, (Partition_idempotent _ _ Hnu). simpl.
  destruct (Sage.contains l nu); [|done]. by injection Hk as <-.
Qed.

Lemma kBoundary_zero l : Sage.Partition l = Returned l -> kBoundary l 0 = Returned (l, l).
Proof.
  intros Hl. pose proof Hl as [Hwd Hpos]%Partition_value.
  rewrite kBoundary_returns by done. do 2 f_equal.
  rewrite <- (strip_zeros_positive l Hpos) at 2. f_equal.
  apply list_eq. intros i. rewrite kBoundary_inner_lookup.
  destruct (l !! i) as [p_i|] eqn:Hi; [|done]. simpl. f_equal.
  apply interior_row_k0; [done..|].
  rewrite Forall_forall in Hpos.
  specialize (Hpos p_i (list_elem_of_lookup_2 _ _ _ Hi)). simpl in Hpos. lia.
Qed.

Lemma is_k_boundary_value outer inner k :
  Sage.Partition outer = Returned outer ->
  exists sp, kBoundary outer k = Returned sp /\
    is_k_boundary (outer, inner) k = Returned (bool_decide ((outer, inner) = sp)).
Proof.
  intros Ho. unfold is_k_boundary. case_bool_decide as Hk.
  - subst k. rewrite kBoundary_zero by done. eexists. split; [done|]. simpl. f_equal.
    apply bool_decide_ext. split; [by intros <-|by intros [= <-]].
  - simpl. rewrite k_boundary_kBoundary, kBoundary_returns by done. simpl. by eexists.
Qed.

(** X6: for a partition [l], the skew partition [kBoundary(l, k)] gives [l]
    back through [partition()] and is recognised by [is_k_boundary] for the
    same [k]; the strict form of [k_boundary_to_partition] (its default)
    raises [TypeError] even on it. *)
Theorem kBoundary_partition_round_trip (l : list Z) (k : Z) (sp : list Z * list Z) :
  Sage.Partition l = Returned l ->
  kBoundary l k = Returned sp ->
  kBoundary_partition sp = Returned l /\
  is_k_boundary sp k = Returned true /\
  k_boundary_to_partition sp true = Raised TypeError.
Proof.
  intros Hl Hsp. pose proof Hsp as Hsp'. rewrite kBoundary_returns in Hsp' by done.
  injection Hsp' as <-. split; [done|]. split; [|done].
  destruct (is_k_boundary_value l (Sage.strip_zeros
     (map (fun row => len (filter (fun x => x > k) row)) (Sage.hook_lengths l))) k Hl)
    as (sp' & Hsp' & ->).
  rewrite Hsp in Hsp'. injection Hsp' as <-. by rewrite bool_decide_eq_true_2.
Qed.

Lemma kBoundary_partition_round_trip_witness :
  kBoundary_partition ([3; 2; 1], [1]) = Returned [3; 2; 1] /\
  is_k_boundary ([3; 2; 1], [1]) 3 = Returned true /\
  k_boundary_to_partition ([3; 2; 1], [1]) true = Raised TypeError.
Proof. apply (kBoundary_partition_round_trip [3; 2; 1] 3); reflexivity. Defined.



Lemma strip_zeros_nth mu j :
  Forall (fun x => 0 <= x) mu -> weakly_decreasing mu ->
  nth j (Sage.strip_zeros mu) 0 = nth j mu 0.
Proof.
  intros Hnn Hwd%weakly_decreasing_sorted. revert j.
  induction Hwd as [|x mu Hs IH Hx]; intros j; [done|].
  apply Forall_cons in Hnn as [Hx0 Hnn]. simpl. case_bool_decide as Hz.
  - subst x. destruct j as [|j]; [done|]. simpl.
    destruct (nth_in_or_default j mu 0) as [Hin%list_elem_of_In| ->]; [|by destruct j].
    rewrite Forall_forall in Hx, Hnn. specialize (Hx _ Hin). specialize (Hnn _ Hin).
    simpl in *. destruct j; lia.
  - destruct j as [|j]; [done|]. simpl. by apply IH.
Qed.

Lemma filter_complement_length (k : Z) (l : list Z) :
  len (filter (fun x => x <= k) l) = len l - len (filter (fun x => x > k) l).
Proof.
  unfold len. induction l as [|x l IH]; [done|]. rewrite !filter_cons.
  destruct (decide (x <= k)), (decide (x > k)); simpl length; lia.
Qed.

Lemma kBoundary_interior_valid l k :
  Sage.Partition l = Returned l ->
  let inner := map (fun row => len (filter (fun x => x > k) row)) (Sage.hook_lengths l) in
  Forall (fun x => 0 <= x) inner /\ weakly_decreasing inner.
Proof.
  intros Hl inner. pose proof (kBoundary_returns l k Hl) as Hk.
  unfold kBoundary, Sage.SkewPartition in Hk. rewrite Hl in Hk. simpl in Hk.
  fold inner in Hk. unfold Sage.Partition in Hk.
  destruct (forallb _ inner && is_weakly_decreasing inner) eqn:E; [|done].
  apply andb_true_iff in E as [Hnn%forallb_nonneg Hwd%is_weakly_decreasing_spec]. done.
Qed.

(** X8: for a partition [ptn], entry [i] of [k_row_lengths(ptn, k)] is the
    number of cells of row [i] whose hook length is at most [k]. *)
Theorem k_row_lengths_spec (ptn : list Z) (k : Z) :
  Sage.Partition ptn = Returned ptn ->
  k_row_lengths ptn k =
  Returned (map (fun row => len (filter (fun x => x <= k) row)) (Sage.hook_lengths ptn)).
Proof.
  intros Hl. pose proof Hl as [Hwd Hpos]%Partition_value.
  destruct (kBoundary_interior_valid ptn k Hl) as [Hnn Hiwd].
  unfold k_row_lengths. rewrite k_boundary_kBoundary, kBoundary_returns by done. simpl.
  f_equal. set (inner := map _ (Sage.hook_lengths ptn)) in *.
  assert (Hlen : (length (Sage.strip_zeros inner) <= length ptn)%nat).
  { etrans; [apply strip_zeros_length|]. unfold inner, Sage.hook_lengths.
    by rewrite length_map, length_imap. }
  apply list_eq. intros j. rewrite row_lengths_lookup, strip_zeros_nth by done.
  rewrite lookup_map. unfold Sage.hook_lengths. rewrite list_lookup_imap.
  destruct (ptn !! j) as [p_j|] eqn:Hj; [|done]. simpl. f_equal.
  assert (Hin : inner !! j = Some (interior_row ptn k j p_j)).
  { unfold inner. by rewrite kBoundary_inner_lookup, Hj. }
  rewrite (nth_lookup_Some _ _ _ _ Hin), filter_complement_length.
  fold (interior_row ptn k j p_j). f_equal.
  unfold len. rewrite length_map, range_length.
  rewrite Forall_forall in Hpos. specialize (Hpos p_j (list_elem_of_lookup_2 _ _ _ Hj)).
  simpl in Hpos. lia.
Qed.

Lemma k_row_lengths_spec_witness :
  k_row_lengths [3; 2; 1] 3 =
  Returned (map (fun row => len (filter (fun x => x <= 3) row)) (Sage.hook_lengths [3; 2; 1])).
Proof. apply (k_row_lengths_spec [3; 2; 1] 3). reflexivity. Defined.

(** *** The boundary path of a partition *)

Lemma rim_path_facts a l b :
  rim_path a l b ->
  hd_error l = Some a /\ last l = Some b /\ unit_steps l /\
  len l = (a.1 - b.1) + (b.2 - a.2) + 1.
Proof.
  assert (Hsnoc : forall l c x y, hd_error l = Some a -> last l = Some (x, y) -> unit_steps l ->
            (c = (x - 1, y) \/ c = (x, y + 1)) ->
            hd_error (l ++ [c]) = Some a /\ last (l ++ [c]) = Some c /\ unit_steps (l ++ [c])).
  { clear. intros l c x y Hhd Hlast Hsteps Hc. split; [by destruct l|]. split; [apply last_snoc|].
    intros i p q Hp Hq. destruct (decide (S i < length l)%nat) as [Hlt|Hge].
    - rewrite lookup_app_l in Hp, Hq by lia. by apply (Hsteps i).
    - assert (S i = length l) as Hi.
      { apply lookup_lt_Some in Hq. rewrite length_app in Hq. simpl in Hq. lia. }
      rewrite lookup_app_l in Hp by lia. rewrite Hi, list_lookup_middle in Hq by done.
      injection Hq as <-. rewrite last_lookup in Hlast.
      replace (pred (length l)) with i in Hlast by lia.
      assert (p = (x, y)) as -> by congruence. done. }
  induction 1 as [|l x y Hp (Hhd & Hlast & Hsteps & Hlen)|l x y Hp (Hhd & Hlast & Hsteps & Hlen)].
  - split; [done|]. split; [done|]. split; [|unfold len; simpl; lia].
    intros i p q _ Hq. by destruct i.
  - destruct (Hsnoc l (x - 1, y) x y) as (? & ? & ?); [done|done|done|by left|].
    repeat split; [done..|]. unfold len in *. rewrite length_app. simpl in *. lia.
  - destruct (Hsnoc l (x, y + 1) x y) as (? & ? & ?); [done|done|done|by right|].
    repeat split; [done..|]. unfold len in *. rewrite length_app. simpl in *. lia.
Qed.

Lemma rim_path_last a l b : rim_path a l b -> last l = Some b.
Proof. by intros (_ & ? & _)%rim_path_facts. Qed.

Lemma rim_path_go_west a l x y (n : nat) :
  rim_path a l (x, y) ->
  rim_path a (l ++ reverse (map (fun x' => (x', y)) (range (x - Z.of_nat n) x)))
           (x - Z.of_nat n, y).
Proof.
  intros Hp. induction n as [|n IH].
  - rewrite range_nil, app_nil_r by lia. by replace (x - Z.of_nat 0) with x by lia.
  - rewrite range_cons by lia. cbn [map]. rewrite reverse_cons, app_assoc.
    replace (x - Z.of_nat (S n) + 1) with (x - Z.of_nat n) by lia.
    replace (x - Z.of_nat (S n)) with (x - Z.of_nat n - 1) by lia. by apply rim_path_west.
Qed.

Lemma rim_path_go_north a l x y (n : nat) :
  rim_path a l (x, y) ->
  rim_path a (l ++ map (fun y' => (x, y')) (range (y + 1) (y + 1 + Z.of_nat n)))
           (x, y + Z.of_nat n).
Proof.
  intros Hp. induction n as [|n IH].
  - rewrite range_nil, app_nil_r by lia. by replace (y + Z.of_nat 0) with y by lia.
  - rewrite (range_split (y + 1) (y + 1 + Z.of_nat n)) by lia.
    rewrite (range_cons (y + 1 + Z.of_nat n)), (range_nil (y + 1 + Z.of_nat n + 1)) by lia.
    rewrite map_app, app_assoc. cbn [map].
    replace (y + 1 + Z.of_nat n) with (y + Z.of_nat n + 1) in IH |- * by lia.
    replace (y + Z.of_nat (S n)) with (y + Z.of_nat n + 1) by lia. by apply rim_path_north.
Qed.

Lemma rim_path_app_west a l x y l' c :
  rim_path a l (x, y) -> rim_path (x - 1, y) l' c -> rim_path a (l ++ l') c.
Proof.
  intros Hp. induction 1 as [|l' x' y' _ IH|l' x' y' _ IH].
  - by apply rim_path_west.
  - rewrite app_assoc. by apply rim_path_west.
  - rewrite app_assoc. by apply rim_path_north.
Qed.

Lemma horizontal_piece_after start bdy b :
  last bdy = Some b ->
  horizontal_piece start bdy = reverse (map (fun x => (x, start.2)) (range start.1 b.1)).
Proof. intros Hb. destruct start as [sx sy]. unfold horizontal_piece. by rewrite Hb. Qed.

Lemma boundary_step a bdy px (i : nat) part :
  rim_path a bdy (px, Z.of_nat i) -> part <= px ->
  rim_path a
    ((bdy ++ horizontal_piece (part - 1 + 1, Z.of_nat i + 1 - 1) bdy)
       ++ [(part - 1 + 1, Z.of_nat i + 1)])
    (part, Z.of_nat i + 1).
Proof.
  intros Hp Hle. rewrite (horizontal_piece_after _ _ _ (rim_path_last _ _ _ Hp)). simpl.
  replace (part - 1 + 1) with part by lia.
  replace (Z.of_nat i + 1 - 1) with (Z.of_nat i) by lia.
  apply rim_path_north.
  pose proof (rim_path_go_west a bdy px (Z.of_nat i) (Z.to_nat (px - part)) Hp) as Hw.
  by replace (px - Z.of_nat (Z.to_nat (px - part))) with part in Hw by lia.
Qed.

Lemma last_cons_default (rest : list Z) x d : List.last (x :: rest) d = List.last rest x.
Proof.
  revert x d. induction rest as [|q rest IH]; intros x d; [done|].
  change (List.last (x :: q :: rest) d) with (List.last (q :: rest) d).
  by rewrite !IH.
Qed.

Lemma boundary_loop a rest :
  forall (i : nat) bdy px,
    rim_path a bdy (px, Z.of_nat i) -> StronglySorted Z.ge (px :: rest) ->
    rim_path a
      (foldl (fun bdy '(i, part) =>
                let '(cell_x, cell_y) := (part - 1, Z.of_nat i) in
                let '(x, y) := (cell_x + 1, cell_y + 1) in
                let bdy := bdy ++ horizontal_piece (x, y - 1) bdy in
                bdy ++ [(x, y)])
             bdy (enumerate_from i rest))
      (List.last rest px, Z.of_nat i + len rest).
Proof.
  induction rest as [|part rest IH]; intros i bdy px Hp Hs.
  - cbn [enumerate_from foldl List.last].
    by replace (Z.of_nat i + len []) with (Z.of_nat i) by (unfold len; simpl; lia).
  - cbn [enumerate_from foldl]. apply StronglySorted_inv in Hs as [Hs Hpx].
    pose proof (Forall_inv Hpx) as Hle.
    pose proof (boundary_step a bdy px i part Hp ltac:(lia)) as Hstep.
    eassert (Hstep' : rim_path a _ (part, Z.of_nat (S i))).
    { replace (Z.of_nat (S i)) with (Z.of_nat i + 1) by lia. exact Hstep. }
    specialize (IH (S i) _ part Hstep' Hs).
    replace (Z.of_nat i + len (part :: rest)) with (Z.of_nat (S i) + len rest)
      by (unfold len; simpl length; lia).
    by rewrite last_cons_default.
Qed.

Lemma last_le_hd (px : Z) rest :
  StronglySorted Z.ge (px :: rest) -> Forall (fun x => 0 < x) (px :: rest) ->
  0 < List.last rest px <= px.
Proof.
  intros Hs Hpos. apply StronglySorted_inv in Hs as [_ Hpx]. apply Forall_cons in Hpos as [H0 Hpos].
  destruct rest as [|q rest]; [simpl; lia|].
  assert (List.last (q :: rest) px ∈ q :: rest) as Hin.
  { destruct (exists_last (l := q :: rest)) as (l' & z & Heq); [done|].
    rewrite Heq, last_last. apply elem_of_app. right. by left. }
  rewrite Forall_forall in Hpx, Hpos. specialize (Hpx _ Hin). specialize (Hpos _ Hin).
  simpl in *. lia.
Qed.

Lemma boundary_path ptn :
  Sage.Partition ptn = Returned ptn -> rim_path (hd 0 ptn, 0) (boundary ptn) (0, len ptn).
Proof.
  intros [Hwd%weakly_decreasing_sorted Hpos]%Partition_value.
  unfold boundary. destruct ptn as [|p_0 rest]; [constructor|].
  unfold enumerate. cbn [enumerate_from foldl hd].
  assert (Hfirst : rim_path (p_0, 0)
            (([] ++ horizontal_piece (p_0 - 1 + 1, Z.of_nat 0 + 1 - 1) [])
               ++ [(p_0 - 1 + 1, Z.of_nat 0 + 1)]) (p_0, Z.of_nat 1)).
  { simpl. replace (p_0 - 1 + 1) with p_0 by lia.
    apply (rim_path_north (p_0, 0) [(p_0, 0)] p_0 0). constructor. }
  pose proof (boundary_loop (p_0, 0) rest 1 _ p_0 Hfirst Hwd) as Hloop.
  pose proof (last_le_hd p_0 rest Hwd Hpos) as Hlast.
  rewrite (horizontal_piece_after _ _ _ (rim_path_last _ _ _ Hloop)). simpl.
  replace (len (p_0 :: rest)) with (Z.of_nat 1 + len rest) by (unfold len; simpl length; lia).
  pose proof (rim_path_go_west _ _ _ _ (Z.to_nat (List.last rest p_0)) Hloop) as Hw.
  by replace (List.last rest p_0 - Z.of_nat (Z.to_nat (List.last rest p_0))) with 0 in Hw by lia.
Qed.

(** X9: for a partition [ptn], [boundary(ptn)] is a lattice path from
    [(ptn[0], 0)] (from [(0, 0)] when [ptn] is empty) to [(0, len(ptn))]
    whose every step goes one unit west or one unit north; it has
    [ptn[0] + len(ptn) + 1] points. *)
Theorem boundary_spec (ptn : list Z) :
  Sage.Partition ptn = Returned ptn ->
  hd_error (boundary ptn) = Some (hd 0 ptn, 0) /\
  last (boundary ptn) = Some (0, len ptn) /\
  unit_steps (boundary ptn) /\
  len (boundary ptn) = hd 0 ptn + len ptn + 1.
Proof.
  intros Hpath%boundary_path.
  apply rim_path_facts in Hpath as (? & ? & ? & Hlen). simpl in Hlen.
  repeat split; [done..|lia].
Qed.

Lemma boundary_spec_witness :
  hd_error (boundary [2; 1]) = Some (hd 0 [2; 1], 0) /\
  last (boundary [2; 1]) = Some (0, len [2; 1]) /\
  unit_steps (boundary [2; 1]) /\
  len (boundary [2; 1]) = hd 0 [2; 1] + len [2; 1] + 1.
Proof. apply (boundary_spec [2; 1]). reflexivity. Defined.

Lemma map_reverse {A B : Type} (f : A -> B) l : map f (reverse l) = reverse (map f l).
Proof.
  induction l as [|x l IH]; [done|]. simpl. by rewrite !reverse_cons, map_app, IH.
Qed.

Lemma getitem_last {A : Type} (l : list A) b : last l = Some b -> getitem l (-1) = Returned b.
Proof.
  intros Hb. rewrite last_lookup in Hb. pose proof (lookup_lt_Some _ _ _ Hb) as Hlt.
  unfold getitem, index. rewrite bool_decide_eq_false_2 by lia.
  rewrite bool_decide_eq_true_2 by lia. simpl.
  replace (Z.to_nat (Z.of_nat (length l) + -1)) with (pred (length l)) by lia.
  by rewrite Hb.
Qed.

Lemma getitem_first {A : Type} (l : list A) a : hd_error l = Some a -> getitem l 0 = Returned a.
Proof. destruct l as [|x l]; [done|]. intros [= ->]. by apply (getitem_lookup _ 0%nat). Qed.

Lemma k_interior_value ptn k :
  Sage.Partition ptn = Returned ptn ->
  exists interior,
    SagePartition.k_interior ptn k = Returned interior /\
    Sage.SkewPartition ptn interior = Returned (ptn, interior).
Proof.
  intros Hl. pose proof (k_boundary_kBoundary ptn k Hl) as Hk.
  rewrite kBoundary_returns in Hk by done.
  unfold SagePartition.k_boundary in Hk.
  destruct (SagePartition.k_interior ptn k) as [nu| |] eqn:Hnu; [|done..].
  simpl in Hk. exists nu. split; [done|].
  unfold SagePartition.k_interior in Hnu. apply Partition_idempotent in Hnu.
  unfold Sage.SkewPartition in *. rewrite Hl, Hnu in *. simpl in *.
  destruct (Sage.contains ptn nu); done.
Qed.

Lemma contains_hd outer inner :
  Sage.contains outer inner = true -> 0 <= hd 0 outer -> hd 0 inner <= hd 0 outer.
Proof.
  intros [Hlen Hle]%contains_spec Ho. destruct inner as [|y inner]; [done|].
  destruct outer as [|x outer]; [simpl in Hlen; lia|]. simpl. by apply (Hle 0%nat).
Qed.

(** X10: for a partition [ptn], [k_rim(ptn, k)] returns a lattice path from
    [(ptn[0], 0)] to [(0, len(ptn))] (bottom right to top left) whose every
    step goes one unit west or one unit north, with
    [ptn[0] + len(ptn) + 1] points. *)
Theorem k_rim_spec (ptn : list Z) (k : Z) :
  Sage.Partition ptn = Returned ptn ->
  exists rim,
    k_rim ptn k = Returned rim /\
    hd_error rim = Some (hd 0 ptn, 0) /\
    last rim = Some (0, len ptn) /\
    unit_steps rim /\
    len rim = hd 0 ptn + len ptn + 1.
Proof.
  intros Hl. destruct (k_interior_value ptn k Hl) as (sz & Hint & Hsp).
  apply SkewPartition_value in Hsp as (_ & Hsz & Hcont).
  pose proof (boundary_path sz Hsz) as Hpath.
  pose proof (rim_path_facts _ _ _ Hpath) as (Hhd & Hlast & _ & _).
  pose proof Hl as [_ Hpos]%Partition_value.
  assert (0 <= hd 0 ptn) as Hhd0.
  { destruct ptn; simpl; [lia|]. apply Forall_inv in Hpos. lia. }
  pose proof (contains_hd _ _ Hcont Hhd0) as Hhdle.
  apply contains_spec in Hcont as [Hlen _].
  unfold k_rim. rewrite Hint. cbn [mbind outcome_bind bind].
  rewrite (getitem_last _ _ Hlast), (getitem_first _ _ Hhd). cbn [mbind outcome_bind bind fst snd].
  replace (match ptn with [] => 0 | part :: _ => part end) with (hd 0 ptn) by (by destruct ptn).
  eexists. split; [done|].
  assert (rim_path (hd 0 ptn, 0)
            (map (fun x => (x, 0)) (range_down (hd 0 ptn) (hd 0 sz)) ++ boundary sz
               ++ map (fun y => (0, y)) (range (len sz + 1) (len ptn + 1)))
            (0, len ptn)) as Hrim.
  { rewrite app_assoc.
    pose proof (rim_path_go_north (hd 0 ptn, 0)
                  (map (fun x => (x, 0)) (range_down (hd 0 ptn) (hd 0 sz)) ++ boundary sz)
                  0 (len sz) (length ptn - length sz)) as Hn.
    replace (len sz + 1 + Z.of_nat (length ptn - length sz)) with (len ptn + 1) in Hn
      by (unfold len; lia).
    replace (len sz + Z.of_nat (length ptn - length sz)) with (len ptn) in Hn
      by (unfold len; lia).
    apply Hn. clear Hn. unfold range_down.
    destruct (decide (hd 0 ptn = hd 0 sz)) as [->|Hne].
    - by rewrite range_nil by lia.
    - rewrite (range_split (hd 0 sz + 1) (hd 0 ptn)) by lia.
      rewrite (range_cons (hd 0 ptn)), (range_nil (hd 0 ptn + 1)) by lia.
      rewrite reverse_app. cbn [reverse rev_append app map].
      change (?x :: ?l ++ boundary sz) with ([x] ++ l ++ boundary sz).
      rewrite app_assoc. eapply (rim_path_app_west _ _ (hd 0 sz + 1) 0).
      + pose proof (rim_path_go_west (hd 0 ptn, 0) [(hd 0 ptn, 0)] (hd 0 ptn) 0
                      (Z.to_nat (hd 0 ptn - hd 0 sz - 1)) (rim_path_start _)) as Hw.
        replace (hd 0 ptn - Z.of_nat (Z.to_nat (hd 0 ptn - hd 0 sz - 1)))
          with (hd 0 sz + 1) in Hw by lia.
        rewrite map_reverse. exact Hw.
      + by replace (hd 0 sz + 1 - 1) with (hd 0 sz) by lia. }
  apply rim_path_facts in Hrim as (? & ? & ? & Hrlen). simpl in Hrlen.
  repeat split; [done..|lia].
Qed.

Lemma k_rim_spec_witness :
  exists rim,
    k_rim [3; 2; 1] 3 = Returned rim /\
    hd_error rim = Some (hd 0 [3; 2; 1], 0) /\
    last rim = Some (0, len [3; 2; 1]) /\
    unit_steps rim /\
    len rim = hd 0 [3; 2; 1] + len [3; 2; 1] + 1.
Proof. apply (k_rim_spec [3; 2; 1] 3). reflexivity. Defined.

(** *** The next partition *)

Lemma nth_padded (l : list Z) m i : nth i (l ++ replicate m 0) 0 = nth i l 0.
Proof.
  destruct (decide (i < length l)%nat) as [Hlt|Hge].
  - by rewrite app_nth1.
  - rewrite app_nth2, (nth_overflow l) by lia.
    destruct (decide (i - length l < m)%nat).
    + apply nth_lookup_Some with (d := 0). apply lookup_replicate_2. lia.
    + apply nth_overflow. rewrite length_replicate. lia.
Qed.

Lemma lookup_nth (l : list Z) i : (i < length l)%nat -> l !! i = Some (nth i l 0).
Proof.
  intros Hlt. destruct (lookup_lt_is_Some_2 l i Hlt) as [x Hx].
  by rewrite Hx, (nth_lookup_Some _ _ 0 _ Hx).
Qed.

Lemma partition_nth_nonneg p i : Sage.Partition p = Returned p -> 0 <= nth i p 0.
Proof.
  intros [_ Hpos]%Partition_value. destruct (decide (i < length p)%nat) as [Hlt|Hge].
  - rewrite Forall_forall in Hpos.
    specialize (Hpos _ (list_elem_of_lookup_2 _ _ _ (lookup_nth p i Hlt))). simpl in Hpos. lia.
  - rewrite nth_overflow by lia. lia.
Qed.

Lemma partition_nth_pos p i :
  Sage.Partition p = Returned p -> (i < length p)%nat <-> 0 < nth i p 0.
Proof.
  intros [_ Hpos]%Partition_value. split.
  - intros Hlt. rewrite Forall_forall in Hpos.
    by specialize (Hpos _ (list_elem_of_lookup_2 _ _ _ (lookup_nth p i Hlt))).
  - intros Hp. destruct (decide (i < length p)%nat); [done|].
    rewrite nth_overflow in Hp by lia. lia.
Qed.

Lemma partition_nth_mono p i j :
  Sage.Partition p = Returned p -> (i <= j)%nat -> nth j p 0 <= nth i p 0.
Proof.
  intros Hp Hij. pose proof Hp as [Hwd _]%Partition_value.
  destruct (decide (j < length p)%nat) as [Hlt|Hge].
  - apply (Hwd i j); [done|apply lookup_nth; lia|by apply lookup_nth].
  - rewrite (nth_overflow (n:=j) p) by lia. by apply partition_nth_nonneg.
Qed.

Lemma contains_pointwise a b :
  Sage.Partition a = Returned a -> Sage.Partition b = Returned b ->
  Sage.contains a b = true <-> forall i, nth i b 0 <= nth i a 0.
Proof.
  intros Ha Hb. rewrite contains_spec. split.
  - intros [Hlen Hle] i. destruct (decide (i < length b)%nat) as [Hlt|Hge].
    + apply (Hle i); apply lookup_nth; lia.
    + rewrite (nth_overflow b) by lia. by apply partition_nth_nonneg.
  - intros Hle. split.
    + destruct (decide (length b <= length a)%nat) as [|Hgt]; [done|]. exfalso.
      assert (0 < nth (length a) b 0) by (apply partition_nth_pos; [done|lia]).
      specialize (Hle (length a)). rewrite (nth_overflow a) in Hle by lia. lia.
    + intros i x y Hx Hy. specialize (Hle i).
      by rewrite (nth_lookup_Some _ _ 0 _ Hx), (nth_lookup_Some _ _ 0 _ Hy) in Hle.
Qed.

Lemma partition_ext a b :
  Sage.Partition a = Returned a -> Sage.Partition b = Returned b ->
  (forall i, nth i a 0 = nth i b 0) -> a = b.
Proof.
  intros Ha Hb Heq. apply list_eq_nth; [|done].
  destruct (Nat.lt_trichotomy (length a) (length b)) as [Hlt|[?|Hlt]]; [|done|]; exfalso.
  - assert (0 < nth (length a) b 0) by (by apply partition_nth_pos).
    rewrite <- Heq, nth_overflow in H by lia. lia.
  - assert (0 < nth (length b) a 0) by (by apply partition_nth_pos).
    rewrite Heq, nth_overflow in H by lia. lia.
Qed.

Lemma pointwise_lex_le a b :
  Forall (fun x => 0 < x) a -> Forall (fun x => 0 < x) b ->
  (forall i, nth i a 0 <= nth i b 0) -> a = b \/ lex_lt a b.
Proof.
  intros Ha. revert b. induction Ha as [|x a Hx _ IH]; intros b Hb Hle.
  - destruct Hb as [|y b Hy _]; [by left|]. right. exists 0%nat. split; [lia|done].
  - destruct Hb as [|y b Hy Hb]; [specialize (Hle 0%nat); simpl in Hle; lia|].
    destruct (decide (x = y)) as [->|Hne].
    + destruct (IH b Hb (fun i => Hle (S i))) as [->|(r & Hr & Hlt)]; [by left|].
      right. exists (S r). split; [|done]. intros [|i] Hi; [done|]. apply Hr. lia.
    + right. exists 0%nat. split; [lia|]. specialize (Hle 0%nat). simpl in *. lia.
Qed.

Lemma lift_getitem (l : list Z) (i : nat) :
  (i < length l)%nat -> lift (getitem l (Z.of_nat i)) = Value (nth i l 0).
Proof. intros Hlt. by rewrite (getitem_lookup l i _ (lookup_nth l i Hlt)). Qed.

Lemma lift_setitem (l : list Z) (i : nat) x :
  (i < length l)%nat -> lift (setitem l (Z.of_nat i) x) = Value (<[i := x]> l).
Proof.
  intros Hlt. rewrite setitem_nonneg by (unfold len; lia). by rewrite Nat2Z.id.
Qed.

Lemma reverse_range_S (m : nat) :
  reverse (range 0 (Z.of_nat (S m))) = Z.of_nat m :: reverse (range 0 (Z.of_nat m)).
Proof.
  rewrite (range_split 0 (Z.of_nat m)) by lia.
  rewrite (range_cons (Z.of_nat m)), (range_nil (Z.of_nat m + 1)) by lia.
  by rewrite reverse_app.
Qed.

Lemma last_incrementable_Some gap p max m r :
  last_incrementable gap p max m = Some r ->
  (r < m)%nat /\ incrementable gap p max r /\
  forall s, (r < s < m)%nat -> ~ incrementable gap p max s.
Proof.
  induction m as [|m IH]; [done|]. simpl. case_bool_decide as Hm.
  - intros [= <-]. split; [lia|]. split; [done|]. intros s Hs. lia.
  - intros (Hr & Hinc & Hlast)%IH. split; [lia|]. split; [done|].
    intros s Hs. destruct (decide (s = m)) as [->|]; [done|]. apply Hlast. lia.
Qed.

Lemma last_incrementable_None gap p max m :
  last_incrementable gap p max m = None ->
  forall s, (s < m)%nat -> ~ incrementable gap p max s.
Proof.
  induction m as [|m IH]; [intros _ s Hs; lia|]. simpl. case_bool_decide as Hm; [done|].
  intros Hnone s Hs. destruct (decide (s = m)) as [->|]; [done|]. apply IH; [done|lia].
Qed.

Section NextLoop.

Variable type : option string.
Variable gap : Z.
Hypothesis Hcond : forall a b, condition type a b = Value (bool_decide (a < b - gap)).

Variables p mn mx : list Z.
Hypothesis Hp : Sage.Partition p = Returned p.
Hypothesis Hmn : Sage.Partition mn = Returned mn.
Hypothesis Hmx : Sage.Partition mx = Returned mx.
Hypothesis Hpmx : Sage.contains mx p = true.
Hypothesis Hmnp : Sage.contains p mn = true.

Local Abbreviation P := (p ++ replicate (length mx - length p) 0).
Local Abbreviation M := (mn ++ replicate (length mx - length mn) 0).

Lemma next_lengths : (length mn <= length p <= length mx)%nat.
Proof using Hpmx Hmnp.
  apply contains_spec in Hpmx as [? _]. apply contains_spec in Hmnp as [? _]. lia.
Qed.

Lemma next_P_length : length P = length mx.
Proof using Hpmx Hmnp. pose proof next_lengths. rewrite length_app, length_replicate. lia. Qed.

Lemma next_M_length : length M = length mx.
Proof using Hpmx Hmnp. pose proof next_lengths. rewrite length_app, length_replicate. lia. Qed.

Lemma next_le_max i : nth i p 0 <= nth i mx 0.
Proof using Hp Hmx Hpmx. by apply contains_pointwise. Qed.

Lemma next_min_le i : nth i mn 0 <= nth i p 0.
Proof using Hp Hmn Hmnp. by apply contains_pointwise. Qed.

(** The list the loop leaves when it breaks at row [r]. *)
Local Abbreviation bumped r := (take r P ++ [nth r p 0 + 1] ++ drop (S r) M).

Lemma next_loop_spec (m : nat) :
  (m <= length mx)%nat ->
  next_loop type P M mx (reverse (range 0 (Z.of_nat m))) (take m P ++ drop m M) =
  match last_incrementable gap p mx m with
  | Some r => Value (Some (bumped r))
  | None => if decide (m = 0%nat) then Value (Some M) else Value None
  end.
Proof using Hcond Hpmx Hmnp.
  pose proof next_P_length as HP. pose proof next_M_length as HM.
  induction m as [|m IH]; intros Hm; [done|].
  rewrite reverse_range_S. cbn [next_loop last_incrementable].
  rewrite (lift_getitem P m), (lift_getitem mx m) by lia.
  rewrite nth_padded. cbn [mbind guarded_bind].
  assert (Hcur : (take (S m) P ++ drop (S m) M) !! m = Some (nth m p 0)).
  { rewrite lookup_app_l by (rewrite length_take; lia).
    rewrite lookup_take_lt by lia. rewrite lookup_nth by lia. by rewrite nth_padded. }
  assert (Hbump : <[m := nth m p 0 + 1]> (take (S m) P ++ drop (S m) M) = bumped m).
  { rewrite (take_S_r P m (nth m p 0)) by (rewrite lookup_nth by lia; by rewrite nth_padded).
    rewrite <- app_assoc. rewrite insert_app_r_alt by (rewrite length_take; lia).
    rewrite length_take. replace (m - m `min` length P)%nat with 0%nat by lia. done. }
  assert (Hreset : <[m := nth m mn 0]> (take (S m) P ++ drop (S m) M) = take m P ++ drop m M).
  { rewrite (take_S_r P m (nth m p 0)) by (rewrite lookup_nth by lia; by rewrite nth_padded).
    rewrite <- app_assoc. rewrite insert_app_r_alt by (rewrite length_take; lia).
    rewrite length_take. replace (m - m `min` length P)%nat with 0%nat by lia. simpl.
    rewrite (drop_S M (nth m mn 0) m); [done|].
    rewrite lookup_nth by lia. by rewrite nth_padded. }
  assert (Hlen : (m < length (take (S m) P ++ drop (S m) M))%nat).
  { rewrite length_app, length_take. lia. }
  case_bool_decide as Hzero.
  - assert (m = 0%nat) as -> by lia. unfold incrementable.
    destruct (decide (nth 0 p 0 < nth 0 mx 0)) as [Hlt|Hge].
    + rewrite !bool_decide_eq_true_2 by (done || by split; [|left]).
      rewrite (lift_getitem _ 0) by done. cbn [mbind guarded_bind].
      rewrite (nth_lookup_Some _ _ 0 _ Hcur).
      rewrite (lift_setitem _ 0) by done. cbn [mbind guarded_bind]. by rewrite Hbump.
    + rewrite !bool_decide_eq_false_2 by (done || by intros [? _]). done.
  - destruct (decide (nth m p 0 < nth m mx 0)) as [Hlt|Hge].
    + rewrite (bool_decide_eq_true_2 (nth m p 0 < nth m mx 0)) by done.
      replace (Z.of_nat m - 1) with (Z.of_nat (m - 1)) by lia.
      rewrite (lift_getitem P (m - 1)) by lia. rewrite nth_padded. cbn [mbind guarded_bind].
      rewrite Hcond.
      destruct (decide (nth m p 0 < nth (m - 1) p 0 - gap)) as [Hlt'|Hge'].
      * rewrite !bool_decide_eq_true_2 by (done || by split; [|right]).
        rewrite (lift_getitem (take (S m) P ++ drop (S m) M) m) by done. cbn [mbind guarded_bind].
        rewrite (nth_lookup_Some _ _ 0 _ Hcur).
        rewrite lift_setitem by done. cbn [mbind guarded_bind]. by rewrite Hbump.
      * rewrite !bool_decide_eq_false_2 by (done || intros [_ [?|?]]; lia).
        rewrite (lift_getitem M m) by lia. rewrite nth_padded. cbn [mbind guarded_bind].
        rewrite lift_setitem by done. cbn [mbind guarded_bind]. rewrite Hreset.
        rewrite IH by lia. destruct (last_incrementable gap p mx m); [done|].
        by rewrite decide_False by lia.
    + rewrite !bool_decide_eq_false_2 by (done || by intros [? _]). cbn [mbind guarded_bind].
      rewrite (lift_getitem M m) by lia. rewrite nth_padded. cbn [mbind guarded_bind].
      rewrite lift_setitem by done. cbn [mbind guarded_bind]. rewrite Hreset.
      rewrite IH by lia. destruct (last_incrementable gap p mx m); [done|].
      by rewrite decide_False by lia.
Qed.

End NextLoop.

Section NextFacts.

Variable type : option string.
Variable gap : Z.
Hypothesis Hcond : forall a b, condition type a b = Value (bool_decide (a < b - gap)).
Hypothesis Hgap : 0 <= gap.

Variables p mn mx : list Z.
Hypothesis Hp : Sage.Partition p = Returned p.
Hypothesis Hmn : Sage.Partition mn = Returned mn.
Hypothesis Hmx : Sage.Partition mx = Returned mx.
Hypothesis Hpmx : Sage.contains mx p = true.
Hypothesis Hmnp : Sage.contains p mn = true.

Local Abbreviation P := (p ++ replicate (length mx - length p) 0).
Local Abbreviation M := (mn ++ replicate (length mx - length mn) 0).
Local Abbreviation bumped r := (take r P ++ [nth r p 0 + 1] ++ drop (S r) M).

Lemma no_incrementable_eq :
  (forall s, (s < length mx)%nat -> ~ incrementable 0 p mx s) -> p = mx.
Proof using Hp Hmx Hpmx.
  intros Hnone. apply partition_ext; [done..|].
  assert (Hlen : (length p <= length mx)%nat) by (by apply contains_spec in Hpmx as [? _]).
  intros i. induction i as [i IH] using lt_wf_ind.
  destruct (decide (i < length mx)%nat) as [Hlt|Hge];
    [|by rewrite !nth_overflow by lia].
  pose proof (next_le_max p mx Hp Hmx Hpmx i) as Hle.
  destruct (decide (nth i p 0 = nth i mx 0)) as [|Hne]; [done|]. exfalso.
  apply (Hnone i Hlt). split; [lia|]. destruct i as [|i]; [by left|right].
  replace (S i - 1)%nat with i by lia. rewrite (IH i) by lia.
  pose proof (partition_nth_mono mx i (S i) Hmx ltac:(lia)). lia.
Qed.

Lemma nth_bumped r i :
  (r < length mx)%nat ->
  nth i (bumped r) 0 =
  if decide (i < r)%nat then nth i p 0
  else if decide (i = r) then nth r p 0 + 1 else nth i mn 0.
Proof using Hpmx Hmnp.
  intros Hr. pose proof (next_P_length p mn mx Hpmx Hmnp) as HP.
  pose proof (next_M_length p mn mx Hpmx Hmnp) as HM.
  rewrite nth_lookup. destruct (decide (i < r)%nat) as [Hlt|Hge].
  - rewrite lookup_app_l by (rewrite length_take; lia).
    rewrite lookup_take_lt, lookup_nth by lia. by rewrite nth_padded.
  - rewrite lookup_app_r by (rewrite length_take; lia).
    rewrite length_take. replace (r `min` length P)%nat with r by lia.
    destruct (decide (i = r)) as [->|Hne]; [by replace (r - r)%nat with 0%nat by lia|].
    replace (i - r)%nat with (S (i - r - 1)) by lia. simpl.
    rewrite lookup_drop. replace (S r + (i - r - 1))%nat with i by lia.
    by rewrite <- nth_lookup, nth_padded.
Qed.

Lemma bumped_partition r :
  (r < length mx)%nat -> incrementable gap p mx r ->
  Sage.Partition (bumped r) = Returned (Sage.strip_zeros (bumped r)) /\
  forall i, nth i (Sage.strip_zeros (bumped r)) 0 = nth i (bumped r) 0.
Proof using Hgap Hp Hmn Hmx Hpmx Hmnp.
  intros Hr [Hlt Hprev].
  assert (Hnn : forall i, 0 <= nth i (bumped r) 0).
  { intros i. rewrite nth_bumped by done.
    pose proof (partition_nth_nonneg p i Hp). pose proof (partition_nth_nonneg p r Hp).
    pose proof (partition_nth_nonneg mn i Hmn). repeat destruct (decide _); lia. }
  assert (Hstep : forall i, nth (S i) (bumped r) 0 <= nth i (bumped r) 0).
  { intros i. rewrite !nth_bumped by done.
    pose proof (partition_nth_mono p i (S i) Hp ltac:(lia)).
    pose proof (partition_nth_mono mn i (S i) Hmn ltac:(lia)).
    pose proof (next_min_le p mn Hp Hmn Hmnp (S i)).
    repeat destruct (decide _); try lia.
    - subst. destruct Hprev as [?|Hprev]; [lia|].
      by replace (S i - 1)%nat with i in Hprev by lia; lia.
    - subst. lia. }
  assert (Forall (fun x => 0 <= x) (bumped r)) as HF.
  { apply Forall_forall. intros x [i Hx]%list_elem_of_lookup.
    specialize (Hnn i). by rewrite (nth_lookup_Some _ _ 0 _ Hx) in Hnn. }
  assert (weakly_decreasing (bumped r)) as Hwd.
  { apply is_weakly_decreasing_spec, is_weakly_decreasing_adjacent. intros i x y Hx Hy.
    specialize (Hstep i).
    by rewrite (nth_lookup_Some _ _ 0 _ Hx), (nth_lookup_Some _ _ 0 _ Hy) in Hstep. }
  split; [by apply Partition_intro|]. intros i. by apply strip_zeros_nth.
Qed.

Lemma next_value :
  next p mn (Some mx) type =
  match last_incrementable gap p mx (length mx) with
  | Some r => Value (Some (Sage.strip_zeros (bumped r)))
  | None => Value None
  end.
Proof using Hcond Hgap Hp Hmn Hmx Hpmx Hmnp.
  pose proof (next_P_length p mn mx Hpmx Hmnp) as HP.
  pose proof (next_M_length p mn mx Hpmx Hmnp) as HM.
  unfold next. rewrite Hmx, Hp, Hmn. cbn [lift mbind guarded_bind].
  rewrite Hpmx, Hmnp. cbn [mbind guarded_bind]. case_bool_decide as Hempty.
  - subst mx. done.
  - unfold len. rewrite HP.
    pose proof (next_loop_spec type gap Hcond p mn mx Hpmx Hmnp (length mx) ltac:(lia)) as Hloop.
    assert (Hinit : take (length mx) P ++ drop (length mx) M = P)
      by (by rewrite take_ge, drop_ge, app_nil_r by lia).
    rewrite Hinit in Hloop. rewrite Hloop.
    destruct (last_incrementable gap p mx (length mx)) as [r|] eqn:Hlast.
    + apply last_incrementable_Some in Hlast as (Hr & Hinc & _).
      cbn [mbind guarded_bind]. by rewrite (proj1 (bumped_partition r Hr Hinc)).
    + rewrite decide_False; [done|]. by destruct mx.
Qed.

(** A partition [q'] that is lexicographically greater than [p] first
    differs from it in a row that can grow. *)
Local Abbreviation grows_first q' :=
  (forall s, (forall i, (i < s)%nat -> nth i p 0 = nth i q' 0) -> nth s p 0 < nth s q' 0 ->
             (s < length mx)%nat /\ incrementable gap p mx s).

Lemma next_nothing_greater q' :
  last_incrementable gap p mx (length mx) = None -> grows_first q' -> ~ lex_lt p q'.
Proof using Type.
  intros Hnone Hgrows (s & Hs & Hlt). destruct (Hgrows s Hs Hlt) as [Hlen Hinc].
  by apply (last_incrementable_None _ _ _ _ Hnone s Hlen).
Qed.

Lemma next_result r :
  last_incrementable gap p mx (length mx) = Some r ->
  Sage.Partition (Sage.strip_zeros (bumped r)) = Returned (Sage.strip_zeros (bumped r)) /\
  (forall i, nth i (Sage.strip_zeros (bumped r)) 0 =
             if decide (i < r)%nat then nth i p 0
             else if decide (i = r) then nth r p 0 + 1 else nth i mn 0) /\
  incrementable gap p mx r /\
  Sage.contains mx (Sage.strip_zeros (bumped r)) = true /\
  Sage.contains (Sage.strip_zeros (bumped r)) mn = true /\
  lex_lt p (Sage.strip_zeros (bumped r)) /\
  forall q', Sage.Partition q' = Returned q' -> Sage.contains q' mn = true ->
    grows_first q' -> lex_lt p q' ->
    Sage.strip_zeros (bumped r) = q' \/ lex_lt (Sage.strip_zeros (bumped r)) q'.
Proof using Hgap Hp Hmn Hmx Hpmx Hmnp.
  intros (Hr & Hinc & Hlast)%last_incrementable_Some.
  destruct (bumped_partition r Hr Hinc) as [Hq Hnth].
  set (q := Sage.strip_zeros _) in *.
  assert (Hqi : forall i, nth i q 0 =
            if decide (i < r)%nat then nth i p 0
            else if decide (i = r) then nth r p 0 + 1 else nth i mn 0).
  { intros i. rewrite Hnth. by apply nth_bumped. }
  apply Partition_idempotent in Hq.
  split; [done|]. split; [done|]. split; [done|]. destruct Hinc as [Hlt Hprev].
  split; [|split; [|split]].
  - apply contains_pointwise; [done..|]. intros i. rewrite Hqi.
    pose proof (next_le_max p mx Hp Hmx Hpmx i). pose proof (next_min_le p mn Hp Hmn Hmnp i).
    repeat destruct (decide _); subst; lia.
  - apply contains_pointwise; [done..|]. intros i. rewrite Hqi.
    pose proof (next_min_le p mn Hp Hmn Hmnp i).
    repeat destruct (decide _); subst; lia.
  - exists r. split.
    + intros i Hi. by rewrite Hqi, decide_True.
    + rewrite Hqi, decide_False, decide_True by (done || lia). lia.
  - intros q' Hq' Hq'mn Hgrows (s & Hs & Hslt).
    destruct (Hgrows s Hs Hslt) as [Hslen Hsinc].
    assert (s <= r)%nat as Hsr.
    { destruct (decide (s <= r)%nat); [done|]. exfalso. apply (Hlast s); [lia|done]. }
    destruct (decide (s = r)) as [->|Hsne].
    + destruct (decide (nth r q 0 = nth r q' 0)) as [Heq|Hneq].
      * apply pointwise_lex_le.
        -- by apply Partition_value in Hq as [_ ?].
        -- by apply Partition_value in Hq' as [_ ?].
        -- intros i. destruct (decide (i = r)) as [->|]; [lia|].
           rewrite Hqi. destruct (decide (i < r)%nat); [rewrite Hs by done; lia|].
           rewrite decide_False by done.
           apply (proj1 (contains_pointwise q' mn Hq' Hmn) Hq'mn).
      * right. exists r. split.
        -- intros i Hi. rewrite Hqi, decide_True by done. by apply Hs.
        -- specialize (Hqi r). rewrite decide_False, decide_True in Hqi by (done || lia). lia.
    + right. exists s. split.
      * intros i Hi. rewrite Hqi, decide_True by lia. apply Hs. lia.
      * rewrite Hqi, decide_True by lia. done.
Qed.

(** Every partition inside [max] grows first in a row that can grow; with
    [gap = 1] so does every one with strictly decreasing parts. *)
Lemma grows_first_inside q' :
  Sage.Partition q' = Returned q' -> Sage.contains mx q' = true ->
  gap = 0 \/ gap = 1 /\ strict_parts q' ->
  grows_first q'.
Proof using Hp Hmx.
  clear Hcond Hgap. intros Hq' Hmxq' Hcase s Hs Hslt.
  pose proof (proj1 (contains_pointwise mx q' Hmx Hq') Hmxq' s) as Hle.
  assert (Hslen : (s < length mx)%nat).
  { apply (partition_nth_pos mx s Hmx). pose proof (partition_nth_nonneg p s Hp). lia. }
  split; [done|]. split; [lia|].
  destruct s as [|s]; [by left|right]. replace (S s - 1)%nat with s by lia.
  rewrite (Hs s) by lia. pose proof (partition_nth_mono q' s (S s) Hq' ltac:(lia)).
  destruct Hcase as [->|[-> Hstrict]]; [lia|].
  pose proof (partition_nth_nonneg p (S s) Hp). specialize (Hstrict s ltac:(lia)). lia.
Qed.

End NextFacts.

Lemma condition_None a b : condition None a b = Value (bool_decide (a < b - 0)).
Proof. simpl. f_equal. apply bool_decide_ext. lia. Qed.

Lemma condition_strictly_decreasing a b :
  condition (Some "strictly decreasing") a b = Value (bool_decide (a < b - 1)).
Proof. done. Qed.

(** X11: for partitions [min <= p <= max] (containment of diagrams) and no
    [type], [next(p, min, max)] returns [None] exactly when [p] is [max]. *)
Theorem next_none_iff (p mn mx : list Z) :
  Sage.Partition p = Returned p -> Sage.Partition mn = Returned mn ->
  Sage.Partition mx = Returned mx ->
  Sage.contains mx p = true -> Sage.contains p mn = true ->
  next p mn (Some mx) None = Value None <-> p = mx.
Proof.
  intros Hp Hmn Hmx Hpmx Hmnp.
  rewrite (next_value None 0 condition_None) by (done || lia).
  destruct (last_incrementable 0 p mx (length mx)) as [r|] eqn:Hlast.
  - apply last_incrementable_Some in Hlast as (_ & [Hlt _] & _).
    split; [done|]. intros ->. lia.
  - split; [|done]. intros _. apply no_incrementable_eq; [done..|].
    by apply last_incrementable_None.
Qed.

Lemma next_none_iff_witness :
  next [2; 1] [1] (Some [2; 1]) None = Value None <-> [2; 1] = [2; 1].
Proof. apply (next_none_iff [2; 1] [1] [2; 1]); reflexivity. Defined.

(** X12: for partitions [min <= p <= max] (containment of diagrams) with
    [p <> max] and no [type], [next(p, min, max)] returns the lexicographic
    successor of [p] among the partitions between [min] and [max]: a
    partition [q] with [min <= q <= max] that is lexicographically greater
    than [p], and no greater than any other such partition. *)
Theorem next_successor (p mn mx : list Z) :
  Sage.Partition p = Returned p -> Sage.Partition mn = Returned mn ->
  Sage.Partition mx = Returned mx ->
  Sage.contains mx p = true -> Sage.contains p mn = true ->
  p <> mx ->
  exists q,
    next p mn (Some mx) None = Value (Some q) /\
    Sage.Partition q = Returned q /\
    Sage.contains mx q = true /\ Sage.contains q mn = true /\
    lex_lt p q /\
    forall q', Sage.Partition q' = Returned q' ->
      Sage.contains mx q' = true -> Sage.contains q' mn = true ->
      lex_lt p q' -> q = q' \/ lex_lt q q'.
Proof.
  intros Hp Hmn Hmx Hpmx Hmnp Hne.
  rewrite (next_value None 0 condition_None) by (done || lia).
  destruct (last_incrementable 0 p mx (length mx)) as [r|] eqn:Hlast.
  2: { exfalso. apply Hne, no_incrementable_eq; [done..|]. by apply last_incrementable_None. }
  destruct (next_result 0 ltac:(lia) p mn mx Hp Hmn Hmx Hpmx Hmnp r Hlast)
    as (Hq & _ & _ & Hmxq & Hqmn & Hlex & Hleast).
  eexists. split; [done|]. split; [done|]. split; [done|]. split; [done|]. split; [done|].
  intros q' Hq' Hmxq' Hq'mn Hlt. apply Hleast; [done..| |done].
  apply grows_first_inside; [done..|by left].
Qed.

Lemma next_successor_witness :
  exists q,
    next [2; 1] [1] (Some [3; 2]) None = Value (Some q) /\
    Sage.Partition q = Returned q /\
    Sage.contains [3; 2] q = true /\ Sage.contains q [1] = true /\
    lex_lt [2; 1] q /\
    forall q', Sage.Partition q' = Returned q' ->
      Sage.contains [3; 2] q' = true -> Sage.contains q' [1] = true ->
      lex_lt [2; 1] q' -> q = q' \/ lex_lt q q'.
Proof. apply (next_successor [2; 1] [1] [3; 2]); (reflexivity || discriminate). Defined.

Lemma strict_parts_sorted q : StronglySorted Z.gt q -> strict_parts q.
Proof.
  induction 1 as [|x q Hs IH Hx]; intros i Hi; [by destruct i|].
  destruct i as [|i]; [|by apply IH]. simpl in *.
  destruct q as [|y q']; [simpl in Hi; lia|]. apply Forall_inv in Hx. simpl. lia.
Qed.

Lemma sorted_strict_parts q :
  Forall (fun x => 0 < x) q -> strict_parts q -> StronglySorted Z.gt q.
Proof.
  induction 1 as [|x q Hx Hpos IH]; intros Hstrict; [constructor|].
  assert (Hq : StronglySorted Z.gt q) by (apply IH; intros i; apply (Hstrict (S i))).
  constructor; [done|]. destruct Hq as [|y q' Hq' Hy]; [constructor|].
  apply Forall_inv in Hpos. specialize (Hstrict 0%nat Hpos). simpl in Hstrict.
  constructor; [lia|]. eapply Forall_impl; [exact Hy|]. simpl. lia.
Qed.

(** X13: for strictly decreasing partitions [min <= p] and a partition
    [max >= p], [next(p, min, max, 'strictly decreasing')] raises nothing.
    It returns [None] only when no strictly decreasing partition inside
    [max] is lexicographically greater than [p]; otherwise it returns the
    least strictly decreasing partition between [min] and [max] that is
    lexicographically greater than [p]. *)
Theorem next_strictly_decreasing (p mn mx : list Z) :
  Sage.Partition p = Returned p -> Sage.Partition mn = Returned mn ->
  Sage.Partition mx = Returned mx ->
  Sage.contains mx p = true -> Sage.contains p mn = true ->
  StronglySorted Z.gt p -> StronglySorted Z.gt mn ->
  match next p mn (Some mx) (Some "strictly decreasing") with
  | Value None =>
      forall q', Sage.Partition q' = Returned q' -> StronglySorted Z.gt q' ->
        Sage.contains mx q' = true -> ~ lex_lt p q'
  | Value (Some q) =>
      Sage.Partition q = Returned q /\ StronglySorted Z.gt q /\
      Sage.contains mx q = true /\ Sage.contains q mn = true /\
      lex_lt p q /\
      forall q', Sage.Partition q' = Returned q' -> StronglySorted Z.gt q' ->
        Sage.contains mx q' = true -> Sage.contains q' mn = true ->
        lex_lt p q' -> q = q' \/ lex_lt q q'
  | _ => False
  end.
Proof.
  intros Hp Hmn Hmx Hpmx Hmnp Hps%strict_parts_sorted Hmns%strict_parts_sorted.
  rewrite (next_value _ 1 condition_strictly_decreasing) by (done || lia).
  destruct (last_incrementable 1 p mx (length mx)) as [r|] eqn:Hlast.
  - destruct (next_result 1 ltac:(lia) p mn mx Hp Hmn Hmx Hpmx Hmnp r Hlast)
      as (Hq & Hqi & [Hlt Hprev] & Hmxq & Hqmn & Hlex & Hleast).
    split; [done|]. split; [|split; [done|split; [done|split; [done|]]]].
    + apply sorted_strict_parts; [by apply Partition_value in Hq as [_ ?]|].
      intros i. rewrite !Hqi.
      pose proof (Hps i). pose proof (Hmns i).
      pose proof (next_min_le p mn Hp Hmn Hmnp (S i)).
      pose proof (partition_nth_mono p i (S i) Hp ltac:(lia)).
      destruct Hprev as [Hr0|Hprev].
      { repeat destruct (decide _); try lia; try (replace i with r in * by lia; lia). }
      repeat destruct (decide _); try lia; try (replace i with r in * by lia; lia).
      replace r with (S i) in * by lia.
      replace (S i - 1)%nat with i in Hprev by lia. lia.
    + intros q' Hq' Hq's Hmxq' Hq'mn Hlex'. apply Hleast; [done..| |done].
      apply grows_first_inside; [done..|]. right. split; [done|].
      by apply strict_parts_sorted.
  - intros q' Hq' Hq's Hmxq'. apply (next_nothing_greater 1 p mx q' Hlast).
    apply grows_first_inside; [done..|]. right. split; [done|].
    by apply strict_parts_sorted.
Qed.

Lemma next_strictly_decreasing_witness :
  match next [3; 1] [1] (Some [3; 3]) (Some "strictly decreasing") with
  | Value None =>
      forall q', Sage.Partition q' = Returned q' -> StronglySorted Z.gt q' ->
        Sage.contains [3; 3] q' = true -> ~ lex_lt [3; 1] q'
  | Value (Some q) =>
      Sage.Partition q = Returned q /\ StronglySorted Z.gt q /\
      Sage.contains [3; 3] q = true /\ Sage.contains q [1] = true /\
      lex_lt [3; 1] q /\
      forall q', Sage.Partition q' = Returned q' -> StronglySorted Z.gt q' ->
        Sage.contains [3; 3] q' = true -> Sage.contains q' [1] = true ->
        lex_lt [3; 1] q' -> q = q' \/ lex_lt q q'
  | _ => False
  end.
Proof.
  apply (next_strictly_decreasing [3; 1] [1] [3; 3]); try reflexivity.
  - repeat constructor; lia.
  - repeat constructor.
Defined.

(** *** Raising operators acting on lists *)

Lemma raise_func_index_mul seq operand : raise_func seq operand = index_mul operand seq.
Proof.
  unfold raise_func, index_mul. f_equal.
  - f_equal. f_equal. lia.
  - f_equal. f_equal. rewrite length_app, length_replicate. lia.
Qed.

Lemma nth_ij_to_seq i j k :
  nth k (ij_to_seq (i, j)) 0 =
  if decide (k = j) then -1 else if decide (k = i) then 1 else 0.
Proof.
  unfold ij_to_seq. rewrite nth_lookup. destruct (decide (k = j)) as [->|Hj].
  - rewrite list_lookup_insert_eq; [done|]. rewrite length_insert, length_replicate. lia.
  - rewrite list_lookup_insert_ne by done. destruct (decide (k = i)) as [->|Hi].
    + rewrite list_lookup_insert_eq; [done|]. rewrite length_replicate. lia.
    + rewrite list_lookup_insert_ne by done.
      destruct (decide (k < Nat.max i j + 1)%nat).
      * by rewrite lookup_replicate_2.
      * rewrite (proj1 (lookup_replicate_None _ _ _)); [done|lia].
Qed.

Lemma raise_func_length seq operand :
  length (raise_func seq operand) = Nat.max (length seq) (length operand).
Proof. rewrite raise_func_index_mul, index_mul_length. lia. Qed.

Lemma raise_func_nth seq operand k :
  nth k (raise_func seq operand) 0 = nth k operand 0 + nth k seq 0.
Proof. rewrite raise_func_index_mul. apply index_mul_nth. Qed.

Lemma raise_func_twice seq seq' operand :
  raise_func seq' (raise_func seq operand) = raise_func (index_mul seq seq') operand.
Proof. by rewrite !raise_func_index_mul, index_mul_assoc. Qed.

(** X14: on a list operand, [raise_func] adds [seq] to the operand entry by
    entry, the shorter of the two read as padded with zeros; raising by
    two sequences in turn is raising by their product index [index_mul]. *)
Theorem raise_func_spec (seq seq' operand : list Z) :
  length (raise_func seq operand) = Nat.max (length seq) (length operand) /\
  (forall k, nth k (raise_func seq operand) 0 = nth k operand 0 + nth k seq 0) /\
  raise_func seq' (raise_func seq operand) = raise_func (index_mul seq seq') operand.
Proof.
  split; [apply raise_func_length|]. split; [apply raise_func_nth|apply raise_func_twice].
Qed.

(** X15: the raising operator of the pair [(i, j)], [i <> j], adds one to
    part [i] of a list and takes one from part [j], the list being padded
    with zeros up to both positions; for [i = j] it only takes one from
    part [j]. *)
Theorem ij_to_seq_raises (i j : nat) (operand : list Z) :
  length (raise_func (ij_to_seq (i, j)) operand) = Nat.max (Nat.max i j + 1) (length operand) /\
  forall k : nat,
    nth k (raise_func (ij_to_seq (i, j)) operand) 0 =
    nth k operand 0 + (if decide (k = j) then -1 else if decide (k = i) then 1 else 0).
Proof.
  split.
  - rewrite raise_func_length. unfold ij_to_seq. by rewrite !length_insert, length_replicate.
  - intros k. by rewrite raise_func_nth, nth_ij_to_seq.
Qed.

Section ElementFacts.

Context {C : Type} `{EqDecision C} `{CoeffRing C}.
Hypothesis Hring : ring_theory c0 c1 cadd cmul csub copp eq.
Hypothesis Hnontrivial : c1 <> c0.

Lemma Element_call_R (a operand : list Z) :
  Element_call (R a : gmap (list Z) C) operand = [(raise_func a operand, c1)].
Proof using Type. unfold Element_call, R. by rewrite map_to_list_singleton. Qed.

Lemma size_one_singleton (x : gmap (list Z) C) :
  size x = 1%nat -> exists s c, x = {[ s := c ]}.
Proof using Type.
  intros Hsize. rewrite <- length_map_to_list in Hsize.
  destruct (map_to_list x) as [|[s c] [|? ?]] eqn:Hl; try done.
  exists s, c. rewrite <- (list_to_map_to_list x), Hl. simpl. by rewrite insert_empty.
Qed.

(** X16: acting on a list with the product of two basis elements is acting
    with the second and then with the first: [(R(a) * R(b))(v)] has the one
    term that [R(a)] makes of the list that [R(b)] makes of [v]. *)
Theorem Element_call_mul (a b operand : list Z) :
  Element_call (_mul_ (R a) (R b) : gmap (list Z) C) operand =
  [(raise_func a (raise_func b operand), c1)] /\
  Element_call (R b : gmap (list Z) C) operand = [(raise_func b operand, c1)].
Proof using Hring Hnontrivial.
  split; [|apply Element_call_R].
  rewrite (mul_R Hring Hnontrivial), Element_call_R.
  by rewrite raise_func_twice, index_mul_comm.
Qed.

(** X17: [Element.index] returns the index [s] exactly on the elements with
    the single term [c * R(s)], and raises [ValueError] on every other
    element. *)
Theorem Element_index_spec (x : gmap (list Z) C) (s : list Z) :
  (Element_index x = Returned s <-> exists c, x = {[ s := c ]}) /\
  (Element_index x = Raised ValueError <-> size x <> 1%nat).
Proof using Type.
  unfold Element_index. case_bool_decide as Hsize.
  - split; [|done]. split; [done|]. intros [c ->]. by rewrite map_size_singleton in Hsize.
  - destruct (size_one_singleton x Hsize) as (s' & c & ->).
    unfold indecis. rewrite map_to_list_singleton. simpl.
    rewrite (getitem_first [s'] s' eq_refl). split.
    + split.
      * intros [= <-]. by exists c.
      * intros [c' Heq]. f_equal.
        assert (({[s' := c]} : gmap (list Z) C) !! s = Some c') as Hl by (by rewrite Heq, lookup_singleton_eq).
        apply lookup_singleton_Some in Hl as [? _]. done.
    + split; [done|]. by rewrite map_size_singleton.
Qed.

End ElementFacts.

Lemma Element_call_mul_witness :
  Element_call (_mul_ (R [1; -1]) (R [0; 1; -1]) : gmap (list Z) Z) [2; 2; 1] =
  [(raise_func [1; -1] (raise_func [0; 1; -1] [2; 2; 1]), 1)] /\
  Element_call (R [0; 1; -1] : gmap (list Z) Z) [2; 2; 1] = [(raise_func [0; 1; -1] [2; 2; 1], 1)].
Proof. apply (@Element_call_mul Z _ Z_CoeffRing Zth ltac:(simpl; lia) [1; -1] [0; 1; -1] [2; 2; 1]). Defined.

(** *** Chains of vertex operators *)

(** X18: the operator of a concatenated composition is the composite of the
    operators of its pieces, [H(alpha ++ beta)(x) = H(alpha)(H(beta)(x))]; in
    particular [H([g] ++ beta)(x) = H(g)(H(beta)(x))] for a part [g >= 0], as
    in the docstring's [H([4, 1, 3])(one) == H(4)(H(1)(H(3)(one)))]. *)
Theorem H_apply_app (E : Type) (create : Z -> E -> E) (alpha beta : list Z) (g : Z) (x : E) :
  H_apply E create (ArgList (alpha ++ beta)) x =
    (y ← H_apply E create (ArgList beta) x; H_apply E create (ArgList alpha) y) /\
  (0 <= g ->
   H_apply E create (ArgList (g :: beta)) x =
     (y ← H_apply E create (ArgList beta) x; H_apply E create (ArgInt g) y)).
Proof.
  unfold H_apply. simpl. rewrite !HallLittlewoodVertexOperator_call_foldr.
  split; [by rewrite foldr_app|]. intros Hg.
  rewrite bool_decide_eq_true_2 by done. simpl.
  by rewrite !HallLittlewoodVertexOperator_call_foldr.
Qed.

(** *** [next] without a maximum *)

(** X19: without [max], [next(p, min)] appends a part 1 to [p], whatever
    [type] is; it fails its assertion when [p] does not contain [min]. *)
Theorem next_without_max (p mn : list Z) (type : option string) :
  Sage.Partition p = Returned p -> Sage.Partition mn = Returned mn ->
  next p mn None type =
  if Sage.contains p mn then Value (Some (p ++ [1])) else AssertionError.
Proof.
  intros Hp Hmn. unfold next. rewrite Hp, Hmn. cbn [lift mbind guarded_bind].
  destruct (Sage.contains p mn); [|done]. cbn [mbind guarded_bind].
  assert (Sage.Partition (p ++ [1]) = Returned (p ++ [1])) as ->; [|done].
  apply Partition_value in Hp as [Hwd%weakly_decreasing_sorted Hpos].
  apply Partition_value. split.
  - apply weakly_decreasing_sorted, StronglySorted_app.
    split; [|split; [done|repeat constructor]].
    intros x y Hx ->%list_elem_of_singleton. rewrite Forall_forall in Hpos.
    specialize (Hpos x Hx). simpl in Hpos. lia.
  - apply Forall_app. split; [done|]. by repeat constructor.
Qed.

Lemma next_without_max_witness :
  next [2; 1] [1] None (Some "strictly decreasing") =
  if Sage.contains [2; 1] [1] then Value (Some ([2; 1] ++ [1])) else AssertionError.
Proof. apply (next_without_max [2; 1] [1]); reflexivity. Defined.

(** *** Rebuilding from empty or overlong inputs *)

Lemma rc_no_rows cs items :
  forall t : nat, (t + length items <= length cs)%nat ->
  let st0 := {| rc_outer := []; rc_inner := [];
                rc_current_cs := replicate (length cs) 0; rc_row_index := 0 |} in
  for_each (rc_column [] cs) (enumerate_from t items) st0 =
  if forallb (fun c => bool_decide (c = 0)) items then Returned st0 else Raised ValueError.
Proof.
  induction items as [|c items IH]; intros t Ht st0; [done|]. subst st0.
  cbn [enumerate_from for_each forallb]. unfold rc_column at 1. cbn [rc_current_cs].
  rewrite reverse_replicate.
  rewrite (getitem_lookup _ t 0) by (apply lookup_replicate_2; simpl in Ht; lia).
  cbn [mbind outcome_bind bind]. case_bool_decide as Hneg.
  - rewrite bool_decide_eq_false_2 by lia. done.
  - case_bool_decide as Hz.
    + subst c. simpl Z.to_nat. cbn [slide_rows bind andb]. apply IH. simpl in Ht. lia.
    + destruct (Z.to_nat (c - 0)) as [|n] eqn:En; [lia|]. done.
Qed.

(** X20: with no column lengths the row lengths are not looked at and the
    empty skew partition is returned; with no row lengths the empty skew
    partition is returned when every column length is zero, and
    [ValueError] is raised otherwise. *)
Theorem row_col_to_skew_partition_empty (rs cs : list Z) :
  row_col_to_skew_partition rs [] = Returned ([], []) /\
  row_col_to_skew_partition [] cs =
    if forallb (fun c => bool_decide (c = 0)) cs then Returned ([], []) else Raised ValueError.
Proof.
  split; [done|]. unfold row_col_to_skew_partition, enumerate.
  rewrite rc_no_rows by (rewrite length_reverse; lia).
  assert (forallb (fun c => bool_decide (c = 0)) (reverse cs)
          = forallb (fun c => bool_decide (c = 0)) cs) as ->.
  { apply eq_true_iff_eq. rewrite !forallb_forall. setoid_rewrite <- list_elem_of_In.
    by setoid_rewrite elem_of_reverse. }
  by destruct (forallb _ cs).
Qed.

Lemma getitem_app_l {A : Type} (l extra : list A) i x :
  0 <= i -> getitem l i = Returned x -> getitem (l ++ extra) i = Returned x.
Proof.
  intros Hi. unfold getitem, index. rewrite length_app.
  case_bool_decide as Hin.
  - rewrite bool_decide_eq_true_2 by lia. simpl.
    rewrite lookup_app_l by lia. done.
  - rewrite bool_decide_eq_false_2 by lia. done.
Qed.

Lemma slide_rows_more_rows rs extra col_num n st st' :
  0 <= rc_row_index st ->
  slide_rows rs col_num n st = Returned st' ->
  slide_rows (rs ++ extra) col_num n st = Returned st' /\ 0 <= rc_row_index st'.
Proof.
  revert st. induction n as [|n IH]; intros st Hidx; simpl.
  - by intros [= <-].
  - case_bool_decide as Hout; [done|].
    rewrite bool_decide_eq_false_2 by (unfold len in *; rewrite length_app; lia).
    destruct (getitem rs (rc_row_index st)) as [r| |] eqn:Hr; [|done..].
    rewrite (getitem_app_l _ _ _ _ Hidx Hr). simpl.
    destruct (incr_cols _ _) as [cur| |]; [|done..]. simpl.
    intros Hst. apply IH in Hst; [done|]. simpl. lia.
Qed.

Lemma rc_column_more_rows rs extra cs st st' item :
  0 <= rc_row_index st ->
  rc_column rs cs st item = Returned st' ->
  rc_column (rs ++ extra) cs st item = Returned st' /\ 0 <= rc_row_index st'.
Proof.
  intros Hidx. destruct item as [t c]. unfold rc_column.
  destruct (getitem _ _) as [cur| |]; [|done..]. simpl.
  case_bool_decide; [done|]. by apply slide_rows_more_rows.
Qed.

Lemma rc_loop_more_rows rs extra cs items st st' :
  0 <= rc_row_index st ->
  for_each (rc_column rs cs) items st = Returned st' ->
  for_each (rc_column (rs ++ extra) cs) items st = Returned st'.
Proof.
  revert st. induction items as [|item items IH]; intros st Hidx; [done|]. simpl.
  destruct (rc_column rs cs st item) as [st1| |] eqn:Hst1; [|done..].
  apply (rc_column_more_rows _ extra) in Hst1 as [-> Hidx1]; [|done]. simpl.
  by apply IH.
Qed.

(** X21: row lengths that are never reached are never checked: when
    [row_col_to_skew_partition(rs, cs)] returns a skew partition, it
    returns the same one for [rs] followed by any further row lengths. *)
Theorem row_col_to_skew_partition_ignores_rows (rs extra cs : list Z) (sp : list Z * list Z) :
  row_col_to_skew_partition rs cs = Returned sp ->
  row_col_to_skew_partition (rs ++ extra) cs = Returned sp.
Proof.
  unfold row_col_to_skew_partition.
  destruct (for_each (rc_column rs cs) _ _) as [st| |] eqn:Hst; [|done..].
  by apply (rc_loop_more_rows _ extra) in Hst as ->.
Qed.

Lemma row_col_to_skew_partition_ignores_rows_witness :
  row_col_to_skew_partition ([2; 1] ++ [5; 7]) [2; 1] = Returned ([2; 1], []).
Proof. apply (row_col_to_skew_partition_ignores_rows [2; 1] [5; 7] [2; 1]). reflexivity. Defined.

(** *** Self-conjugate partitions *)

Lemma is_symmetric_inner_passes ptn j ks :
  (forall k, k ∈ ks -> getitem ptn k = Returned (Z.of_nat (length ptn) - j)) ->
  is_symmetric_inner ptn j ks = Returned None.
Proof.
  induction ks as [|k ks IH]; intros Hks; [done|]. simpl.
  rewrite (Hks k) by left. simpl. rewrite bool_decide_eq_false_2 by (intros ?; done).
  apply IH. intros k' Hk'. apply Hks. by right.
Qed.

Lemma is_symmetric_outer_passes ptn js :
  (forall j, j ∈ js -> exists a b,
      getitem ptn (- j) = Returned a /\ getitem ptn (- j - 1) = Returned b /\
      forall k, a <= k < b -> getitem ptn k = Returned (Z.of_nat (length ptn) - j)) ->
  is_symmetric_outer ptn js = Returned true.
Proof.
  induction js as [|j js IH]; intros Hjs; [done|]. simpl.
  destruct (Hjs j ltac:(left)) as (a & b & -> & -> & Hk). simpl.
  rewrite is_symmetric_inner_passes; [|by intros k ?%elem_of_range; apply Hk].
  simpl. apply IH. intros j' Hj'. apply Hjs. by right.
Qed.

Lemma getitem_from_end (l : list Z) (j : nat) :
  (0 < j <= length l)%nat ->
  getitem l (- Z.of_nat j) = Returned (nth (length l - j) l 0).
Proof.
  intros Hj. unfold getitem, index.
  rewrite bool_decide_eq_false_2, bool_decide_eq_true_2 by lia. simpl.
  replace (Z.to_nat (Z.of_nat (length l) + - Z.of_nat j)) with (length l - j)%nat by lia.
  by rewrite lookup_nth by lia.
Qed.

Lemma count_above_exact p (m : nat) k :
  (m <= length p)%nat ->
  (forall i, (i < m)%nat -> k < nth i p 0) ->
  (forall i, (m <= i < length p)%nat -> nth i p 0 <= k) ->
  len (filter (fun x => k < x) p) = Z.of_nat m.
Proof.
  intros Hm Hbefore Hafter. rewrite <- (take_drop m p), filter_app.
  rewrite filter_keeps_all, filter_keeps_none.
  - rewrite app_nil_r. unfold len. rewrite length_take. lia.
  - apply Forall_forall. intros x [i Hx]%list_elem_of_lookup. rewrite lookup_drop in Hx.
    pose proof (lookup_lt_Some _ _ _ Hx).
    specialize (Hafter (m + i)%nat ltac:(lia)).
    rewrite (nth_lookup_Some _ _ 0 _ Hx) in Hafter. lia.
  - apply Forall_forall. intros x [i Hx]%list_elem_of_lookup.
    apply lookup_take_Some in Hx as [Hx Hi]. specialize (Hbefore i Hi).
    by rewrite (nth_lookup_Some _ _ 0 _ Hx) in Hbefore.
Qed.

(** X22: [is_symmetric] returns [True] on every partition that equals its
    conjugate: it raises nothing on such a partition and never rejects
    it. *)
Theorem is_symmetric_accepts_self_conjugate (ptn : list Z) :
  Sage.Partition ptn = Returned ptn -> Sage.conjugate ptn = ptn ->
  is_symmetric ptn = Returned true.
Proof.
  intros Hp Hconj. pose proof Hp as [Hwd Hpos]%Partition_value.
  assert (Hhd : hd 0 ptn = Z.of_nat (length ptn)).
  { pose proof (conjugate_length ptn) as Hl. rewrite Hconj in Hl.
    destruct ptn as [|x ptn']; [done|]. apply Forall_inv in Hpos. simpl in *. lia. }
  assert (Hcol : forall k : nat, nth k ptn 0 = len (filter (fun x => Z.of_nat k < x) ptn)).
  { intros k. rewrite <- Hconj at 1. rewrite <- (Nat2Z.id k) at 1.
    apply conjugate_nth; [done|lia]. }
  assert (Hle_hd : forall i, nth i ptn 0 <= Z.of_nat (length ptn)).
  { intros i. rewrite <- Hhd. destruct ptn as [|x ptn']; [by destruct i|].
    apply (partition_nth_mono (x :: ptn') 0 i Hp). lia. }
  unfold is_symmetric. apply is_symmetric_outer_passes. intros j [Hj0 Hjn]%elem_of_range.
  set (n := length ptn) in *.
  exists (if decide (j = 0) then nth 0 ptn 0 else nth (n - Z.to_nat j) ptn 0),
         (nth (n - Z.to_nat j - 1) ptn 0).
  split; [|split].
  - destruct (decide (j = 0)) as [->|Hne].
    + apply (getitem_lookup ptn 0%nat), lookup_nth. lia.
    + replace j with (Z.of_nat (Z.to_nat j)) at 1 by lia. apply getitem_from_end. lia.
  - replace (- j - 1) with (- Z.of_nat (Z.to_nat j + 1)) by lia.
    rewrite getitem_from_end by lia. do 2 f_equal. lia.
  - intros k [Hka Hkb].
    assert (Hjpos : j <> 0).
    { intros ->. rewrite decide_True in Hka by done.
      pose proof (partition_nth_mono ptn 0 (n - Z.to_nat 0 - 1) Hp ltac:(lia)). lia. }
    rewrite decide_False in Hka by done.
    assert (0 < k).
    { assert (0 < nth (n - Z.to_nat j) ptn 0); [|lia].
      apply partition_nth_pos; [done|]. fold n. lia. }
    pose proof (Hle_hd (n - Z.to_nat j - 1)%nat) as Hb.
    replace k with (Z.of_nat (Z.to_nat k)) at 1 by lia.
    rewrite (getitem_lookup ptn (Z.to_nat k) (nth (Z.to_nat k) ptn 0))
      by (apply lookup_nth; fold n; lia).
    f_equal. rewrite Hcol. replace (Z.of_nat (Z.to_nat k)) with k by lia.
    replace (Z.of_nat n - j) with (Z.of_nat (n - Z.to_nat j)) by lia.
    apply count_above_exact; [lia| |].
    + intros i Hi. pose proof (partition_nth_mono ptn i (n - Z.to_nat j - 1) Hp ltac:(lia)). lia.
    + intros i Hi. pose proof (partition_nth_mono ptn (n - Z.to_nat j) i Hp ltac:(lia)). lia.
Qed.

Lemma is_symmetric_accepts_self_conjugate_witness : is_symmetric [3; 1; 1] = Returned true.
Proof. apply is_symmetric_accepts_self_conjugate; reflexivity. Defined.

(** *** Straight shapes and nested interiors *)

Lemma filter_length_mono {A : Type} (P Q : A -> Prop)
    `{!forall x, Decision (P x), !forall x, Decision (Q x)} (l : list A) :
  (forall x, P x -> Q x) -> (length (filter P l) <= length (filter Q l))%nat.
Proof.
  intros HPQ. induction l as [|x l IH]; [done|]. rewrite !filter_cons.
  destruct (decide (P x)) as [HP|HP].
  - rewrite decide_True by auto. simpl. lia.
  - destruct (decide (Q x)); simpl; lia.
Qed.

Lemma conjugate_weakly_decreasing p : is_weakly_decreasing (Sage.conjugate p) = true.
Proof.
  apply is_weakly_decreasing_adjacent. intros i x y Hx Hy.
  unfold Sage.conjugate in *. rewrite lookup_map in Hx, Hy.
  destruct (range 0 (hd 0 p) !! i) as [a|] eqn:Ha; [|done].
  destruct (range 0 (hd 0 p) !! S i) as [b|] eqn:Hb; [|done].
  injection Hx as <-. injection Hy as <-.
  unfold range in Ha, Hb. apply lookup_seqZ in Ha as [-> _]. apply lookup_seqZ in Hb as [-> _].
  apply inj_le, filter_length_mono. intros z. lia.
Qed.

(** X23: a partition, read as the skew partition with empty inner shape, is a
    skew-linked diagram. *)
Theorem straight_shape_is_linked (l : list Z) :
  Sage.Partition l = Returned l -> is_skew_linked_diagram (l, []) = true.
Proof.
  intros [Hwd _]%Partition_value. unfold is_skew_linked_diagram.
  unfold Sage.column_lengths, Sage.row_lengths. cbn [fst snd].
  change (Sage.conjugate []) with (@nil Z). cbn [length].
  rewrite !zip_with_nil_r, !drop_0. cbn [app].
  rewrite (proj2 (is_weakly_decreasing_spec l) Hwd). apply conjugate_weakly_decreasing.
Qed.

Lemma straight_shape_is_linked_witness : is_skew_linked_diagram ([3; 1; 1], []) = true.
Proof. apply straight_shape_is_linked. reflexivity. Defined.



(** *** What a rebuilt skew partition looks like *)

Lemma slide_rows_sound rs n col_num m :
  forall st pre st',
    rc_rows rs st pre -> rc_counts n st pre -> 1 <= col_num <= n ->
    slide_rows rs col_num m st = Returned st' ->
    exists blk,
      length blk = m /\ Forall (fun r => r.2 = col_num) blk /\
      rc_rows rs st' (pre ++ blk) /\ rc_counts n st' (pre ++ blk).
Proof.
  induction m as [|m IH]; intros st pre st' Hrows Hcounts Hcol; simpl.
  - intros [= <-]. exists []. rewrite app_nil_r. split; [done|]. split; [constructor|]. by split.
  - destruct Hrows as (Ho & Hi & Hidx & Hlen & Hle).
    case_bool_decide as Hout; [done|].
    assert (Hlt : (length pre < length rs)%nat) by (unfold len in *; lia).
    rewrite Hidx. change (len pre) with (Z.of_nat (length pre)).
    rewrite (getitem_lookup rs (length pre) _ (lookup_nth rs _ Hlt)). simpl.
    set (r := nth (length pre) rs 0).
    destruct (incr_cols (rc_current_cs st) _) as [cur| |] eqn:Hincr; [|done..]. simpl.
    intros Hslide.
    apply (IH _ (pre ++ [(col_num - r, col_num)])) in Hslide as (blk & Hblk & Hends & Hrows' & Hcounts').
    + exists ((col_num - r, col_num) :: blk). rewrite <- app_assoc in Hrows', Hcounts'.
      split; [simpl; lia|]. split; [by constructor|]. done.
    + assert (Hlen' : map rowlen (pre ++ [(col_num - r, col_num)])
                      = take (length (pre ++ [(col_num - r, col_num)])) rs).
      { rewrite length_app, map_app, Hlen. simpl.
        replace (length pre + 1)%nat with (S (length pre)) by lia.
        rewrite (take_S_r rs _ r) by (by apply lookup_nth). f_equal.
        unfold rowlen. simpl. f_equal. lia. }
      unfold rc_rows. cbn [rc_outer rc_inner rc_row_index]. rewrite Ho, Hi.
      split; [by rewrite fmap_app|]. split; [by rewrite fmap_app|].
      split; [unfold len; rewrite length_app; simpl; lia|].
      split; [done|]. rewrite length_app. simpl. lia.
    + intros [Hvalid Hnew%Forall_inv]%Forall_app. simpl in Hnew.
      cbn [rc_current_cs]. rewrite (Hcounts Hvalid) in Hincr.
      rewrite incr_cols_cover in Hincr by lia. by injection Hincr as <-.
    + done.
Qed.

Lemma cover_block c blk :
  Forall (fun r => r.2 = c + 1) blk -> Forall (fun r => 0 <= r.1 < r.2) blk ->
  cover c blk = len blk.
Proof.
  intros Hends Hvalid. unfold cover. rewrite filter_keeps_all; [done|].
  rewrite Forall_forall in Hends, Hvalid. apply Forall_forall. intros r Hr.
  specialize (Hends r Hr). specialize (Hvalid r Hr). simpl in *. lia.
Qed.

Lemma cover_left_of c blk : Forall (fun r => r.2 <= c) blk -> cover c blk = 0.
Proof.
  intros Hends. unfold cover. rewrite filter_keeps_none; [done|].
  eapply Forall_impl; [exact Hends|]. simpl. lia.
Qed.

Lemma rc_column_sound rs cs (t : nat) col_length st pre st' :
  (t < length cs)%nat -> reverse cs !! t = Some col_length ->
  rc_inv rs cs t st pre ->
  rc_column rs cs st (t, col_length) = Returned st' ->
  exists pre', rc_inv rs cs (S t) st' pre'.
Proof.
  intros Ht Hcol (Hrows & Hcounts & Hends & Hfill). unfold rc_column.
  destruct (getitem (reverse (rc_current_cs st)) (Z.of_nat t)) as [current| |] eqn:Hcur;
    [|done..]. simpl.
  case_bool_decide as Hneg; [done|]. intros Hslide.
  apply (slide_rows_sound rs (len cs) _ _ st pre) in Hslide
    as (blk & Hblk & Hblkends & Hrows' & Hcounts'); [|done|done|unfold len; lia].
  exists (pre ++ blk). split; [done|]. split; [done|]. split.
  - apply Forall_app. split.
    + eapply Forall_impl; [exact Hends|]. simpl. lia.
    + eapply Forall_impl; [exact Hblkends|]. simpl. unfold len. lia.
  - intros [Hvalid Hbvalid]%Forall_app c Hc. rewrite cover_app.
    destruct (decide (len cs - Z.of_nat t <= c)) as [Hold|Hnew].
    + rewrite (Hfill Hvalid c) by lia. rewrite cover_left_of; [lia|].
      eapply Forall_impl; [exact Hblkends|]. simpl. lia.
    + assert (c = len cs - Z.of_nat t - 1) as -> by lia.
      rewrite (cover_block _ blk); [|eapply Forall_impl; [exact Hblkends|]; simpl; lia|done].
      rewrite (Hcounts Hvalid) in Hcur.
      assert (Hcurrent : reverse (map (fun c => cover c pre) (range 0 (len cs))) !! t
                         = Some (cover (len cs - Z.of_nat t - 1) pre)).
      { rewrite reverse_lookup by (rewrite cover_list_length; unfold len; lia).
        rewrite cover_list_length.
        replace (Z.to_nat (len cs) - S t)%nat with (Z.to_nat (len cs - Z.of_nat t - 1))
          by (unfold len; lia).
        rewrite <- (Z2Nat.id (len cs - Z.of_nat t - 1)) at 2 by (unfold len; lia).
        apply cover_list_lookup. unfold len. lia. }
      rewrite (getitem_lookup _ _ _ Hcurrent) in Hcur. injection Hcur as <-.
      rewrite reverse_lookup in Hcol by lia.
      replace (Z.to_nat (len cs - Z.of_nat t - 1)) with (length cs - S t)%nat
        by (unfold len; lia).
      rewrite (nth_lookup_Some _ _ 0 _ Hcol). unfold len in *. lia.
Qed.

Lemma rc_loop_sound rs cs (d t : nat) st pre st' :
  (t + d = length cs)%nat ->
  rc_inv rs cs t st pre ->
  for_each (rc_column rs cs) (enumerate_from t (drop t (reverse cs))) st = Returned st' ->
  exists pre', rc_inv rs cs (length cs) st' pre'.
Proof.
  revert t st pre. induction d as [|d IH]; intros t st pre Htd Hinv.
  - rewrite drop_ge by (rewrite length_reverse; lia). simpl. intros [= <-].
    exists pre. by replace (length cs) with t by lia.
  - destruct (lookup_lt_is_Some_2 (reverse cs) t) as [col_length Hcol];
      [rewrite length_reverse; lia|].
    rewrite (drop_S _ _ _ Hcol). cbn [enumerate_from for_each].
    destruct (rc_column rs cs st (t, col_length)) as [st1| |] eqn:Hst1; [|done..]. simpl.
    apply (rc_column_sound rs cs t col_length st pre) in Hst1 as [pre1 Hinv1]; [|lia|done|done].
    by apply (IH (S t) st1 pre1); [lia|].
Qed.

Lemma strip_zeros_pad mu :
  Forall (fun x => 0 <= x) mu -> weakly_decreasing mu ->
  Sage.strip_zeros mu ++ replicate (length mu - length (Sage.strip_zeros mu)) 0 = mu.
Proof.
  intros Hnn Hwd. apply list_eq_nth.
  - pose proof (strip_zeros_length mu). rewrite length_app, length_replicate. lia.
  - intros i. by rewrite nth_padded, strip_zeros_nth.
Qed.

Lemma zip_fst_snd_rows (rows : list (Z * Z)) : zip (rows.*1) (rows.*2) = rows.
Proof. induction rows as [|[a b] rows IH]; [done|]. cbn. f_equal. exact IH. Qed.

Lemma rc_sound (rs cs outer inner : list Z) :
  Forall (fun r => 0 < r) rs ->
  row_col_to_skew_partition rs cs = Returned (outer, inner) ->
  Sage.SkewPartition outer inner = Returned (outer, inner) /\
  Sage.row_lengths (outer, inner) = take (length outer) rs /\
  cs = Sage.column_lengths (outer, inner)
       ++ replicate (length cs - length (Sage.column_lengths (outer, inner))) 0.
Proof.
  intros Hrs. unfold row_col_to_skew_partition, enumerate.
  destruct (for_each _ _ _) as [st| |] eqn:Hloop; [|done..]. simpl. intros Hsp.
  assert (Hinit : rc_inv rs cs 0
            {| rc_outer := []; rc_inner := []; rc_current_cs := replicate (length cs) 0;
               rc_row_index := 0 |} []).
  { split; [repeat split; simpl; lia|]. split; [|split; [constructor|]].
    - intros _. simpl. unfold len. by rewrite cover_list_nil, Nat2Z.id.
    - intros _ c Hc. lia. }
  rewrite <- (drop_0 (reverse cs)) in Hloop.
  apply (rc_loop_sound rs cs (length cs) 0 _ [] st ltac:(lia) Hinit) in Hloop
    as (rows & (Ho & Hi & _ & Hlen & Hle) & _ & Hends & Hfill).
  rewrite Ho, Hi in Hsp.
  (* what the constructor checked *)
  unfold Sage.SkewPartition in Hsp.
  destruct (Sage.Partition (rows.*2)) as [o| |] eqn:HPo; [|done..].
  destruct (Sage.Partition (rows.*1)) as [i| |] eqn:HPi; [|done..]. simpl in Hsp.
  destruct (Sage.contains o i) eqn:Hcont; [|done]. injection Hsp as -> ->.
  assert (Hopos : Forall (fun x => 0 < x) (rows.*2)).
  { apply Forall_fmap. eapply Forall_impl; [exact Hends|]. simpl. unfold len. lia. }
  assert (HoP := HPo). unfold Sage.Partition in HPo.
  destruct (forallb _ (rows.*2) && is_weakly_decreasing (rows.*2)) eqn:Eo; [|done].
  injection HPo as Houter. rewrite strip_zeros_positive in Houter by done.
  apply andb_true_iff in Eo as [_ Howd%is_weakly_decreasing_spec].
  assert (HiP := HPi). unfold Sage.Partition in HPi.
  destruct (forallb _ (rows.*1) && is_weakly_decreasing (rows.*1)) eqn:Ei; [|done].
  injection HPi as Hinner.
  apply andb_true_iff in Ei as [Hinn%forallb_nonneg Hiwd%is_weakly_decreasing_spec].
  assert (Hvalid : Forall (fun r => 0 <= r.1 < r.2) rows).
  { apply Forall_forall. intros r [j Hr]%list_elem_of_lookup.
    assert (rowlen r ∈ rs) as Hin.
    { apply (list_elem_of_lookup_2 _ j). 
      assert (map rowlen rows !! j = Some (rowlen r)) as Hm by (by rewrite lookup_map, Hr).
      rewrite Hlen in Hm. by apply lookup_take_Some in Hm as [? _]. }
    rewrite Forall_forall in Hrs. rewrite Forall_forall in Hinn. specialize (Hrs _ Hin).
    specialize (Hinn r.1 ltac:(apply list_elem_of_fmap; exists r; split;
                                 [done|by eapply list_elem_of_lookup_2])).
    unfold rowlen in Hrs. simpl in *. lia. }
  specialize (Hfill Hvalid).
  assert (Hspv : Sage.SkewPartition outer inner = Returned (outer, inner)).
  { unfold Sage.SkewPartition.
    rewrite (Partition_idempotent _ _ HoP), (Partition_idempotent _ _ HiP). simpl.
    by rewrite Hcont. }
  assert (Hrows : sp_rows outer inner = rows).
  { unfold sp_rows. rewrite <- Houter, <- Hinner.
    replace (length (rows.*2)) with (length (rows.*1)) by (by rewrite !length_fmap).
    rewrite strip_zeros_pad by done. apply zip_fst_snd_rows. }
  assert (Hlenio : (length inner <= length outer)%nat).
  { rewrite <- Houter, <- Hinner, length_fmap, <- (length_fmap fst rows).
    apply strip_zeros_length. }
  split; [done|]. split.
  - rewrite row_lengths_rows, Hrows by done. rewrite Hlen. f_equal.
    by rewrite <- Houter, length_fmap.
  - rewrite (column_lengths_rows outer inner Hspv), Hrows.
    assert (Hhd : 0 <= hd 0 outer <= len cs).
    { rewrite <- Houter. destruct rows as [|[a b] rows']; simpl; [unfold len; lia|].
      apply Forall_inv in Hends. simpl in Hends. unfold len in *. lia. }
    rewrite cover_list_length. apply list_eq_nth.
    + rewrite length_app, cover_list_length, length_replicate. unfold len in Hhd. lia.
    + intros c. destruct (decide (c < length cs)%nat) as [Hc|Hc].
      2:{ rewrite !nth_overflow; [done|..];
            [rewrite length_app, cover_list_length, length_replicate; unfold len in Hhd|]; lia. }
      specialize (Hfill (Z.of_nat c) ltac:(unfold len; lia)). rewrite Nat2Z.id in Hfill.
      rewrite <- Hfill. destruct (decide (Z.of_nat c < hd 0 outer)) as [Hin|Hout].
      * rewrite app_nth1 by (rewrite cover_list_length; lia).
        symmetry. apply nth_lookup_Some with (d := 0). by apply cover_list_lookup.
      * rewrite app_nth2 by (rewrite cover_list_length; lia).
        rewrite cover_list_length.
        rewrite (nth_lookup_Some _ _ 0 0) by (apply lookup_replicate_2; unfold len in Hhd; lia).
        apply cover_left_of. apply Forall_forall. intros r [j Hr]%list_elem_of_lookup. simpl.
        assert (outer !! j = Some r.2) as Hj by (by rewrite <- Houter, list_lookup_fmap, Hr).
        rewrite Houter in Howd.
        pose proof (weakly_decreasing_hd outer j r.2 Howd Hj). lia.
Qed.


(** X25: whenever [row_col_to_skew_partition(rs, cs)] returns a skew
    partition for positive row lengths [rs], the rows of that skew
    partition have the lengths [rs] lists first, and its columns have the
    lengths [cs], which can only be followed by zeros. *)
Theorem row_col_to_skew_partition_sound (rs cs outer inner : list Z) :
  Forall (fun r => 0 < r) rs ->
  row_col_to_skew_partition rs cs = Returned (outer, inner) ->
  Sage.row_lengths (outer, inner) = take (length outer) rs /\
  cs = Sage.column_lengths (outer, inner)
       ++ replicate (length cs - length (Sage.column_lengths (outer, inner))) 0.
Proof. intros Hrs Hret. by destruct (rc_sound rs cs outer inner Hrs Hret) as (_ & ? & ?). Qed.

Lemma row_col_to_skew_partition_sound_witness :
  Sage.row_lengths ([6; 5; 3; 2; 2; 1], [2; 2]) =
    take (length [6; 5; 3; 2; 2; 1]) [4; 3; 3; 2; 2; 1] /\
  [4; 3; 3; 2; 2; 1] =
    Sage.column_lengths ([6; 5; 3; 2; 2; 1], [2; 2])
    ++ replicate (length [4; 3; 3; 2; 2; 1]
                  - length (Sage.column_lengths ([6; 5; 3; 2; 2; 1], [2; 2]))) 0.
Proof.
  apply (row_col_to_skew_partition_sound [4; 3; 3; 2; 2; 1] [4; 3; 3; 2; 2; 1]).
  - repeat constructor.
  - reflexivity.
Defined.

Lemma total_app l k : total (l ++ k) = total l + total k.
Proof. unfold total. induction l as [|x l IH]; simpl; lia. Qed.

Lemma total_const {A : Type} (f : A -> Z) (v : Z) l :
  (forall x, x ∈ l -> f x = v) -> total (map f l) = v * len l.
Proof.
  unfold total, len. induction l as [|x l IH]; intros Hf; simpl; [lia|].
  rewrite (Hf x) by left. rewrite IH by (intros y Hy; apply Hf; by right). lia.
Qed.

Lemma total_add {A : Type} (f g : A -> Z) l :
  total (map (fun x => f x + g x) l) = total (map f l) + total (map g l).
Proof. unfold total. induction l as [|x l IH]; simpl; lia. Qed.

Lemma total_row a b n :
  0 <= a <= b -> b <= n ->
  total (map (fun c => if bool_decide (a <= c < b) then 1 else 0) (range 0 n)) = b - a.
Proof.
  intros Hab Hb. rewrite (range_split 0 a n), (range_split a b n) by lia.
  rewrite !map_app, !total_app.
  rewrite (total_const _ 0), (total_const _ 1), (total_const _ 0).
  - unfold len. rewrite !range_length. lia.
  - intros c Hc%elem_of_range. rewrite bool_decide_eq_false_2; [done|lia].
  - intros c Hc%elem_of_range. rewrite bool_decide_eq_true_2; [done|lia].
  - intros c Hc%elem_of_range. rewrite bool_decide_eq_false_2; [done|lia].
Qed.

(** The cells of a diagram, counted by columns and by rows. *)
Lemma total_columns_rows n rows :
  Forall (fun r => 0 <= r.1 <= r.2 /\ r.2 <= n) rows ->
  total (map (fun c => cover c rows) (range 0 n)) = total (map rowlen rows).
Proof.
  induction 1 as [|r rows [Hr Hn] _ IH].
  - rewrite (total_const _ 0); [done|]. intros c _. apply cover_nil.
  - change (r :: rows) with ([r] ++ rows).
    rewrite (map_ext _ (fun c => cover c [r] + cover c rows)) by (intros c; apply cover_app).
    rewrite total_add, IH. simpl. f_equal.
    rewrite (map_ext _ (fun c => if bool_decide (r.1 <= c < r.2) then 1 else 0))
      by (intros c; apply cover_singleton).
    rewrite total_row by lia. unfold rowlen. lia.
Qed.

Lemma total_positive l : Forall (fun x => 0 < x) l -> l <> [] -> 0 < total l.
Proof.
  intros Hl Hne. destruct Hl as [|x l Hx Hl]; [done|]. unfold total. simpl.
  assert (0 <= foldr Z.add 0 l); [|lia]. clear -Hl.
  induction Hl as [|y l Hy _ IH]; simpl; lia.
Qed.

Lemma take_total_eq (m : nat) l :
  Forall (fun x => 0 < x) l -> total (take m l) = total l -> take m l = l.
Proof.
  intros Hl Heq. rewrite <- (take_drop m l) in Heq at 2. rewrite total_app in Heq.
  destruct (drop m l) as [|x d] eqn:Hd.
  - rewrite <- (take_drop m l) at 2. by rewrite Hd, app_nil_r.
  - assert (0 < total (x :: d)); [|lia]. apply total_positive; [|done].
    rewrite <- Hd. by apply Forall_drop.
Qed.

(** X26: for positive row lengths [rs] and column lengths [cs] with the same
    sum, [row_col_to_skew_partition(rs, cs)] returns a skew partition
    exactly when it is a skew partition whose row lengths are [rs] and whose
    column lengths are [cs]: there is at most one such skew partition, and
    the function finds it. *)
Theorem row_col_to_skew_partition_exact (rs cs outer inner : list Z) :
  Forall (fun r => 0 < r) rs -> Forall (fun c => 0 < c) cs -> total rs = total cs ->
  row_col_to_skew_partition rs cs = Returned (outer, inner) <->
  Sage.SkewPartition outer inner = Returned (outer, inner) /\
  Sage.row_lengths (outer, inner) = rs /\ Sage.column_lengths (outer, inner) = cs.
Proof.
  intros Hrs Hcs Htotal. split.
  - intros Hret. destruct (rc_sound rs cs outer inner Hrs Hret) as (Hsp & Hrows & Hcols).
    split; [done|].
    assert (Hcs' : Sage.column_lengths (outer, inner) = cs).
    { destruct (length cs - length (Sage.column_lengths (outer, inner)))%nat as [|k] eqn:Hk.
      - by rewrite app_nil_r in Hcols.
      - exfalso. rewrite Forall_forall in Hcs.
        assert (0 ∈ cs) as Hin; [|specialize (Hcs 0 Hin); simpl in Hcs; lia].
        rewrite Hcols. apply elem_of_app. right. by left. }
    split; [|done]. rewrite Hrows. apply take_total_eq; [done|].
    rewrite <- Hrows, Htotal, <- Hcs'.
    pose proof (SkewPartition_value _ _ Hsp) as (_ & _ & [Hlen _]%contains_spec).
    rewrite (row_lengths_rows outer inner Hlen), (column_lengths_rows outer inner Hsp).
    symmetry. apply total_columns_rows.
    eapply Forall_impl; [apply (sp_rows_bounds outer inner Hsp)|]. simpl. lia.
  - intros (Hsp & <- & <-). by apply round_trip_without_empty_rows.
Qed.

Lemma row_col_to_skew_partition_exact_witness :
  row_col_to_skew_partition [4; 3; 3; 2; 2; 1] [4; 3; 3; 2; 2; 1]
    = Returned ([6; 5; 3; 2; 2; 1], [2; 2]) <->
  Sage.SkewPartition [6; 5; 3; 2; 2; 1] [2; 2] = Returned ([6; 5; 3; 2; 2; 1], [2; 2]) /\
  Sage.row_lengths ([6; 5; 3; 2; 2; 1], [2; 2]) = [4; 3; 3; 2; 2; 1] /\
  Sage.column_lengths ([6; 5; 3; 2; 2; 1], [2; 2]) = [4; 3; 3; 2; 2; 1].
Proof.
  apply (row_col_to_skew_partition_exact [4; 3; 3; 2; 2; 1] [4; 3; 3; 2; 2; 1]).
  - repeat constructor.
  - repeat constructor.
  - reflexivity.
Defined.

(** *** The straightening relations *)

Lemma filter_map_length {A B : Type} (P : B -> Prop) `{!forall y, Decision (P y)}
    (f : A -> B) (l : list A) :
  length (filter P (map f l)) = length (filter (fun x => P (f x)) l).
Proof.
  induction l as [|x l IH]; [done|]. simpl. rewrite !filter_cons.
  destruct (decide (P (f x))); simpl; by rewrite IH.
Qed.

Lemma map_nth_seq (l : list Z) : map (fun j => nth j l 0) (seq 0 (length l)) = l.
Proof.
  induction l as [|x l IH]; [done|]. cbn [length seq map nth]. f_equal.
  rewrite <- seq_shift, map_map. exact IH.
Qed.

(** The rounds of the outer loop of [number_of_noninversions] add up, row
    by row, the later entries that exceed the entry of the row. *)
Lemma noninversions_rows lis rows acc :
  foldl (fun num i =>
           foldl (fun num j => if bool_decide (nth i lis 0 < nth j lis 0) then num + 1 else num)
                 num (seq (i + 1) (length lis - (i + 1))))
        acc rows
  = acc + total (map (fun i => len (filter (fun j => nth i lis 0 < nth j lis 0)
                                           (seq (i + 1) (length lis - (i + 1))))) rows).
Proof.
  revert acc. induction rows as [|i rows IH]; intros acc; simpl; [unfold total; simpl; lia|].
  rewrite IH, (count_loop_spec (fun j => nth i lis 0 < nth j lis 0)).
  unfold total. simpl. lia.
Qed.

Lemma number_of_noninversions_cons x l :
  number_of_noninversions (x :: l)
  = len (filter (fun y => x < y) l) + number_of_noninversions l.
Proof.
  unfold number_of_noninversions. rewrite !noninversions_rows.
  cbn [length seq map]. unfold total at 1. cbn [foldr]. fold (total).
  rewrite !Z.add_0_l. f_equal.
  - replace (S (length l) - (0 + 1))%nat with (length l) by lia.
    change (0 + 1)%nat with 1%nat. unfold len. f_equal.
    rewrite <- seq_shift, filter_map_length. cbn [nth].
    rewrite <- (filter_map_length (fun y => x < y) (fun j => nth j l 0)).
    by rewrite map_nth_seq.
  - fold (total (map (fun i => len (filter (fun j => nth i (x :: l) 0 < nth j (x :: l) 0)
                                      (seq (i + 1) (S (length l) - (i + 1)))))
                     (seq 1 (length l)))).
    rewrite <- seq_shift, map_map. f_equal. apply map_ext. intros i.
    cbn [nth]. unfold len. f_equal.
    replace (S (length l) - (S i + 1))%nat with (length l - (i + 1))%nat by lia.
    replace (S i + 1)%nat with (S (i + 1)) by lia.
    rewrite <- seq_shift, filter_map_length. done.
Qed.

Lemma number_of_noninversions_nonneg l : 0 <= number_of_noninversions l.
Proof.
  induction l as [|x l IH]; [done|]. rewrite number_of_noninversions_cons. unfold len. lia.
Qed.

Lemma number_of_noninversions_swap pre a b post :
  number_of_noninversions (pre ++ a :: b :: post) + (if bool_decide (b < a) then 1 else 0)
  = number_of_noninversions (pre ++ b :: a :: post) + (if bool_decide (a < b) then 1 else 0).
Proof.
  induction pre as [|x pre IH].
  - simpl. rewrite !number_of_noninversions_cons, !filter_cons. unfold len.
    repeat case_bool_decide; repeat destruct (decide _); simpl length; lia.
  - cbn [app]. rewrite !number_of_noninversions_cons.
    assert (len (filter (fun y => x < y) (pre ++ a :: b :: post))
            = len (filter (fun y => x < y) (pre ++ b :: a :: post))) as ->; [|lia].
    unfold len. rewrite !filter_app, !filter_cons, !length_app.
    repeat destruct (decide _); simpl length; lia.
Qed.

Lemma swap_Permutation {A : Type} (pre : list A) a b post :
  pre ++ a :: b :: post ≡ₚ pre ++ b :: a :: post.
Proof. apply Permutation_app_head, perm_swap. Qed.

Lemma merge_sort_Permutation_eq (l k : list Z) :
  l ≡ₚ k -> merge_sort Z.le l = merge_sort Z.le k.
Proof.
  intros Hperm. apply (StronglySorted_unique_strong Z.le).
  - intros x y _ _ ? ?. lia.
  - apply StronglySorted_merge_sort; apply _.
  - apply StronglySorted_merge_sort; apply _.
  - by rewrite !merge_sort_Permutation.
Qed.

Lemma rho_app_swap pre (g1 g2 : Z) post :
  let n := len (pre ++ g1 :: g2 :: post) in
  exists cpre c1 c2 cpost,
    zip_with Z.add (pre ++ g1 :: g2 :: post) (rho n) = cpre ++ c1 :: c2 :: cpost /\
    zip_with Z.add (pre ++ (g2 - 1) :: (g1 + 1) :: post) (rho n) = cpre ++ c2 :: c1 :: cpost.
Proof.
  intros n. unfold n, len. rewrite length_app. cbn [length].
  induction pre as [|x pre IH].
  - cbn [app length Nat.add]. rewrite !rho_S. cbn [zip_with].
    eexists [], _, _, _. split; [reflexivity|]. cbn [app]. f_equal; [lia|]. f_equal. lia.
  - cbn [app length Nat.add]. rewrite rho_S. cbn [zip_with].
    destruct IH as (cpre & c1 & c2 & cpost & -> & ->).
    by eexists (_ :: cpre), c1, c2, cpost.
Qed.

(** X27: the straightening relation: replacing two neighbouring entries
    [g1, g2] of [gamma] by [g2 - 1, g1 + 1] negates [straighten(gamma)] (and
    leaves it zero when it is zero). *)
Theorem straighten_swap (pre : list Z) (g1 g2 : Z) (post : list Z) :
  straighten (pre ++ (g2 - 1) :: (g1 + 1) :: post)
  = straightened_neg (straighten (pre ++ g1 :: g2 :: post)).
Proof.
  unfold straighten.
  assert (len (pre ++ (g2 - 1) :: (g1 + 1) :: post) = len (pre ++ g1 :: g2 :: post)) as ->.
  { unfold len. by rewrite !length_app. }
  destruct (rho_app_swap pre g1 g2 post) as (cpre & c1 & c2 & cpost & -> & ->).
  pose proof (swap_Permutation cpre c1 c2 cpost) as Hperm.
  assert (has_distinct_parts (cpre ++ c2 :: c1 :: cpost)
          = has_distinct_parts (cpre ++ c1 :: c2 :: cpost)) as ->.
  { apply eq_true_iff_eq. rewrite !has_distinct_parts_spec. by rewrite Hperm. }
  assert (has_nonnegative_parts (cpre ++ c2 :: c1 :: cpost)
          = has_nonnegative_parts (cpre ++ c1 :: c2 :: cpost)) as ->.
  { apply eq_true_iff_eq. rewrite !has_nonnegative_parts_spec. by rewrite Hperm. }
  destruct (has_distinct_parts (cpre ++ c1 :: c2 :: cpost)) eqn:Hd; [|done].
  destruct (has_nonnegative_parts _); [|done]. cbn [andb straightened_neg].
  rewrite (merge_sort_Permutation_eq _ _ (symmetry Hperm)). f_equal.
  apply has_distinct_parts_spec in Hd.
  assert (c1 <> c2) as Hne.
  { intros ->. apply NoDup_app in Hd as (_ & _ & Hd).
    apply NoDup_cons in Hd as [Hnin _]. apply Hnin. by left. }
  pose proof (number_of_noninversions_swap cpre c1 c2 cpost) as Hswap.
  pose proof (number_of_noninversions_nonneg (cpre ++ c1 :: c2 :: cpost)).
  pose proof (number_of_noninversions_nonneg (cpre ++ c2 :: c1 :: cpost)).
  destruct (decide (c1 < c2)) as [Hlt|Hge].
  - rewrite bool_decide_eq_false_2, bool_decide_eq_true_2 in Hswap by lia.
    replace (number_of_noninversions (cpre ++ c1 :: c2 :: cpost))
      with (Z.succ (number_of_noninversions (cpre ++ c2 :: c1 :: cpost))) by lia.
    rewrite Z.pow_succ_r by done. lia.
  - rewrite bool_decide_eq_true_2, bool_decide_eq_false_2 in Hswap by lia.
    replace (number_of_noninversions (cpre ++ c2 :: c1 :: cpost))
      with (Z.succ (number_of_noninversions (cpre ++ c1 :: c2 :: cpost))) by lia.
    rewrite Z.pow_succ_r by done. lia.
Qed.

Lemma combined_of_partition (gamma : list Z) :
  StronglySorted Z.ge gamma -> Forall (fun x => 0 <= x) gamma ->
  StronglySorted Z.gt (zip_with Z.add gamma (rho (len gamma))) /\
  Forall (fun x => 0 <= x) (zip_with Z.add gamma (rho (len gamma))) /\
  Forall (fun y => y <= hd 0 gamma + len gamma - 1) (zip_with Z.add gamma (rho (len gamma))) /\
  zip_with Z.sub (zip_with Z.add gamma (rho (len gamma))) (rho (len gamma)) = gamma.
Proof.
  unfold len. induction 1 as [|x g Hs IH Hx]; intros Hnn;
    [by repeat split; constructor|].
  apply Forall_cons in Hnn as [Hx0 Hnn]. destruct (IH Hnn) as (IH1 & IH2 & IH3 & IH4).
  cbn [length]. rewrite rho_S. cbn [zip_with hd].
  assert (Hbound : Forall (fun y => y <= x + Z.of_nat (length g) - 1)
                     (zip_with Z.add g (rho (Z.of_nat (length g))))).
  { eapply Forall_impl; [exact IH3|]. simpl. intros y Hy.
    destruct g as [|z g']; [simpl in *; lia|]. apply Forall_inv in Hx. simpl in *. lia. }
  split; [|split; [|split]].
  - constructor; [done|]. eapply Forall_impl; [exact Hbound|]. simpl. lia.
  - constructor; [lia|done].
  - constructor; [lia|]. eapply Forall_impl; [exact Hbound|]. simpl. lia.
  - f_equal; [lia|done].
Qed.

Lemma number_of_noninversions_decreasing l :
  StronglySorted Z.gt l -> number_of_noninversions l = 0.
Proof.
  induction 1 as [|x l Hs IH Hx]; [done|].
  rewrite number_of_noninversions_cons, IH, filter_keeps_none; [done|].
  eapply Forall_impl; [exact Hx|]. simpl. lia.
Qed.

Lemma StronglySorted_gt_NoDup (l : list Z) : StronglySorted Z.gt l -> NoDup l.
Proof.
  induction 1 as [|x l Hs IH Hx]; constructor; [|done].
  intros Hin. rewrite Forall_forall in Hx. specialize (Hx x Hin). lia.
Qed.

Lemma StronglySorted_gt_reverse (l : list Z) :
  StronglySorted Z.gt l -> StronglySorted Z.le (reverse l).
Proof.
  induction 1 as [|x l Hs IH Hx]; [constructor|].
  rewrite reverse_cons. apply StronglySorted_app. split; [|split; [done|repeat constructor]].
  intros y z Hy Hz%list_elem_of_singleton. subst z. rewrite elem_of_reverse in Hy.
  rewrite Forall_forall in Hx. specialize (Hx y Hy). lia.
Qed.

(** X28: [straighten] leaves a partition as it is: for a weakly decreasing
    [gamma] of non-negative integers it returns the basis element of index
    [gamma] with sign [+1]. *)
Theorem straighten_partition (gamma : list Z) :
  weakly_decreasing gamma -> Forall (fun x => 0 <= x) gamma ->
  straighten gamma = Term 1 gamma.
Proof.
  intros Hwd%weakly_decreasing_sorted Hnn.
  destruct (combined_of_partition gamma Hwd Hnn) as (Hs & Hcnn & _ & Hback).
  unfold straighten.
  rewrite (proj2 (has_distinct_parts_spec _) (StronglySorted_gt_NoDup _ Hs)).
  rewrite (proj2 (has_nonnegative_parts_spec _) Hcnn). cbn [andb].
  rewrite number_of_noninversions_decreasing by done. f_equal.
  assert (merge_sort Z.le (zip_with Z.add gamma (rho (len gamma)))
          = reverse (zip_with Z.add gamma (rho (len gamma)))) as ->.
  { apply (StronglySorted_unique_strong Z.le).
    - intros x y _ _ ? ?. lia.
    - apply StronglySorted_merge_sort; apply _.
    - by apply StronglySorted_gt_reverse.
    - by rewrite merge_sort_Permutation, reverse_Permutation. }
  by rewrite reverse_involutive.
Qed.

Lemma straighten_partition_witness : straighten [2; 2; 1; 0] = Term 1 [2; 2; 1; 0].
Proof.
  apply straighten_partition.
  - apply weakly_decreasing_sorted. repeat constructor; lia.
  - repeat constructor; lia.
Defined.

(** *** [is_weakly_decreasing] *)

(** X29: [is_weakly_decreasing], which compares neighbours only, returns
    [True] exactly on the lists in which no entry is smaller than any later
    entry. *)
Theorem is_weakly_decreasing_sorted (li : list Z) :
  is_weakly_decreasing li = true <-> StronglySorted Z.ge li.
Proof. by rewrite is_weakly_decreasing_spec, weakly_decreasing_sorted. Qed.
